(** * Fantacycling auction: the session controller and its CSV export

    A shallow embedding of [auction.py] (the line-oriented front-end) and
    [auction_tui_backup.py] (the widget front-end), and the properties of
    the navigation-and-assignment session they implement.

    Python [str] values are modelled as lists of characters, a character
    being a code point below 256; Python [int] values as [Z]; list indices,
    which the code keeps non-negative, as [nat].

    The session of each front-end comes in two layers.  [Auction] and
    [AuctionTui] hold the controller: what a turn does to the cursor and
    the table, the one exception it can raise itself being the IndexError.
    [AuctionRun] and [AuctionTuiRun] hold the same turns with their calls
    into the console libraries, which may raise, and with the prompts,
    which may be left unanswered.  The code of those libraries is not part
    of the repository: their calls are parameters there. *)

From Stdlib Require Import ZArith Ascii String DecimalString DecimalNat Lia.
From Stdlib Require DecimalPos.
From stdpp Require Import base option list gmap strings.

(* ================================================================== *)
(** * Python built-ins used by the two programs *)
(* ================================================================== *)

Module Py.

Abbreviation str := (list ascii).

(** A string literal as a [str]. *)
Definition lit (s : string) : str := list_ascii_of_string s.
Arguments lit s%_string.

Definition CR : ascii := "013"%char.
Definition LF : ascii := "010"%char.
Definition DQUOTE : ascii := "034"%char.
Definition COMMA : ascii := ","%char.

Definition code (c : ascii) : nat := nat_of_ascii c.

Definition between (lo hi : nat) (c : ascii) : bool :=
  (lo <=? code c)%nat && (code c <=? hi)%nat.

(** [str.isspace] on one character: TAB..CR, FS..US, SPACE, NEL, NBSP. *)
Definition isspace (c : ascii) : bool :=
  between 9 13 c || between 28 32 c || (code c =? 133)%nat || (code c =? 160)%nat.

Fixpoint lstrip (s : str) : str :=
  match s with
  | [] => []
  | c :: s' => if isspace c then lstrip s' else s
  end.

Definition rstrip (s : str) : str := reverse (lstrip (reverse s)).

(** [s.strip()] *)
Definition strip (s : str) : str := rstrip (lstrip s).

(** [c.lower()] for one character: A..Z and the Latin-1 capitals. *)
Definition lower_char (c : ascii) : ascii :=
  if between 65 90 c then ascii_of_nat (code c + 32)
  else if between 192 222 c && negb (code c =? 215)%nat
       then ascii_of_nat (code c + 32)
  else c.

(** [s.lower()] *)
Definition lower (s : str) : str := map lower_char s.

(** Truth value of a string: [if s] holds for the non-empty ones. *)
Definition nonempty (s : str) : bool :=
  match s with [] => false | _ :: _ => true end.

Definition str_eqb (a b : str) : bool := bool_decide (a = b).

(** [s in (w1, w2, ...)] *)
Definition str_in (s : str) (ws : list str) : bool := existsb (str_eqb s) ws.

Definition isdigit (c : ascii) : bool := between 48 57 c.

Definition digit_value (c : ascii) : Z := Z.of_nat (code c - 48).

(** The digits of an integer literal after its first digit: decimal
    digits, single underscores allowed between two digits. *)
Fixpoint int_digits (acc : Z) (after_underscore : bool) (s : str) : option Z :=
  match s with
  | [] => if after_underscore then None else Some acc
  | c :: s' =>
      if isdigit c then int_digits (acc * 10 + digit_value c) false s'
      else if bool_decide (c = "_"%char)
           then (if after_underscore then None else int_digits acc true s')
      else None
  end.

(** The interpreter's limit on the digits of a decimal literal
    ([sys.get_int_max_str_digits()], 4300 unless configured otherwise):
    [int()] raises the ValueError for a literal with more. *)
Definition max_str_digits : Z := 4300.

(** The digits of a literal; underscores do not count. *)
Fixpoint count_digits (s : str) : nat :=
  match s with
  | [] => 0
  | c :: s' => (if isdigit c then 1 else 0) + count_digits s'
  end.

Definition int_unsigned (s : str) : option Z :=
  match s with
  | [] => None
  | d :: s' =>
      if isdigit d then
        if (Z.of_nat (count_digits s) <=? max_str_digits)%Z
        then int_digits (digit_value d) false s'
        else None
      else None
  end.

(** The blanks [int()] skips around a literal: TAB..CR and SPACE, and NEL
    and NBSP, which reach the parser as spaces.  FS..US are blanks for
    [str.strip] but not here. *)
Definition int_isspace (c : ascii) : bool :=
  between 9 13 c || (code c =? 32)%nat || (code c =? 133)%nat || (code c =? 160)%nat.

Fixpoint int_skip (s : str) : str :=
  match s with
  | [] => []
  | c :: s' => if int_isspace c then int_skip s' else s
  end.

Definition int_trim (s : str) : str := reverse (int_skip (reverse (int_skip s))).

(** [int(s)] for a string: [Some n] when it parses, [None] for the
    [ValueError].  Blanks around the literal are skipped, one sign is
    accepted, and the literal has at most [max_str_digits] digits. *)
Definition int (s : str) : option Z :=
  match int_trim s with
  | [] => None
  | c :: s' =>
      if bool_decide (c = "-"%char) then Z.opp <$> int_unsigned s'
      else if bool_decide (c = "+"%char) then int_unsigned s'
      else int_unsigned (c :: s')
  end.

(** [str(n)] for an integer. *)
Definition str_of_Z (n : Z) : str :=
  list_ascii_of_string (NilZero.string_of_int (Z.to_int n)).

(** [str(n)] for a non-negative counter. *)
Definition str_of_nat (n : nat) : str :=
  list_ascii_of_string (NilEmpty.string_of_uint (Nat.to_uint n)).

End Py.

Import Py.

(* ================================================================== *)
(** * Data model shared by the two front-ends *)
(* ================================================================== *)

(** A stored price: an [int] or a [str]. *)
Inductive pyval :=
| PInt (n : Z)
| PStr (s : str).

#[global] Instance pyval_eq_dec : EqDecision pyval.
Proof. solve_decision. Defined.

(** One entry of [results]: the dict [{'team': ..., 'price': ...}], where
    [None] is Python's [None]. *)
Record result := Result { team : option str; price : option pyval }.

#[global] Instance result_eq_dec : EqDecision result.
Proof. solve_decision. Defined.

Definition unassigned : result := {| team := None; price := None |}.

Definition set_team (t : option str) (r : result) : result :=
  {| team := t; price := price r |}.

Definition set_price (p : option pyval) (r : result) : result :=
  {| team := team r; price := p |}.

(** Session state: the cursor and the assignment table. *)
Record session := Session { current_index : nat; results : list result }.

(** What one operator action leaves behind: the loop goes on, the session
    ends (and the table is exported), or an index was out of range. *)
Inductive outcome :=
| Continue (st : session)
| Break (st : session)
| IndexError.

(** A key as [readchar.readkey()] reports it. *)
Inductive key :=
| KeyUp
| KeyDown
| KeyChar (c : ascii)
| KeyOther.

#[global] Instance key_eq_dec : EqDecision key.
Proof. solve_decision. Defined.

(** The operator's actions.  An [Assign] carries what the operator types
    when asked: the label, the price, and the key pressed at the
    end-of-list prompt of the line-oriented front-end. *)
Inductive action :=
| MoveUp
| MoveDown
| Assign (labelInput priceInput : str) (confirm : key)
| Quit.

(* ================================================================== *)
(** * Text files and the [csv] module, [excel] dialect *)
(* ================================================================== *)

(** The files of the working directory: path to content.  The paths are
    those of regular files that can be created and written: directories,
    permissions and the errors of [open] are outside this model. *)
Abbreviation files := (gmap (list ascii) (list ascii)).

Module Io.

(** Reading in text mode with universal newlines: CR LF and a lone CR
    both arrive as LF.  [pendingcr] tells that the previous character
    was a CR. *)
Fixpoint translate_newlines (pendingcr : bool) (s : str) : str :=
  match s with
  | [] => []
  | c :: s' =>
      if bool_decide (c = CR) then LF :: translate_newlines true s'
      else if bool_decide (c = LF)
           then (if pendingcr then translate_newlines false s'
                 else LF :: translate_newlines false s')
      else c :: translate_newlines false s'
  end.

(** The lines a text file iterates over; each keeps its LF, the last one
    may lack it.  [cur] is the line read so far. *)
Fixpoint split_lines (cur : str) (s : str) : list str :=
  match s with
  | [] => if nonempty cur then [cur] else []
  | c :: s' =>
      if bool_decide (c = LF) then (cur ++ [c]) :: split_lines [] s'
      else split_lines (cur ++ [c]) s'
  end.

(** [for line in open(path, 'r')] *)
Definition text_lines (content : str) : list str :=
  split_lines [] (translate_newlines false content).

End Io.

Module Csv.

Abbreviation row := (list (list ascii)).

(** ** [csv.writer] *)

(** A character that forces the field into quotes: the delimiter, the
    quote character, or a character of the line terminator. *)
Definition needs_quoting (c : ascii) : bool :=
  bool_decide (c = COMMA) || bool_decide (c = DQUOTE)
  || bool_decide (c = CR) || bool_decide (c = LF).

(** The field's characters, every quote character doubled. *)
Fixpoint join_append_data (s : str) : str :=
  match s with
  | [] => []
  | c :: s' =>
      if bool_decide (c = DQUOTE) then DQUOTE :: DQUOTE :: join_append_data s'
      else c :: join_append_data s'
  end.

(** One field as written under QUOTE_MINIMAL. *)
Definition join_append (f : str) : str :=
  if existsb needs_quoting f then DQUOTE :: join_append_data f ++ [DQUOTE]
  else f.

Fixpoint join_fields (r : row) : str :=
  match r with
  | [] => []
  | [f] => join_append f
  | f :: r' => join_append f ++ COMMA :: join_fields r'
  end.

(** [writer.writerow(r)]: a record holding one empty field is written
    as a pair of quotes. *)
Definition writerow (r : row) : str :=
  match r with
  | [ [] ] => [DQUOTE; DQUOTE; CR; LF]
  | _ => join_fields r ++ [CR; LF]
  end.

(** Successive [writerow] calls on one file. *)
Definition writerows (rs : list row) : str := concat (map writerow rs).

(** ** [csv.reader] *)

Inductive parser_state :=
| START_RECORD
| START_FIELD
| IN_FIELD
| IN_QUOTED_FIELD
| QUOTE_IN_QUOTED_FIELD
| EAT_CRNL.

#[global] Instance parser_state_eq_dec : EqDecision parser_state.
Proof. solve_decision. Defined.

Record reader := Reader { state : parser_state; fields : row; field : str }.

(** What the parser is fed: a character of the line, or the end of line. *)
Inductive input :=
| Char (c : ascii)
| EOL.

(** [csv.field_size_limit()] *)
Definition field_limit : Z := 131072.

Definition parse_reset : reader :=
  {| state := START_RECORD; fields := []; field := [] |}.

Definition set_state (s : parser_state) (r : reader) : reader :=
  {| state := s; fields := fields r; field := field r |}.

Definition parse_save_field (r : reader) : reader :=
  {| state := state r; fields := fields r ++ [field r]; field := [] |}.

(** [None] is the [_csv.Error] for a field beyond the limit. *)
Definition parse_add_char (r : reader) (c : ascii) : option reader :=
  if (Z.of_nat (length (field r)) <? field_limit)%Z
  then Some {| state := state r; fields := fields r; field := field r ++ [c] |}
  else None.

Definition is_newline (c : ascii) : bool :=
  bool_decide (c = LF) || bool_decide (c = CR).

Definition start_field (r : reader) (i : input) : option reader :=
  match i with
  | EOL => Some (set_state START_RECORD (parse_save_field r))
  | Char c =>
      if is_newline c then Some (set_state EAT_CRNL (parse_save_field r))
      else if bool_decide (c = DQUOTE) then Some (set_state IN_QUOTED_FIELD r)
      else if bool_decide (c = COMMA) then Some (parse_save_field r)
      else set_state IN_FIELD <$> parse_add_char r c
  end.

Definition parse_process_char (r : reader) (i : input) : option reader :=
  match state r with
  | START_RECORD =>
      match i with
      | EOL => Some r
      | Char c =>
          if is_newline c then Some (set_state EAT_CRNL r)
          else start_field (set_state START_FIELD r) i
      end
  | START_FIELD => start_field r i
  | IN_FIELD =>
      match i with
      | EOL => Some (set_state START_RECORD (parse_save_field r))
      | Char c =>
          if is_newline c then Some (set_state EAT_CRNL (parse_save_field r))
          else if bool_decide (c = COMMA)
               then Some (set_state START_FIELD (parse_save_field r))
          else parse_add_char r c
      end
  | IN_QUOTED_FIELD =>
      match i with
      | EOL => Some r
      | Char c =>
          if bool_decide (c = DQUOTE) then Some (set_state QUOTE_IN_QUOTED_FIELD r)
          else parse_add_char r c
      end
  | QUOTE_IN_QUOTED_FIELD =>
      match i with
      | EOL => Some (set_state START_RECORD (parse_save_field r))
      | Char c =>
          if bool_decide (c = DQUOTE)
          then set_state IN_QUOTED_FIELD <$> parse_add_char r c
          else if bool_decide (c = COMMA)
               then Some (set_state START_FIELD (parse_save_field r))
          else if is_newline c then Some (set_state EAT_CRNL (parse_save_field r))
          else set_state IN_FIELD <$> parse_add_char r c
      end
  | EAT_CRNL =>
      match i with
      | EOL => Some (set_state START_RECORD r)
      | Char c => if is_newline c then Some r else None
      end
  end.

Fixpoint parse_chars (r : reader) (line : str) : option reader :=
  match line with
  | [] => Some r
  | c :: line' => r' ← parse_process_char r (Char c); parse_chars r' line'
  end.

(** One line of input: its characters, then the end of line. *)
Definition parse_line (r : reader) (line : str) : option reader :=
  r' ← parse_chars r line; parse_process_char r' EOL.

(** The records read from [lines], the parser being in state [r]: a
    record is complete when a line leaves the parser in START_RECORD;
    when the lines run out inside a record, what was read is kept. *)
Fixpoint read_records (r : reader) (lines : list str) : option (list row) :=
  match lines with
  | [] =>
      if nonempty (field r) || bool_decide (state r = IN_QUOTED_FIELD)
      then Some [fields (parse_save_field r)]
      else Some []
  | line :: rest =>
      r' ← parse_line r line;
      if bool_decide (state r' = START_RECORD)
      then rs ← read_records parse_reset rest; Some (fields r' :: rs)
      else read_records r' rest
  end.

(** [list(csv.reader(lines))] *)
Definition reader_rows (lines : list str) : option (list row) :=
  read_records parse_reset lines.

End Csv.

(* ================================================================== *)
(** * Export: what both [save_results] write *)
(* ================================================================== *)

(** [str(v)] of a stored price. *)
Definition py_str (v : pyval) : str :=
  match v with
  | PInt n => str_of_Z n
  | PStr s => s
  end.

(** Truth value of a stored price: [0] and the empty string are false. *)
Definition truthy (v : pyval) : bool :=
  match v with
  | PInt n => negb (n =? 0)%Z
  | PStr s => nonempty s
  end.

(** Truth value of a stored label: [None] and the empty string are
    false. *)
Definition team_truthy (t : option str) : bool :=
  match t with
  | Some s => nonempty s
  | None => false
  end.

(** [team if team else ''] *)
Definition team_field (t : option str) : str :=
  match t with
  | Some s => if nonempty s then s else []
  | None => []
  end.

(** [price if price else ''], as the writer renders it. *)
Definition price_field (p : option pyval) : str :=
  match p with
  | Some v => if truthy v then py_str v else []
  | None => []
  end.

Definition header : Csv.row := [lit "Corridore"; lit "Squadra"; lit "Prezzo"].

Definition data_row (name : str) (r : result) : Csv.row :=
  [name; team_field (team r); price_field (price r)].

(** ** Output file name *)

(** [s.rfind(c)], counting from [i]; [-1] when [c] does not occur. *)
Fixpoint rfind_from (i : Z) (c : ascii) (s : str) : Z :=
  match s with
  | [] => (-1)%Z
  | d :: s' =>
      let r := rfind_from (i + 1) c s' in
      if (0 <=? r)%Z then r else if bool_decide (d = c) then i else (-1)%Z
  end.

Definition rfind (c : ascii) (s : str) : Z := rfind_from 0 c s.

(** [os.path.basename] for POSIX paths. *)
Definition basename (p : str) : str :=
  drop (Z.to_nat (rfind "/"%char p + 1)) p.

(** [os.path.splitext(p)[0]]: the last dot starts the extension unless
    only dots precede it in the file name. *)
Definition splitext_root (p : str) : str :=
  let sepIndex := rfind "/"%char p in
  let dotIndex := rfind "."%char p in
  if (sepIndex <? dotIndex)%Z then
    let name_start := Z.to_nat (sepIndex + 1) in
    let before_dot := take (Z.to_nat dotIndex - name_start) (drop name_start p) in
    if existsb (fun c => negb (bool_decide (c = "."%char))) before_dot
    then take (Z.to_nat dotIndex) p
    else p
  else p.

Definition base_name (input_file : str) : str :=
  splitext_root (basename input_file).

(* ================================================================== *)
(** * [auction.py]: the line-oriented front-end *)
(* ================================================================== *)

Module Auction.

(** [read_riders_from_csv]'s loop over the records. *)
Fixpoint first_column (rows : list Csv.row) : list str :=
  match rows with
  | [] => []
  | row :: rest =>
      match row with
      | f :: _ =>
          if nonempty (strip f) then strip f :: first_column rest
          else first_column rest
      | [] => first_column rest
      end
  end.

(** [None] when the file is missing or the reader raises. *)
Definition read_riders_from_csv (filepath : str) (fs : files) : option (list str) :=
  content ← fs !! filepath;
  rows ← Csv.reader_rows (Io.text_lines content);
  Some (first_column rows).

(** The two prompts, answered with [labelInput] and [priceInput]. *)
Definition get_team_and_price (labelInput priceInput : str)
  : option str * option pyval :=
  let team := strip labelInput in
  if negb (nonempty team) || str_in (lower team) [lit "salta"; lit "skip"]
  then (None, None)
  else
    let price_str := strip priceInput in
    let price :=
      if nonempty price_str then
        match int price_str with
        | Some n => PInt n
        | None => PStr price_str
        end
      else PInt 0 in
    (Some team, Some price).

(** The records after the header: [results[i]] for each rider, or
    [None] for the [IndexError]. *)
Fixpoint data_rows (results : list result) (i : nat) (riders : list str)
  : option (list Csv.row) :=
  match riders with
  | [] => Some []
  | rider :: riders' =>
      r ← results !! i;
      rest ← data_rows results (S i) riders';
      Some (data_row rider r :: rest)
  end.

Definition export_text (results : list result) (riders : list str) : option str :=
  rows ← data_rows results 0 riders; Some (Csv.writerows (header :: rows)).

(** [save_results]: the file is created or overwritten; [None] for the
    IndexError of [results[i]]. *)
Definition save_results (results : list result) (riders : list str)
    (output_file : str) (fs : files) : option files :=
  text ← export_text results riders; Some (<[output_file := text]> fs).

(** [main], from the riders on. *)

Definition output_file (input_file : str) : str :=
  base_name input_file ++ lit "_auction_results.csv".

(** The session [main] starts with; none for an empty rider list. *)
Definition start (riders : list str) : option session :=
  if (length riders =? 0)%nat then None
  else Some {| current_index := 0; results := map (fun _ => unassigned) riders |}.

Definition set_index (i : nat) (st : session) : session :=
  {| current_index := i; results := results st |}.

(** One turn of the [while True] loop as far as the session goes: the key
    [readkey] returned, and the answers to the prompts that turn may show.
    The panel and the prompts of the turn, which may raise, are those of
    [AuctionRun.turn]. *)
Definition loop_body (riders : list str) (st : session) (k : key)
    (labelInput priceInput : str) (confirm : key) : outcome :=
  let total := length riders in
  let i := current_index st in
  match riders !! i, results st !! i with
  | Some _, Some _ =>
      match k with
      | KeyUp => Continue (if (0 <? i)%nat then set_index (i - 1) st else st)
      | KeyDown =>
          Continue (if (i <? total - 1)%nat then set_index (i + 1) st else st)
      | KeyChar c =>
          if bool_decide (c = CR) || bool_decide (c = LF) then
            let '(team, price) := get_team_and_price labelInput priceInput in
            let st' :=
              {| current_index := i;
                 results := alter (set_price price) i
                              (alter (set_team team) i (results st)) |} in
            if (i <? total - 1)%nat then Continue (set_index (i + 1) st')
            else if bool_decide (confirm = KeyChar "q"%char) then Break st'
            else Continue st'
          else if bool_decide (c = "q"%char) then Break st
          else Continue st
      | KeyOther => Continue st
      end
  | _, _ => IndexError
  end.

(** The key that triggers an action. *)
Definition press (a : action) : key :=
  match a with
  | MoveUp => KeyUp
  | MoveDown => KeyDown
  | Assign _ _ _ => KeyChar CR
  | Quit => KeyChar "q"%char
  end.

Definition step (riders : list str) (st : session) (a : action) : outcome :=
  match a with
  | Assign labelInput priceInput confirm =>
      loop_body riders st (press a) labelInput priceInput confirm
  | _ => loop_body riders st (press a) [] [] KeyOther
  end.

(** The loop over the operator's actions. *)
Fixpoint loop (riders : list str) (st : session) (actions : list action) : outcome :=
  match actions with
  | [] => Continue st
  | a :: rest =>
      match step riders st a with
      | Continue st' => loop riders st' rest
      | o => o
      end
  end.

(** What [main] does once the loop is left. *)
Definition export (riders : list str) (st : session) (input_file : str)
    (fs : files) : option files :=
  save_results (results st) riders (output_file input_file) fs.

(** [main] from the riders on, the operator performing [actions]: the
    files after the run, or [None] when the list is empty, an index is out
    of range, or the actions end before the session does. *)
Definition main (riders : list str) (input_file : str) (actions : list action)
    (fs : files) : option files :=
  st0 ← start riders;
  match loop riders st0 actions with
  | Break st => export riders st input_file fs
  | _ => None
  end.

End Auction.

(* ================================================================== *)
(** * [auction_tui_backup.py]: the widget front-end *)
(* ================================================================== *)

Module AuctionTui.

(** A rider is a dict with a name and a reference value, or a bare name. *)
Inductive rider :=
| RiderDict (name : str) (value : option pyval)
| RiderStr (name : str).

(** [rider['name'] if isinstance(rider, dict) else rider] *)
Definition rider_name (r : rider) : str :=
  match r with
  | RiderDict name _ => name
  | RiderStr name => name
  end.

Definition read_riders_from_csv (filepath : str) (fs : files) : option (list rider) :=
  content ← fs !! filepath;
  rows ← Csv.reader_rows (Io.text_lines content);
  Some (map (fun n => RiderDict n None) (Auction.first_column rows)).

Fixpoint data_rows (results : list result) (i : nat) (riders : list rider)
  : option (list Csv.row) :=
  match riders with
  | [] => Some []
  | rider :: riders' =>
      r ← results !! i;
      rest ← data_rows results (S i) riders';
      Some (data_row (rider_name rider) r :: rest)
  end.

Definition export_text (results : list result) (riders : list rider) : option str :=
  rows ← data_rows results 0 riders; Some (Csv.writerows (header :: rows)).

Definition save_results (results : list result) (riders : list rider)
    (output_file : str) (fs : files) : option files :=
  text ← export_text results riders; Some (<[output_file := text]> fs).

(** [AssignmentModal._confirm]: the modal's result. *)
Definition _confirm (team_input price_input : str) : option (str * str) :=
  let team := strip team_input in
  let price := strip price_input in
  if nonempty team then Some (team, price) else None.

(** [AuctionApp.__init__], after [main]'s check for an empty list. *)
Definition start (riders : list rider) : option session :=
  if (length riders =? 0)%nat then None
  else Some {| current_index := 0; results := map (fun _ => unassigned) riders |}.

(** [_update_display] as far as the session goes: it reads [riders[idx]]
    and [results[idx]].  The labels it updates, which may raise, are those
    of [AuctionTuiRun._update_display]. *)
Definition _update_display (riders : list rider) (st : session) : outcome :=
  match riders !! current_index st, results st !! current_index st with
  | Some _, Some _ => Continue st
  | _, _ => IndexError
  end.

(** Assigning the reactive [current_index] runs its watcher. *)
Definition set_current_index (riders : list rider) (i : nat) (st : session)
  : outcome :=
  _update_display riders {| current_index := i; results := results st |}.

Definition action_previous_rider (riders : list rider) (st : session) : outcome :=
  if (0 <? current_index st)%nat
  then set_current_index riders (current_index st - 1) st
  else Continue st.

Definition action_next_rider (riders : list rider) (st : session) : outcome :=
  if (current_index st <? length riders - 1)%nat
  then set_current_index riders (current_index st + 1) st
  else Continue st.

Definition _handle_assignment (riders : list rider) (st : session)
    (result : option (str * str)) : outcome :=
  match result with
  | Some (team, price) =>
      let i := current_index st in
      match results st !! i with
      | Some _ =>
          let st' :=
            {| current_index := i;
               results := alter (set_price (Some (PStr price))) i
                            (alter (set_team (Some team)) i (results st)) |} in
          match _update_display riders st' with
          | Continue _ =>
              if (i <? length riders - 1)%nat
              then set_current_index riders (i + 1) st'
              else Continue st'
          | o => o
          end
      | None => IndexError
      end
  | None => Continue st
  end.

(** [action_assign], the modal confirmed with the two inputs. *)
Definition action_assign (riders : list rider) (st : session)
    (team_input price_input : str) : outcome :=
  match riders !! current_index st with
  | Some _ => _handle_assignment riders st (_confirm team_input price_input)
  | None => IndexError
  end.

(** [action_save_quit]: the session ends and the table is exported. *)
Definition action_save_quit (st : session) : outcome := Break st.

Definition step (riders : list rider) (st : session) (a : action) : outcome :=
  match a with
  | MoveUp => action_previous_rider riders st
  | MoveDown => action_next_rider riders st
  | Assign labelInput priceInput _ => action_assign riders st labelInput priceInput
  | Quit => action_save_quit st
  end.

Fixpoint loop (riders : list rider) (st : session) (actions : list action) : outcome :=
  match actions with
  | [] => Continue st
  | a :: rest =>
      match step riders st a with
      | Continue st' => loop riders st' rest
      | o => o
      end
  end.

(** ** Output file *)

Definition numbered_file (base_name : str) (counter : nat) : str :=
  base_name ++ lit "_auction_results_" ++ str_of_nat counter ++ lit ".csv".

(** The [while True] loop, bounded by [fuel] probes. *)
Fixpoint unique_loop (fs : files) (base_name : str) (fuel counter : nat)
  : option str :=
  match fuel with
  | O => None
  | S fuel' =>
      let output_file := numbered_file base_name counter in
      if negb (bool_decide (is_Some (fs !! output_file))) then Some output_file
      else unique_loop fs base_name fuel' (S counter)
  end.

Definition get_unique_output_file (fuel : nat) (fs : files) (base_name : str)
  : option str :=
  let output_file := base_name ++ lit "_auction_results.csv" in
  if negb (bool_decide (is_Some (fs !! output_file))) then Some output_file
  else unique_loop fs base_name fuel 1.

(** [main]'s choice of the output file, and the export on quit. *)
Definition output_file (fuel : nat) (input_file : str) (fs : files) : option str :=
  get_unique_output_file fuel fs (base_name input_file).

Definition export (fuel : nat) (riders : list rider) (st : session)
    (input_file : str) (fs : files) : option files :=
  name ← output_file fuel input_file fs;
  save_results (results st) riders name fs.

(** [main] from the riders on, the operator performing [actions]. *)
Definition main (fuel : nat) (riders : list rider) (input_file : str)
    (actions : list action) (fs : files) : option files :=
  st0 ← start riders;
  match loop riders st0 actions with
  | Break st => export fuel riders st input_file fs
  | _ => None
  end.

End AuctionTui.

(* ================================================================== *)
(** * Notions the properties are stated with *)
(* ================================================================== *)

(** A session over [riders]: the cursor points at a rider and the table
    has one entry per rider. *)
Definition in_session {A} (riders : list A) (st : session) : Prop :=
  current_index st < length riders ∧ length (results st) = length riders.

(** The state an action leaves, when no index was out of range. *)
Definition state_of (o : outcome) : option session :=
  match o with
  | Continue st => Some st
  | Break st => Some st
  | IndexError => None
  end.

(** The entity names the line-oriented front-end works on. *)
Definition names (ents : list AuctionTui.rider) : list str :=
  map AuctionTui.rider_name ents.

(** The label is a skip for [get_team_and_price]: empty once trimmed, or
    one of the two skip words in any letter case. *)
Definition is_skip (labelInput : str) : bool :=
  negb (nonempty (strip labelInput))
  || str_in (lower (strip labelInput)) [lit "salta"; lit "skip"].

(** The stored value [get_team_and_price] derives from the price input. *)
Definition price_of (priceInput : str) : pyval :=
  match int (strip priceInput) with
  | Some n => PInt n
  | None => if nonempty (strip priceInput) then PStr (strip priceInput) else PInt 0
  end.

(** A stored integer [0] replaced by "no value". *)
Definition forget_zero (r : result) : result :=
  if bool_decide (price r = Some (PInt 0)) then set_price None r else r.

(** The table after an [Assign] at the cursor. *)
Definition assigned_at (i : nat) (tp : option str * option pyval)
    (l : list result) : list result :=
  alter (set_price tp.2) i (alter (set_team tp.1) i l).

(** ** Comparing the two front-ends *)

(** How the line-oriented front-end stores what the widget front-end keeps
    as text: the label as it is, the price text read as a price. *)
Definition parsed (r : result) : result :=
  {| team := team r;
     price := (λ v, match v with PStr s => price_of s | PInt n => PInt n end)
                <$> price r |}.

(** The two sessions agree: same cursor, and the line-oriented table is
    the widget table with its price texts parsed. *)
Definition agree (c t : session) : Prop :=
  current_index c = current_index t ∧ results c = parsed <$> results t.

Definition outcomes_agree (oc ot : outcome) : Prop :=
  match oc, ot with
  | Continue c, Continue t => agree c t
  | Break c, Break t => agree c t
  | _, _ => False
  end.

(** An action on which the two front-ends can be compared: not an Assign
    with a skip label, and not one that answers the end-of-list prompt
    with [q]. *)
Definition plain (a : action) : bool :=
  match a with
  | Assign labelInput _ confirm =>
      negb (is_skip labelInput) && negb (bool_decide (confirm = KeyChar "q"%char))
  | _ => true
  end.

(** ** Re-reading an exported file *)

(** The reader on the whole text at once: the characters one by one, the
    end of line after each LF, a record given out whenever that leaves the
    parser in START_RECORD. *)
Fixpoint stream (r : Csv.reader) (s : str) : option (list Csv.row) :=
  match s with
  | [] =>
      if nonempty (Csv.field r)
         || bool_decide (Csv.state r = Csv.IN_QUOTED_FIELD)
      then Some [Csv.fields (Csv.parse_save_field r)]
      else Some []
  | c :: s' =>
      r1 ← Csv.parse_process_char r (Csv.Char c);
      if bool_decide (c = LF) then
        r2 ← Csv.parse_process_char r1 Csv.EOL;
        if bool_decide (Csv.state r2 = Csv.START_RECORD)
        then rs ← stream Csv.parse_reset s'; Some (Csv.fields r2 :: rs)
        else stream r2 s'
      else stream r1 s'
  end.

(** The text ends at a line end; [pending] tells that a line is open. *)
Fixpoint terminated (pending : bool) (s : str) : bool :=
  match s with
  | [] => negb pending
  | c :: s' => terminated (negb (bool_decide (c = LF))) s'
  end.

(** Whether text read so far ends with a CR. *)
Fixpoint pending_cr (pendingcr : bool) (s : str) : bool :=
  match s with
  | [] => pendingcr
  | c :: s' => pending_cr (bool_decide (c = CR)) s'
  end.

(** A field as the reader gets it: in quotes or bare. *)
Definition field_text (quoted : bool) (f : str) : str :=
  if quoted then DQUOTE :: Csv.join_append_data f ++ [DQUOTE] else f.

(** The field passes the reader's size limit. *)
Definition fits (f : str) : Prop := (Z.of_nat (length f) ≤ Csv.field_limit)%Z.

(** An entity name as the loaders produce it (trimmed and non-empty) that
    holds no carriage return. *)
Definition entity_name (n : str) : Prop :=
  strip n = n ∧ n ≠ [] ∧ CR ∉ n.

(** A text as a file opened in text mode delivers it. *)
Abbreviation tr := (Io.translate_newlines false).

(* ================================================================== *)
(** * The loaders and the entry points of the two programs *)
(* ================================================================== *)

(** A worksheet cell value: empty, an integer or a text (other value
    types of the workbook library are outside the model).  A worksheet is
    its rows, each the cells from column A on. *)
Abbreviation cell := (option pyval).
Abbreviation sheet := (list (list (option pyval))).

(** [ws.iter_rows(min_row, min_col, max_col, values_only=True)]: the rows
    from [min_row] on, each cut to the columns [min_col..max_col], absent
    cells given as [None]. *)
Definition iter_rows (min_row min_col max_col : nat) (ws : sheet) : list (list cell) :=
  (λ row : list cell,
     (λ j, default None (row !! j)) <$> seq (min_col - 1) (S max_col - min_col))
    <$> drop (min_row - 1) ws.

(** [str(v).strip() if v else ''] *)
Definition cell_text (c : cell) : str :=
  match c with
  | Some v => if truthy v then strip (py_str v) else []
  | None => []
  end.

(** [s.endswith(suffix)] *)
Definition endswith (s suffix : str) : bool :=
  (length suffix <=? length s)%nat
  && bool_decide (drop (length s - length suffix) s = suffix).

(** What [read_riders] gives: the riders, the [ValueError] for an
    unsupported extension, or an exception of the file, csv or workbook
    layer. *)
Inductive loaded (A : Type) :=
| Riders (riders : list A)
| ValueError
| ReadError.
Arguments Riders {A} riders.
Arguments ValueError {A}.
Arguments ReadError {A}.

(** How a run of [main] ends: [sys.exit(code)] before the session, an
    exception leaving [main], the actions running out while the session
    waits for the next one, or the summary after the export, with the
    files as the export leaves them. *)
Inductive ending :=
| Exit (code : nat)
| Uncaught
| AwaitingKey
| Done (assigned total : nat) (fs : files).

(** [r['team']] is true. *)
Definition has_team (r : result) : bool :=
  match team r with
  | Some s => nonempty s
  | None => false
  end.

(** [sum(1 for r in results if r['team'])] *)
Fixpoint assigned (results : list result) : nat :=
  match results with
  | [] => 0
  | r :: rest => (if has_team r then 1 else 0) + assigned rest
  end.

Module AuctionMain.

(** The loop of [read_riders_from_excel] over the rows of columns B, C. *)
Fixpoint excel_riders (rows : list (list cell)) : list str :=
  match rows with
  | [] => []
  | row :: rest =>
      let surname := cell_text (default None (row !! 0)) in
      let firstname := cell_text (default None (row !! 1)) in
      if nonempty surname || nonempty firstname then
        let rider := strip (firstname ++ lit " " ++ surname) in
        if nonempty rider then rider :: excel_riders rest
        else excel_riders rest
      else excel_riders rest
  end.

Section Entry.

(** [load_workbook(filepath, read_only=True).active], from the content of
    the file; [None] when the library raises. *)
Variable load_workbook : list ascii → option (list (list (option pyval))).

Definition read_riders_from_excel (filepath : str) (fs : files) : option (list str) :=
  content ← fs !! filepath;
  ws ← load_workbook content;
  Some (excel_riders (iter_rows 2 2 3 ws)).

Definition read_riders (filepath : str) (fs : files) : loaded (list ascii) :=
  if endswith filepath (lit ".xlsx") || endswith filepath (lit ".xls") then
    match read_riders_from_excel filepath fs with
    | Some riders => Riders riders
    | None => ReadError
    end
  else if endswith filepath (lit ".csv") then
    match Auction.read_riders_from_csv filepath fs with
    | Some riders => Riders riders
    | None => ReadError
    end
  else ValueError.

(** [main], the operator performing [actions]. *)
Definition main (argv : list str) (actions : list action) (fs : files) : ending :=
  match argv !! 1 with
  | None => Exit 1
  | Some input_file =>
      if negb (bool_decide (is_Some (fs !! input_file))) then Exit 1
      else
        let output_file := Auction.output_file input_file in
        match read_riders input_file fs with
        | Riders riders =>
            let total := length riders in
            if (total =? 0)%nat then Exit 1
            else
              match Auction.loop riders
                      {| current_index := 0;
                         results := map (fun _ => unassigned) riders |} actions with
              | Break st =>
                  match Auction.save_results (results st) riders output_file fs with
                  | Some fs' => Done (assigned (results st)) total fs'
                  | None => Uncaught
                  end
              | Continue _ => AwaitingKey
              | IndexError => Uncaught
              end
        | _ => Uncaught
        end
  end.

End Entry.

End AuctionMain.

Module AuctionTuiMain.

(** The loop of [read_riders_from_excel] over the rows of columns B..G. *)
Fixpoint excel_riders (rows : list (list cell)) : list AuctionTui.rider :=
  match rows with
  | [] => []
  | row :: rest =>
      let surname := cell_text (default None (row !! 0)) in
      let firstname := cell_text (default None (row !! 1)) in
      let value := default None (row !! 5) in
      if nonempty surname || nonempty firstname then
        let rider_name := strip (firstname ++ lit " " ++ surname) in
        if nonempty rider_name
        then AuctionTui.RiderDict rider_name value :: excel_riders rest
        else excel_riders rest
      else excel_riders rest
  end.

Section Entry.

Variable load_workbook : list ascii → option (list (list (option pyval))).

Definition read_riders_from_excel (filepath : str) (fs : files)
  : option (list AuctionTui.rider) :=
  content ← fs !! filepath;
  ws ← load_workbook content;
  Some (excel_riders (iter_rows 2 2 7 ws)).

Definition read_riders (filepath : str) (fs : files) : loaded AuctionTui.rider :=
  if endswith filepath (lit ".xlsx") || endswith filepath (lit ".xls") then
    match read_riders_from_excel filepath fs with
    | Some riders => Riders riders
    | None => ReadError
    end
  else if endswith filepath (lit ".csv") then
    match AuctionTui.read_riders_from_csv filepath fs with
    | Some riders => Riders riders
    | None => ReadError
    end
  else ValueError.

(** [main]: the output file is chosen before the riders are read; the
    application then runs over [actions].  [fuel] bounds the probes of
    [get_unique_output_file]. *)
Definition main (fuel : nat) (argv : list str) (actions : list action)
    (fs : files) : ending :=
  match argv !! 1 with
  | None => Exit 1
  | Some input_file =>
      if negb (bool_decide (is_Some (fs !! input_file))) then Exit 1
      else
        match AuctionTui.get_unique_output_file fuel fs (base_name input_file) with
        | None => Uncaught
        | Some output_file =>
            match read_riders input_file fs with
            | Riders riders =>
                let total := length riders in
                if (total =? 0)%nat then Exit 1
                else
                  match AuctionTui.loop riders
                          {| current_index := 0;
                             results := map (fun _ => unassigned) riders |} actions with
                  | Break st =>
                      match AuctionTui.save_results (results st) riders
                              output_file fs with
                      | Some fs' => Done (assigned (results st)) total fs'
                      | None => Uncaught
                      end
                  | Continue _ => AwaitingKey
                  | IndexError => Uncaught
                  end
            | _ => Uncaught
            end
        end
  end.

End Entry.

End AuctionTuiMain.

(** ** What the tables hold *)

(** A value as [get_team_and_price] stores it: an integer below ten to
    the limit on the digits, or a trimmed, non-empty text that [int()]
    does not accept. *)
Definition cli_value (v : pyval) : Prop :=
  match v with
  | PInt n => (Z.abs n < 10 ^ max_str_digits)%Z
  | PStr s => s ≠ [] ∧ strip s = s ∧ int s = None
  end.

(** An entry of the line-oriented table: unassigned, or a trimmed label
    that is no skip together with a value. *)
Definition cli_entry (r : result) : Prop :=
  r = unassigned
  ∨ ∃ t v, r = {| team := Some t; price := Some v |}
           ∧ strip t = t ∧ is_skip t = false ∧ cli_value v.

(** An entry of the widget table: unassigned, or a trimmed non-empty
    label together with a trimmed price text. *)
Definition tui_entry (r : result) : Prop :=
  r = unassigned
  ∨ ∃ t p, r = {| team := Some t; price := Some (PStr p) |}
           ∧ t ≠ [] ∧ strip t = t ∧ strip p = p.

(** The action is an Assign. *)
Definition is_assign (a : action) : bool :=
  match a with
  | Assign _ _ _ => true
  | _ => false
  end.

(** A field the reader holds: free of carriage returns and within the
    size limit. *)
Definition field_ok (f : str) : Prop := (CR ∉ f) ∧ fits f.

(** The reader holds such fields only. *)
Definition reader_ok (r : Csv.reader) : Prop :=
  Forall field_ok (Csv.fields r) ∧ field_ok (Csv.field r).

(* ================================================================== *)
(** * The console: what a turn shows and asks *)
(* ================================================================== *)

(** The definitions of [Auction] and [AuctionTui] above are the turns of
    the two programs as far as the session goes.  A turn also paints and
    prompts through the console libraries, whose code is not part of the
    repository.  Their calls are taken as parameters: [true] when the call
    returns, [false] when it raises (a MarkupError for a text with a
    closing tag that closes nothing, for one).  Below are the turns with
    these calls and with the prompts that may be left unanswered. *)

(** What ends a program besides the session: an exception of a console
    call, or the end of the input at a prompt. *)
Inductive exn := ConsoleError | EOFError.

Inductive ran := Ran (o : outcome) | Raised (e : exn).

(** A label or price as an f-string shows it. *)
Definition format_value (p : option pyval) : str :=
  match p with
  | Some v => py_str v
  | None => lit "None"
  end.

(** [f"{index + 1}/{total}"] *)
Definition position (index total : nat) : str :=
  str_of_nat (index + 1) ++ lit "/" ++ str_of_nat total.

Module AuctionRun.

Definition prompt_key : str := LF :: lit "[dim]Premi un tasto...[/dim]".

Definition prompt_team : str :=
  LF :: lit "[bold cyan]Inserisci nome squadra[/bold cyan] (oppure 'salta' / premi Invio per saltare):".

Definition prompt_price : str := lit "[bold cyan]Inserisci prezzo:[/bold cyan]".

Definition prompt_last : str :=
  LF :: lit "[yellow]Raggiunto l'ultimo corridore.[/yellow] Premi 'q' per salvare ed uscire, o un altro tasto per continuare.".

Section Console.

(** [create_progress_bar(current, total)]: it divides in floating point
    and draws with block characters, both outside this model; any text. *)
Variable create_progress_bar : nat → nat → str.

(** [console.print] of a text, or of the panel around it. *)
Variable console_print : str → bool.

Definition status_text (current_team : option str) (current_price : option pyval)
  : str :=
  if team_truthy current_team
  then lit "[green]Assegnazione attuale: " ++ default [] current_team ++ lit " - "
       ++ format_value current_price ++ lit "[/green]"
  else lit "[yellow]Non ancora assegnato[/yellow]".

Definition main_text (index total : nat) (rider : str)
    (current_team : option str) (current_price : option pyval) : str :=
  lit "[bold]Corridore " ++ position index total ++ lit ":[/bold] [bold cyan]"
  ++ rider ++ lit "[/bold cyan]" ++ [LF; LF]
  ++ create_progress_bar (index + 1) total ++ lit " " ++ position index total
  ++ [LF; LF] ++ status_text current_team current_price.

(** [display_rider]: the main panel, whose text varies; its title and
    the panel of commands are fixed. *)
Definition display_rider (index total : nat) (rider : str)
    (current_team : option str) (current_price : option pyval) : bool :=
  console_print (main_text index total rider current_team current_price).

(** [get_team_and_price], the prompts answered or left unanswered
    ([None]: [input()] raises the EOFError). *)
Definition get_team_and_price (labelInput priceInput : option str)
  : exn + (option str * option pyval) :=
  if console_print prompt_team then
    match labelInput with
    | None => inl EOFError
    | Some labelInput =>
        let team := strip labelInput in
        if negb (nonempty team) || str_in (lower team) [lit "salta"; lit "skip"]
        then inr (None, None)
        else if console_print prompt_price then
          match priceInput with
          | None => inl EOFError
          | Some priceInput =>
              let price_str := strip priceInput in
              let price :=
                if nonempty price_str then
                  match int price_str with
                  | Some n => PInt n
                  | None => PStr price_str
                  end
                else PInt 0 in
              inr (Some team, Some price)
          end
        else inl ConsoleError
    end
  else inl ConsoleError.

(** One turn of the [while True] loop of [main]: the panel, the key
    [readkey] returns, and what follows. *)
Definition turn (riders : list str) (st : session) (k : key)
    (labelInput priceInput : option str) (confirm : key) : ran :=
  let total := length riders in
  let i := current_index st in
  match riders !! i, results st !! i with
  | Some rider, Some r =>
      if display_rider i total rider (team r) (price r) then
        if console_print prompt_key then
          match k with
          | KeyUp =>
              Ran (Continue (if (0 <? i)%nat then Auction.set_index (i - 1) st else st))
          | KeyDown =>
              Ran (Continue (if (i <? total - 1)%nat
                             then Auction.set_index (i + 1) st else st))
          | KeyChar c =>
              if bool_decide (c = CR) || bool_decide (c = LF) then
                match get_team_and_price labelInput priceInput with
                | inl e => Raised e
                | inr (team, price) =>
                    let st' :=
                      {| current_index := i;
                         results := alter (set_price price) i
                                      (alter (set_team team) i (results st)) |} in
                    if (i <? total - 1)%nat
                    then Ran (Continue (Auction.set_index (i + 1) st'))
                    else if console_print prompt_last then
                      if bool_decide (confirm = KeyChar "q"%char)
                      then Ran (Break st') else Ran (Continue st')
                    else Raised ConsoleError
                end
              else if bool_decide (c = "q"%char) then Ran (Break st)
              else Ran (Continue st)
          | KeyOther => Ran (Continue st)
          end
        else Raised ConsoleError
      else Raised ConsoleError
  | _, _ => Ran IndexError
  end.

(** The turn in which the operator performs [a], every prompt answered. *)
Definition step (riders : list str) (st : session) (a : action) : ran :=
  match a with
  | Assign labelInput priceInput confirm =>
      turn riders st (Auction.press a) (Some labelInput) (Some priceInput) confirm
  | _ => turn riders st (Auction.press a) None None KeyOther
  end.

(** The loop over the operator's actions; after the last of them the
    next panel is up and the program waits for a key. *)
Fixpoint run (riders : list str) (st : session) (actions : list action) : ran :=
  match actions with
  | [] =>
      match riders !! current_index st, results st !! current_index st with
      | Some rider, Some r =>
          if display_rider (current_index st) (length riders) rider (team r) (price r)
          then if console_print prompt_key then Ran (Continue st) else Raised ConsoleError
          else Raised ConsoleError
      | _, _ => Ran IndexError
      end
  | a :: rest =>
      match step riders st a with
      | Ran (Continue st') => run riders st' rest
      | r => r
      end
  end.

End Console.

End AuctionRun.

Module AuctionTuiRun.

Section Screen.

(** [Label.update] of a text. *)
Variable label_update : str → bool.

(** [push_screen(AssignmentModal(rider_name), ...)]: the modal is put
    up, with the rider's name in a label. *)
Variable push_modal : str → bool.

(** [rider.get('value') if isinstance(rider, dict) else None] *)
Definition rider_value (r : AuctionTui.rider) : option pyval :=
  match r with
  | AuctionTui.RiderDict _ value => value
  | AuctionTui.RiderStr _ => None
  end.

Definition status_label (result : result) : str :=
  if team_truthy (team result)
  then lit "Assegnato: " ++ default [] (team result) ++ lit " - "
       ++ format_value (price result)
  else lit "Stato: Non ancora assegnato".

(** [_update_display] *)
Definition _update_display (riders : list AuctionTui.rider) (st : session) : ran :=
  let idx := current_index st in
  let total := length riders in
  match riders !! idx with
  | None => Ran IndexError
  | Some rider =>
      match results st !! idx with
      | None => Ran IndexError
      | Some result =>
          if label_update (lit "Corridore " ++ position idx total)
             && label_update (AuctionTui.rider_name rider)
             && label_update (match rider_value rider with
                              | Some v => lit "Valore: " ++ py_str v
                              | None => []
                              end)
             && label_update (position idx total)
             && label_update (status_label result)
          then Ran (Continue st)
          else Raised ConsoleError
      end
  end.

Definition set_current_index (riders : list AuctionTui.rider) (i : nat)
    (st : session) : ran :=
  _update_display riders {| current_index := i; results := results st |}.

Definition action_previous_rider (riders : list AuctionTui.rider) (st : session)
  : ran :=
  if (0 <? current_index st)%nat
  then set_current_index riders (current_index st - 1) st
  else Ran (Continue st).

Definition action_next_rider (riders : list AuctionTui.rider) (st : session)
  : ran :=
  if (current_index st <? length riders - 1)%nat
  then set_current_index riders (current_index st + 1) st
  else Ran (Continue st).

Definition _handle_assignment (riders : list AuctionTui.rider) (st : session)
    (result : option (str * str)) : ran :=
  match result with
  | Some (team, price) =>
      let i := current_index st in
      match results st !! i with
      | Some _ =>
          let st' :=
            {| current_index := i;
               results := alter (set_price (Some (PStr price))) i
                            (alter (set_team (Some team)) i (results st)) |} in
          match _update_display riders st' with
          | Ran (Continue _) =>
              if (i <? length riders - 1)%nat
              then set_current_index riders (i + 1) st'
              else Ran (Continue st')
          | r => r
          end
      | None => Ran IndexError
      end
  | None => Ran (Continue st)
  end.

Definition action_assign (riders : list AuctionTui.rider) (st : session)
    (team_input price_input : str) : ran :=
  match riders !! current_index st with
  | Some rider =>
      if push_modal (AuctionTui.rider_name rider)
      then _handle_assignment riders st (AuctionTui._confirm team_input price_input)
      else Raised ConsoleError
  | None => Ran IndexError
  end.

Definition step (riders : list AuctionTui.rider) (st : session) (a : action) : ran :=
  match a with
  | MoveUp => action_previous_rider riders st
  | MoveDown => action_next_rider riders st
  | Assign labelInput priceInput _ => action_assign riders st labelInput priceInput
  | Quit => Ran (AuctionTui.action_save_quit st)
  end.

Fixpoint steps (riders : list AuctionTui.rider) (st : session)
    (actions : list action) : ran :=
  match actions with
  | [] => Ran (Continue st)
  | a :: rest =>
      match step riders st a with
      | Ran (Continue st') => steps riders st' rest
      | r => r
      end
  end.

(** The application from [on_mount] on. *)
Definition run (riders : list AuctionTui.rider) (st : session)
    (actions : list action) : ran :=
  match _update_display riders st with
  | Ran (Continue _) => steps riders st actions
  | r => r
  end.

End Screen.

End AuctionTuiRun.

(** The number the decimal digits [d] denote after the digits read into
    [acc]. *)
Fixpoint uint_val (acc : Z) (d : Decimal.uint) : Z :=
  match d with
  | Decimal.Nil => acc
  | Decimal.D0 l => uint_val (acc * 10 + 0) l
  | Decimal.D1 l => uint_val (acc * 10 + 1) l
  | Decimal.D2 l => uint_val (acc * 10 + 2) l
  | Decimal.D3 l => uint_val (acc * 10 + 3) l
  | Decimal.D4 l => uint_val (acc * 10 + 4) l
  | Decimal.D5 l => uint_val (acc * 10 + 5) l
  | Decimal.D6 l => uint_val (acc * 10 + 6) l
  | Decimal.D7 l => uint_val (acc * 10 + 7) l
  | Decimal.D8 l => uint_val (acc * 10 + 8) l
  | Decimal.D9 l => uint_val (acc * 10 + 9) l
  end.

(* ================================================================== *)
(** * Properties *)
(* ================================================================== *)

(** ** Sessions *)

Lemma in_session_lookup {A} (riders : list A) (st : session) :
  in_session riders st →
  (∃ x, riders !! current_index st = Some x)
  ∧ (∃ r, results st !! current_index st = Some r).
Proof.
  intros [Hi Hl]. split; apply lookup_lt_is_Some; lia.
Qed.

Lemma in_session_names (ents : list AuctionTui.rider) (st : session) :
  in_session ents st → in_session (names ents) st.
Proof.
  unfold in_session, names. rewrite length_map. tauto.
Qed.

Lemma length_assign (t : option str) (p : option pyval) (i : nat) (l : list result) :
  length (alter (set_price p) i (alter (set_team t) i l)) = length l.
Proof. by rewrite !length_alter. Qed.

Lemma lookup_assign (t : option str) (p : option pyval) (i : nat) (l : list result) :
  i < length l →
  alter (set_price p) i (alter (set_team t) i l) !! i = Some {| team := t; price := p |}.
Proof.
  intros Hi. apply lookup_lt_is_Some in Hi as [r Hr].
  by rewrite !list_lookup_alter_eq, Hr.
Qed.

(** Once the cursor is known to be in range, [loop_body] is its dispatch
    on the key. *)
Ltac enter_loop_body H :=
  let x := fresh "x" in let r := fresh "r" in
  let Hx := fresh "Hx" in let Hr := fresh "Hr" in
  destruct (in_session_lookup _ _ H) as [[x Hx] [r Hr]];
  unfold Auction.step, Auction.loop_body; cbn [Auction.press];
  rewrite Hx, Hr.

(** ** The assignment prompt of the line-oriented front-end *)

(** A label is no skip exactly when, trimmed, it is non-empty and is
    neither skip word in lower case. *)
Lemma is_skip_false (l : str) :
  is_skip l = false ↔
  strip l ≠ [] ∧ lower (strip l) ≠ lit "salta" ∧ lower (strip l) ≠ lit "skip".
Proof.
  unfold is_skip, str_in, str_eqb. cbn [existsb].
  rewrite !orb_false_iff, negb_false_iff, !bool_decide_eq_false.
  destruct (strip l); cbn [nonempty]; intuition congruence.
Qed.

Lemma get_team_and_price_skip (l p : str) :
  is_skip l = true → Auction.get_team_and_price l p = (None, None).
Proof.
  unfold is_skip, Auction.get_team_and_price. by intros ->.
Qed.

Lemma get_team_and_price_assign (l p : str) :
  is_skip l = false →
  Auction.get_team_and_price l p = (Some (strip l), Some (price_of p)).
Proof.
  unfold is_skip, Auction.get_team_and_price, price_of. intros ->.
  destruct (strip p) as [|c s] eqn:Hp; [by rewrite ?Hp|].
  cbn [nonempty]. by destruct (int (c :: s)).
Qed.

(** ** Trimming *)

Lemma lstrip_head (s : str) (c : ascii) (t : str) :
  lstrip s = c :: t → isspace c = false.
Proof.
  induction s as [|d s IH]; cbn; [done|].
  destruct (isspace d) eqn:Hd; [exact IH|]. by intros [= <- _].
Qed.

Lemma lstrip_fixed (c : ascii) (t : str) :
  isspace c = false → lstrip (c :: t) = c :: t.
Proof. cbn. by intros ->. Qed.

Lemma lstrip_idem (s : str) : lstrip (lstrip s) = lstrip s.
Proof.
  destruct (lstrip s) as [|c t] eqn:Hs; [done|].
  apply lstrip_fixed. by eapply lstrip_head.
Qed.

Lemma lstrip_snoc (a : str) (c : ascii) :
  lstrip (a ++ [c]) =
  match lstrip a with
  | [] => if isspace c then [] else [c]
  | t => t ++ [c]
  end.
Proof.
  induction a as [|d a IH]; cbn; [done|].
  by destruct (isspace d).
Qed.

Lemma rstrip_cons (c : ascii) (s : str) :
  rstrip (c :: s) =
  match rstrip s with
  | [] => if isspace c then [] else [c]
  | t => c :: t
  end.
Proof.
  unfold rstrip. rewrite reverse_cons, lstrip_snoc.
  destruct (lstrip (reverse s)) as [|d t]; [by destruct (isspace c)|].
  rewrite reverse_app, reverse_singleton. cbn [app].
  destruct (reverse (d :: t)) eqn:Hr; [|done].
  apply (f_equal reverse) in Hr. by rewrite reverse_involutive in Hr.
Qed.

Lemma rstrip_idem (s : str) : rstrip (rstrip s) = rstrip s.
Proof.
  unfold rstrip. by rewrite reverse_involutive, lstrip_idem.
Qed.

Lemma strip_idem (s : str) : strip (strip s) = strip s.
Proof.
  unfold strip.
  assert (lstrip (rstrip (lstrip s)) = rstrip (lstrip s)) as ->;
    [|apply rstrip_idem].
  destruct (lstrip s) as [|c t] eqn:Hs; [done|].
  apply lstrip_head in Hs. rewrite rstrip_cons, Hs.
  destruct (rstrip t); by apply lstrip_fixed.
Qed.

(** On a trimmed text [int] has nothing to skip. *)
Lemma int_isspace_isspace (c : ascii) : int_isspace c = true → isspace c = true.
Proof.
  destruct c as [[] [] [] [] [] [] [] []]; vm_compute; congruence.
Qed.

Lemma int_skip_fixed (c : ascii) (t : str) :
  isspace c = false → int_skip (c :: t) = c :: t.
Proof.
  intros Hc. cbn [int_skip]. destruct (int_isspace c) eqn:Hi; [|done].
  apply int_isspace_isspace in Hi. congruence.
Qed.

(** A label that is literally empty or literally a skip word is a skip. *)
Lemma isspace_lower_char (c : ascii) : isspace c = true → lower_char c = c.
Proof.
  destruct c as [[] [] [] [] [] [] [] []]; vm_compute; congruence.
Qed.

Lemma lower_char_letter (c : ascii) :
  isspace (lower_char c) = false → isspace c = false.
Proof.
  intros H. destruct (isspace c) eqn:Hc; [|done].
  by rewrite (isspace_lower_char c Hc), Hc in H.
Qed.

Lemma strip_no_outer_space (c : ascii) (s : str) (d : ascii) :
  isspace c = false → isspace d = false →
  strip (c :: s ++ [d]) = c :: s ++ [d].
Proof.
  intros Hc Hd. unfold strip. rewrite (lstrip_fixed c _ Hc).
  unfold rstrip. rewrite reverse_cons, reverse_app, reverse_singleton.
  cbn [app]. rewrite (lstrip_fixed d _ Hd).
  by rewrite reverse_cons, reverse_app, !reverse_involutive, <- app_assoc.
Qed.

Lemma literal_skip_is_skip (l : str) :
  l = [] ∨ str_in (lower l) [lit "salta"; lit "skip"] = true → is_skip l = true.
Proof.
  intros [->|H]; [done|].
  assert (strip l = l) as Hs.
  { unfold str_in, str_eqb in H. cbn [existsb] in H.
    rewrite orb_false_r in H. apply orb_true_iff in H.
    destruct H as [H|H]; apply bool_decide_eq_true in H.
    - destruct l as [|c1 [|c2 [|c3 [|c4 [|c5 [|]]]]]]; try discriminate H.
      injection H as H1 _ _ _ H5.
      apply (strip_no_outer_space c1 [c2; c3; c4] c5);
        apply lower_char_letter; [by rewrite H1 | by rewrite H5].
    - destruct l as [|c1 [|c2 [|c3 [|c4 [|]]]]]; try discriminate H.
      injection H as H1 _ _ H4.
      apply (strip_no_outer_space c1 [c2; c3] c4);
        apply lower_char_letter; [by rewrite H1 | by rewrite H4]. }
  unfold is_skip. rewrite Hs, H. apply orb_true_r.
Qed.

(** ** One action of the line-oriented front-end *)

Lemma cli_move_up (riders : list str) (st : session) :
  in_session riders st →
  Auction.step riders st MoveUp =
  Continue (if (0 <? current_index st)%nat
            then Auction.set_index (current_index st - 1) st else st).
Proof. intros H. by enter_loop_body H. Qed.

Lemma cli_move_down (riders : list str) (st : session) :
  in_session riders st →
  Auction.step riders st MoveDown =
  Continue (if (current_index st <? length riders - 1)%nat
            then Auction.set_index (current_index st + 1) st else st).
Proof. intros H. by enter_loop_body H. Qed.

Lemma cli_quit (riders : list str) (st : session) :
  in_session riders st → Auction.step riders st Quit = Break st.
Proof. intros H. by enter_loop_body H. Qed.

Lemma cli_assign (riders : list str) (st : session) (l p : str) (k : key) :
  in_session riders st →
  let i := current_index st in
  let st' := {| current_index := i;
                results := assigned_at i (Auction.get_team_and_price l p) (results st) |} in
  Auction.step riders st (Assign l p k) =
  if (i <? length riders - 1)%nat then Continue (Auction.set_index (i + 1) st')
  else if bool_decide (k = KeyChar "q"%char) then Break st'
  else Continue st'.
Proof.
  intros H. enter_loop_body H. cbn.
  by destruct (Auction.get_team_and_price l p).
Qed.

Lemma cli_step_in_session (riders : list str) (st : session) (a : action) :
  in_session riders st →
  ∃ st', state_of (Auction.step riders st a) = Some st' ∧ in_session riders st'.
Proof.
  intros H. pose proof H as [Hi Hl]. destruct a as [| |l p k|].
  - rewrite cli_move_up by done. eexists; split; [done|].
    destruct (Nat.ltb_spec 0 (current_index st)); [|done].
    split; cbn; lia.
  - rewrite cli_move_down by done. eexists; split; [done|].
    destruct (Nat.ltb_spec (current_index st) (length riders - 1)); [|done].
    split; cbn; lia.
  - rewrite cli_assign by done. cbn zeta.
    destruct (Nat.ltb_spec (current_index st) (length riders - 1));
      [|destruct (bool_decide _)];
      (eexists; split; [done|]); split; cbn; unfold assigned_at;
      rewrite ?length_assign; lia.
  - rewrite cli_quit by done. by eexists.
Qed.

Lemma cli_loop_in_session (riders : list str) (actions : list action) (st : session) :
  in_session riders st →
  ∃ st', state_of (Auction.loop riders st actions) = Some st' ∧ in_session riders st'.
Proof.
  revert st. induction actions as [|a actions IH]; intros st H; cbn.
  - by exists st.
  - destruct (cli_step_in_session riders st a H) as (st' & Hs & H').
    destruct (Auction.step riders st a) as [st1|st1|]; cbn in Hs; simplify_eq.
    + by apply IH.
    + by exists st'.
Qed.

(** ** One action of the widget front-end *)

Lemma tui_update_display (ents : list AuctionTui.rider) (st : session) :
  in_session ents st → AuctionTui._update_display ents st = Continue st.
Proof.
  intros H. destruct (in_session_lookup _ _ H) as [[x Hx] [r Hr]].
  unfold AuctionTui._update_display. by rewrite Hx, Hr.
Qed.

Lemma tui_move_up (ents : list AuctionTui.rider) (st : session) :
  in_session ents st →
  AuctionTui.step ents st MoveUp =
  Continue (if (0 <? current_index st)%nat
            then Auction.set_index (current_index st - 1) st else st).
Proof.
  intros H. pose proof H as [Hi Hl]. unfold AuctionTui.step, AuctionTui.action_previous_rider.
  destruct (Nat.ltb_spec 0 (current_index st)); [|done].
  unfold AuctionTui.set_current_index. rewrite tui_update_display; [done|].
  split; cbn; lia.
Qed.

Lemma tui_move_down (ents : list AuctionTui.rider) (st : session) :
  in_session ents st →
  AuctionTui.step ents st MoveDown =
  Continue (if (current_index st <? length ents - 1)%nat
            then Auction.set_index (current_index st + 1) st else st).
Proof.
  intros H. pose proof H as [Hi Hl]. unfold AuctionTui.step, AuctionTui.action_next_rider.
  destruct (Nat.ltb_spec (current_index st) (length ents - 1)); [|done].
  unfold AuctionTui.set_current_index. rewrite tui_update_display; [done|].
  split; cbn; lia.
Qed.

Lemma tui_assign_empty (ents : list AuctionTui.rider) (st : session) (l p : str) (k : key) :
  in_session ents st → nonempty (strip l) = false →
  AuctionTui.step ents st (Assign l p k) = Continue st.
Proof.
  intros H Hl. destruct (in_session_lookup _ _ H) as [[x Hx] _].
  unfold AuctionTui.step, AuctionTui.action_assign, AuctionTui._confirm.
  by rewrite Hx, Hl.
Qed.

Lemma tui_assign (ents : list AuctionTui.rider) (st : session) (l p : str) (k : key) :
  in_session ents st → nonempty (strip l) = true →
  let i := current_index st in
  let st' := {| current_index := i;
                results := assigned_at i (Some (strip l), Some (PStr (strip p))) (results st) |} in
  AuctionTui.step ents st (Assign l p k) =
  Continue (if (i <? length ents - 1)%nat then Auction.set_index (i + 1) st' else st').
Proof.
  intros H Hne. pose proof H as [Hi Hl].
  destruct (in_session_lookup _ _ H) as [[x Hx] [r Hr]].
  unfold AuctionTui.step, AuctionTui.action_assign, AuctionTui._confirm.
  rewrite Hx, Hne. unfold AuctionTui._handle_assignment. rewrite Hr.
  rewrite tui_update_display
    by (split; cbn; rewrite ?length_assign; lia).
  destruct (Nat.ltb_spec (current_index st) (length ents - 1)); [|reflexivity].
  unfold AuctionTui.set_current_index. rewrite tui_update_display; [reflexivity|].
  split; cbn; rewrite ?length_assign; lia.
Qed.

Lemma tui_step_in_session (ents : list AuctionTui.rider) (st : session) (a : action) :
  in_session ents st →
  ∃ st', state_of (AuctionTui.step ents st a) = Some st' ∧ in_session ents st'.
Proof.
  intros H. pose proof H as [Hi Hl]. destruct a as [| |l p k|].
  - rewrite tui_move_up by done. eexists; split; [done|].
    destruct (Nat.ltb_spec 0 (current_index st)); [|done].
    split; cbn; lia.
  - rewrite tui_move_down by done. eexists; split; [done|].
    destruct (Nat.ltb_spec (current_index st) (length ents - 1)); [|done].
    split; cbn; lia.
  - destruct (nonempty (strip l)) eqn:Hne.
    + rewrite tui_assign by done. cbn zeta. eexists; split; [done|].
      destruct (Nat.ltb_spec (current_index st) (length ents - 1));
        split; cbn; unfold assigned_at; rewrite ?length_assign; lia.
    + rewrite tui_assign_empty by done. by eexists.
  - by eexists.
Qed.

Lemma tui_loop_in_session (ents : list AuctionTui.rider) (actions : list action) (st : session) :
  in_session ents st →
  ∃ st', state_of (AuctionTui.loop ents st actions) = Some st' ∧ in_session ents st'.
Proof.
  revert st. induction actions as [|a actions IH]; intros st H; cbn.
  - by exists st.
  - destruct (tui_step_in_session ents st a H) as (st' & Hs & H').
    destruct (AuctionTui.step ents st a) as [st1|st1|]; cbn in Hs; simplify_eq.
    + by apply IH.
    + by exists st'.
Qed.

Lemma length_names (ents : list AuctionTui.rider) : length (names ents) = length ents.
Proof. apply length_map. Qed.

(** ** Navigation *)

(** C8.  In every session, MoveUp with the cursor at 0 and MoveDown with
    the cursor at the last index leave the state, hence the cursor, as it
    is, in the line-oriented and in the widget front-end: navigation
    clamps at both ends and does not wrap. *)
Theorem navigation_clamps (ents : list AuctionTui.rider) (st : session) :
  in_session ents st →
  (current_index st = 0 →
     Auction.step (names ents) st MoveUp = Continue st
     ∧ AuctionTui.step ents st MoveUp = Continue st)
  ∧ (current_index st = length ents - 1 →
     Auction.step (names ents) st MoveDown = Continue st
     ∧ AuctionTui.step ents st MoveDown = Continue st).
Proof.
  intros H. pose proof (in_session_names _ _ H) as Hn. split; intros Hc.
  - rewrite cli_move_up, tui_move_up by done. by rewrite Hc.
  - rewrite cli_move_down, tui_move_down by done.
    rewrite length_names, Hc, Nat.ltb_irrefl. done.
Qed.

Lemma navigation_clamps_witness :
  let ents := [AuctionTui.RiderStr (lit "A"); AuctionTui.RiderStr (lit "B")] in
  let top := {| current_index := 0; results := [unassigned; unassigned] |} in
  let bottom := {| current_index := 1; results := [unassigned; unassigned] |} in
  in_session ents top ∧ in_session ents bottom
  ∧ Auction.step (names ents) top MoveUp = Continue top
  ∧ AuctionTui.step ents top MoveUp = Continue top
  ∧ Auction.step (names ents) bottom MoveDown = Continue bottom
  ∧ AuctionTui.step ents bottom MoveDown = Continue bottom.
Proof.
  intros ents top bottom.
  assert (in_session ents top) as Ht by (split; cbn; lia).
  assert (in_session ents bottom) as Hb by (split; cbn; lia).
  split; [exact Ht|]. split; [exact Hb|].
  destruct (navigation_clamps ents top Ht) as [Hup _].
  destruct (navigation_clamps ents bottom Hb) as [_ Hdown].
  destruct (Hup eq_refl) as [H1 H2]. destruct (Hdown eq_refl) as [H3 H4].
  repeat split; assumption.
Defined.

(** The session both front-ends start with. *)
Lemma start_session (ents : list AuctionTui.rider) :
  1 ≤ length ents →
  let st0 := {| current_index := 0; results := (λ _, unassigned) <$> ents |} in
  Auction.start (names ents) = Some st0
  ∧ AuctionTui.start ents = Some st0
  ∧ in_session ents st0.
Proof.
  intros Hlen st0. split; [|split].
  - unfold Auction.start, names. rewrite length_map.
    destruct (length ents) eqn:E; [lia|]. cbn. subst st0. do 2 f_equal.
    clear. induction ents; cbn; congruence.
  - unfold AuctionTui.start. by destruct (length ents) eqn:E; [lia|].
  - split; cbn; [lia|apply length_fmap].
Qed.

(** C9.  For every entity sequence of length at least 1, both front-ends
    start the session with the cursor at 0 and every assignment
    unassigned, and whatever actions follow, no index is ever out of range
    and the cursor of the state reached lies in [0, length-1]. *)
Theorem cursor_stays_in_range (ents : list AuctionTui.rider) :
  1 ≤ length ents →
  ∃ st0,
    Auction.start (names ents) = Some st0
    ∧ AuctionTui.start ents = Some st0
    ∧ current_index st0 = 0
    ∧ length (results st0) = length ents
    ∧ Forall (λ r, r = unassigned) (results st0)
    ∧ ∀ actions,
        (∃ st, state_of (Auction.loop (names ents) st0 actions) = Some st
               ∧ 0 ≤ current_index st ≤ length ents - 1)
        ∧ (∃ st, state_of (AuctionTui.loop ents st0 actions) = Some st
                 ∧ 0 ≤ current_index st ≤ length ents - 1).
Proof.
  intros Hlen. destruct (start_session ents Hlen) as (Hc & Ht & H0).
  eexists. split; [exact Hc|]. split; [exact Ht|].
  split; [done|]. split; [cbn; apply length_fmap|].
  split.
  { cbn. clear. induction ents; cbn; by constructor. }
  intros actions. split.
  - destruct (cli_loop_in_session (names ents) actions _ (in_session_names _ _ H0))
      as (st & Hs & [Hi _]).
    exists st. split; [done|]. rewrite length_names in Hi. lia.
  - destruct (tui_loop_in_session ents actions _ H0) as (st & Hs & [Hi _]).
    exists st. split; [done|]. lia.
Qed.

Lemma cursor_stays_in_range_witness :
  let ents := [AuctionTui.RiderStr (lit "A"); AuctionTui.RiderStr (lit "B")] in
  1 ≤ length ents
  ∧ ∃ st0, Auction.start (names ents) = Some st0
      ∧ ∃ st, state_of (Auction.loop (names ents) st0
                          [MoveDown; MoveDown; Assign (lit "T") (lit "1") KeyOther; MoveUp])
              = Some st ∧ current_index st ≤ 1.
Proof.
  intros ents. split; [cbn; lia|].
  destruct (cursor_stays_in_range ents) as (st0 & Hc & _ & _ & _ & _ & Hall);
    [cbn; lia|].
  exists st0. split; [exact Hc|].
  destruct (Hall [MoveDown; MoveDown; Assign (lit "T") (lit "1") KeyOther; MoveUp])
    as [(st & Hs & Hr) _].
  exists st. split; [exact Hs|]. cbn in Hr. lia.
Defined.

(** ** The turns with their console calls *)

(** A turn that gets through its console calls is the controller's turn. *)
Lemma cli_get_team_and_price_answered (console_print : str → bool)
    (l p : str) (tp : option str * option pyval) :
  AuctionRun.get_team_and_price console_print (Some l) (Some p) = inr tp →
  tp = Auction.get_team_and_price l p.
Proof.
  unfold AuctionRun.get_team_and_price, Auction.get_team_and_price.
  destruct (console_print AuctionRun.prompt_team); [|done].
  destruct (negb _ || _); [by intros [= <-]|].
  destruct (console_print AuctionRun.prompt_price); [|done].
  by intros [= <-].
Qed.

Lemma cli_get_team_and_price_prompted (console_print : str → bool) (l p : str) :
  console_print AuctionRun.prompt_team = true →
  console_print AuctionRun.prompt_price = true →
  AuctionRun.get_team_and_price console_print (Some l) (Some p)
  = inr (Auction.get_team_and_price l p).
Proof.
  unfold AuctionRun.get_team_and_price, Auction.get_team_and_price.
  intros -> ->. by destruct (negb _ || _).
Qed.

Lemma cli_step_controller
    (create_progress_bar : nat → nat → str) (console_print : str → bool)
    (riders : list str) (st : session) (a : action) (o : outcome) :
  AuctionRun.step create_progress_bar console_print riders st a = Ran o →
  Auction.step riders st a = o.
Proof.
  unfold AuctionRun.step, AuctionRun.turn, Auction.step, Auction.loop_body.
  destruct (riders !! current_index st) as [rider|],
           (results st !! current_index st) as [r|];
    try (destruct a; by intros [= <-]).
  destruct (AuctionRun.display_rider _ _ _ _ _ _ _); [|by destruct a].
  destruct (console_print AuctionRun.prompt_key); [|by destruct a].
  destruct a as [| |l p k|]; cbn [Auction.press]; try by intros [= <-].
  rewrite bool_decide_true by done. cbn [orb].
  destruct (AuctionRun.get_team_and_price console_print (Some l) (Some p))
    as [e|tp] eqn:Hg; [done|].
  apply cli_get_team_and_price_answered in Hg. subst tp.
  destruct (Auction.get_team_and_price l p) as [team price].
  destruct (_ <? _)%nat; [by intros [= <-]|].
  destruct (console_print AuctionRun.prompt_last); [|done].
  by destruct (bool_decide _); intros [= <-].
Qed.

Lemma cli_step_shown
    (create_progress_bar : nat → nat → str) (console_print : str → bool)
    (riders : list str) (st : session) (a : action) :
  (∀ s, console_print s = true) →
  AuctionRun.step create_progress_bar console_print riders st a
  = Ran (Auction.step riders st a).
Proof.
  intros Hp.
  unfold AuctionRun.step, AuctionRun.turn, Auction.step, Auction.loop_body,
    AuctionRun.display_rider.
  destruct (riders !! current_index st) as [rider|],
           (results st !! current_index st) as [r|];
    try (by destruct a).
  rewrite !Hp.
  destruct a as [| |l p k|]; cbn [Auction.press]; try done.
  rewrite bool_decide_true by done. cbn [orb].
  rewrite cli_get_team_and_price_prompted by done.
  destruct (Auction.get_team_and_price l p) as [team price].
  destruct (_ <? _)%nat; [done|]. by destruct (bool_decide _).
Qed.

Lemma cli_run_controller
    (create_progress_bar : nat → nat → str) (console_print : str → bool)
    (riders : list str) (actions : list action) (st : session) (o : outcome) :
  in_session riders st →
  AuctionRun.run create_progress_bar console_print riders st actions = Ran o →
  Auction.loop riders st actions = o.
Proof.
  revert st. induction actions as [|a actions IH]; intros st H;
    cbn [AuctionRun.run Auction.loop].
  - destruct (in_session_lookup _ _ H) as [[x ->] [r ->]].
    destruct (AuctionRun.display_rider _ _ _ _ _ _ _); [|done].
    by destruct (console_print AuctionRun.prompt_key); intros [= <-].
  - destruct (AuctionRun.step create_progress_bar console_print riders st a)
      as [o'|e] eqn:Hs; [|done].
    apply cli_step_controller in Hs.
    destruct (cli_step_in_session riders st a H) as (st' & Hst & H').
    rewrite Hs in Hst |- *.
    destruct o' as [st1|st1|]; [|by intros [= <-]|by intros [= <-]].
    cbn in Hst. injection Hst as ->. by apply IH.
Qed.

Lemma cli_run_shown
    (create_progress_bar : nat → nat → str) (console_print : str → bool)
    (riders : list str) (actions : list action) (st : session) :
  (∀ s, console_print s = true) → in_session riders st →
  AuctionRun.run create_progress_bar console_print riders st actions
  = Ran (Auction.loop riders st actions).
Proof.
  intros Hp. revert st. induction actions as [|a actions IH]; intros st H;
    cbn [AuctionRun.run Auction.loop].
  - destruct (in_session_lookup _ _ H) as [[x ->] [r ->]].
    unfold AuctionRun.display_rider. by rewrite !Hp.
  - rewrite cli_step_shown by done.
    destruct (cli_step_in_session riders st a H) as (st' & Hst & H').
    destruct (Auction.step riders st a) as [st1|st1|]; [|done|done].
    cbn in Hst. injection Hst as ->. by apply IH.
Qed.

Lemma tui_update_display_controller (label_update : str → bool)
    (ents : list AuctionTui.rider) (st : session) (o : outcome) :
  AuctionTuiRun._update_display label_update ents st = Ran o →
  AuctionTui._update_display ents st = o.
Proof.
  unfold AuctionTuiRun._update_display, AuctionTui._update_display.
  destruct (ents !! current_index st) as [rider|]; [|by intros [= <-]].
  destruct (results st !! current_index st) as [r|]; [|by intros [= <-]].
  by destruct (_ && _); intros [= <-].
Qed.

Lemma tui_update_display_shown (label_update : str → bool)
    (ents : list AuctionTui.rider) (st : session) :
  (∀ s, label_update s = true) →
  AuctionTuiRun._update_display label_update ents st
  = Ran (AuctionTui._update_display ents st).
Proof.
  intros Hl. unfold AuctionTuiRun._update_display, AuctionTui._update_display.
  destruct (ents !! current_index st) as [rider|]; [|done].
  destruct (results st !! current_index st) as [r|]; [|done].
  by rewrite !Hl.
Qed.

Lemma tui_step_controller (label_update push_modal : str → bool)
    (ents : list AuctionTui.rider) (st : session) (a : action) (o : outcome) :
  AuctionTuiRun.step label_update push_modal ents st a = Ran o →
  AuctionTui.step ents st a = o.
Proof.
  destruct a as [| |l p k|]; cbn [AuctionTuiRun.step AuctionTui.step].
  - unfold AuctionTuiRun.action_previous_rider, AuctionTui.action_previous_rider,
      AuctionTuiRun.set_current_index, AuctionTui.set_current_index.
    destruct (_ <? _)%nat; [apply tui_update_display_controller|by intros [= <-]].
  - unfold AuctionTuiRun.action_next_rider, AuctionTui.action_next_rider,
      AuctionTuiRun.set_current_index, AuctionTui.set_current_index.
    destruct (_ <? _)%nat; [apply tui_update_display_controller|by intros [= <-]].
  - unfold AuctionTuiRun.action_assign, AuctionTui.action_assign.
    destruct (ents !! current_index st) as [rider|]; [|by intros [= <-]].
    destruct (push_modal _); [|done].
    unfold AuctionTuiRun._handle_assignment, AuctionTui._handle_assignment.
    destruct (AuctionTui._confirm l p) as [[team price]|]; [|by intros [= <-]].
    destruct (results st !! current_index st) as [r|]; [|by intros [= <-]].
    destruct (AuctionTuiRun._update_display label_update ents _) as [o'|e] eqn:Hu;
      [|done].
    apply tui_update_display_controller in Hu. rewrite Hu.
    destruct o' as [st1|st1|]; [|by intros [= <-]|by intros [= <-]].
    unfold AuctionTuiRun.set_current_index, AuctionTui.set_current_index.
    destruct (_ <? _)%nat; [apply tui_update_display_controller|by intros [= <-]].
  - by intros [= <-].
Qed.

Lemma tui_step_shown (label_update push_modal : str → bool)
    (ents : list AuctionTui.rider) (st : session) (a : action) :
  (∀ s, label_update s = true) → (∀ s, push_modal s = true) →
  AuctionTuiRun.step label_update push_modal ents st a
  = Ran (AuctionTui.step ents st a).
Proof.
  intros Hl Hm.
  destruct a as [| |l p k|]; cbn [AuctionTuiRun.step AuctionTui.step]; [| | |done].
  - unfold AuctionTuiRun.action_previous_rider, AuctionTui.action_previous_rider,
      AuctionTuiRun.set_current_index, AuctionTui.set_current_index.
    destruct (_ <? _)%nat; [by apply tui_update_display_shown|done].
  - unfold AuctionTuiRun.action_next_rider, AuctionTui.action_next_rider,
      AuctionTuiRun.set_current_index, AuctionTui.set_current_index.
    destruct (_ <? _)%nat; [by apply tui_update_display_shown|done].
  - unfold AuctionTuiRun.action_assign, AuctionTui.action_assign.
    destruct (ents !! current_index st) as [rider|]; [|done]. rewrite Hm.
    unfold AuctionTuiRun._handle_assignment, AuctionTui._handle_assignment.
    destruct (AuctionTui._confirm l p) as [[team price]|]; [|done].
    destruct (results st !! current_index st) as [r|]; [|done].
    rewrite tui_update_display_shown by done.
    destruct (AuctionTui._update_display ents _) as [st1|st1|]; [|done|done].
    unfold AuctionTuiRun.set_current_index, AuctionTui.set_current_index.
    destruct (_ <? _)%nat; [by apply tui_update_display_shown|done].
Qed.

Lemma tui_steps_controller (label_update push_modal : str → bool)
    (ents : list AuctionTui.rider) (actions : list action) (st : session)
    (o : outcome) :
  AuctionTuiRun.steps label_update push_modal ents st actions = Ran o →
  AuctionTui.loop ents st actions = o.
Proof.
  revert st. induction actions as [|a actions IH]; intros st;
    cbn [AuctionTuiRun.steps AuctionTui.loop]; [by intros [= <-]|].
  destruct (AuctionTuiRun.step label_update push_modal ents st a)
    as [o'|e] eqn:Hs; [|done].
  apply tui_step_controller in Hs. rewrite Hs.
  destruct o' as [st1|st1|]; [apply IH|by intros [= <-]|by intros [= <-]].
Qed.

Lemma tui_run_controller (label_update push_modal : str → bool)
    (ents : list AuctionTui.rider) (actions : list action) (st : session)
    (o : outcome) :
  in_session ents st →
  AuctionTuiRun.run label_update push_modal ents st actions = Ran o →
  AuctionTui.loop ents st actions = o.
Proof.
  intros H. unfold AuctionTuiRun.run.
  destruct (AuctionTuiRun._update_display label_update ents st) as [o'|e] eqn:Hu;
    [|done].
  apply tui_update_display_controller in Hu.
  rewrite tui_update_display in Hu by done. subst o'.
  apply tui_steps_controller.
Qed.

Lemma tui_run_shown (label_update push_modal : str → bool)
    (ents : list AuctionTui.rider) (actions : list action) (st : session) :
  (∀ s, label_update s = true) → (∀ s, push_modal s = true) →
  in_session ents st →
  AuctionTuiRun.run label_update push_modal ents st actions
  = Ran (AuctionTui.loop ents st actions).
Proof.
  intros Hl Hm H. unfold AuctionTuiRun.run.
  rewrite tui_update_display_shown, tui_update_display by done.
  clear H. revert st. induction actions as [|a actions IH]; intros st;
    cbn [AuctionTuiRun.steps AuctionTui.loop]; [done|].
  rewrite tui_step_shown by done.
  by destruct (AuctionTui.step ents st a).
Qed.

(** ** Assignment *)

Lemma price_of_cases (p : str) :
  (∀ n, int (strip p) = Some n → price_of p = PInt n)
  ∧ (strip p = [] → price_of p = PInt 0)
  ∧ (int (strip p) = None → strip p ≠ [] → price_of p = PStr (strip p)).
Proof.
  unfold price_of. repeat split.
  - by intros n ->.
  - by intros ->.
  - intros -> Hp. by destruct (strip p).
Qed.

Lemma count_digits_app (a b : str) :
  count_digits (a ++ b) = count_digits a + count_digits b.
Proof. induction a as [|c a IH]; cbn; [done|]. rewrite IH. lia. Qed.

Lemma count_digits_reverse (s : str) : count_digits (reverse s) = count_digits s.
Proof.
  induction s as [|c s IH]; [done|].
  rewrite reverse_cons, count_digits_app, IH. cbn. lia.
Qed.

Lemma int_isspace_no_digit (c : ascii) : int_isspace c = true → isdigit c = false.
Proof.
  destruct c as [[] [] [] [] [] [] [] []]; vm_compute; congruence.
Qed.

Lemma count_digits_int_skip (s : str) : count_digits (int_skip s) = count_digits s.
Proof.
  induction s as [|c s IH]; [done|]. cbn [int_skip].
  destruct (int_isspace c) eqn:Hc; [|done].
  cbn [count_digits]. by rewrite (int_isspace_no_digit c Hc), IH.
Qed.

Lemma count_digits_int_trim (s : str) : count_digits (int_trim s) = count_digits s.
Proof.
  unfold int_trim.
  by rewrite count_digits_reverse, count_digits_int_skip, count_digits_reverse,
    count_digits_int_skip.
Qed.

Lemma int_unsigned_capped (s : str) :
  is_Some (int_unsigned s) → (Z.of_nat (count_digits s) ≤ max_str_digits)%Z.
Proof.
  unfold int_unsigned. destruct s as [|d s]; [by intros [? ?]|].
  destruct (isdigit d); [|by intros [? ?]].
  destruct (Z.leb_spec (Z.of_nat (count_digits (d :: s))) max_str_digits);
    [done|by intros [? ?]].
Qed.

(** [int] accepts no literal of more than [max_str_digits] digits. *)
Lemma int_capped (s : str) :
  is_Some (int s) → (Z.of_nat (count_digits s) ≤ max_str_digits)%Z.
Proof.
  rewrite <- (count_digits_int_trim s). unfold int.
  destruct (int_trim s) as [|c t]; [by intros [? ?]|].
  case_bool_decide as Hm; [|case_bool_decide as Hp].
  - subst c. rewrite fmap_is_Some. apply int_unsigned_capped.
  - subst c. apply int_unsigned_capped.
  - apply int_unsigned_capped.
Qed.

(** The digits read bound the number read. *)
Lemma digit_value_range (c : ascii) :
  isdigit c = true → (0 ≤ digit_value c ≤ 9)%Z.
Proof.
  unfold isdigit, between, digit_value.
  rewrite andb_true_iff, !Nat.leb_le. lia.
Qed.

Lemma int_digits_bound (s : str) (acc : Z) (b : bool) (n : Z) :
  (0 ≤ acc)%Z → int_digits acc b s = Some n →
  (acc * 10 ^ Z.of_nat (count_digits s) ≤ n
   < (acc + 1) * 10 ^ Z.of_nat (count_digits s))%Z.
Proof.
  revert acc b. induction s as [|c s IH]; intros acc b Hacc;
    cbn [int_digits count_digits].
  - destruct b; [done|]. intros [= <-]. cbn. lia.
  - destruct (isdigit c) eqn:Hc.
    + intros Hn. pose proof (digit_value_range c Hc) as Hd.
      apply IH in Hn; [|lia].
      rewrite Nat2Z.inj_add, Z.pow_add_r by lia.
      change (10 ^ Z.of_nat 1)%Z with 10%Z.
      assert (0 < 10 ^ Z.of_nat (count_digits s))%Z by (apply Z.pow_pos_nonneg; lia).
      nia.
    + case_bool_decide; [|done]. destruct b; [done|]. by apply IH.
Qed.

Lemma int_unsigned_bound (s : str) (n : Z) :
  int_unsigned s = Some n →
  (0 ≤ n < 10 ^ Z.of_nat (count_digits s))%Z
  ∧ (Z.of_nat (count_digits s) ≤ max_str_digits)%Z.
Proof.
  intros Hn. split; [|apply int_unsigned_capped; by rewrite Hn].
  unfold int_unsigned in Hn. destruct s as [|d s]; [done|].
  destruct (isdigit d) eqn:Hd; [|done].
  destruct (_ <=? _)%Z; [|done].
  pose proof (digit_value_range d Hd).
  apply int_digits_bound in Hn; [|lia].
  cbn [count_digits]. rewrite Hd, Nat2Z.inj_add, Z.pow_add_r by lia.
  change (10 ^ Z.of_nat 1)%Z with 10%Z.
  assert (0 < 10 ^ Z.of_nat (count_digits s))%Z by (apply Z.pow_pos_nonneg; lia).
  nia.
Qed.

(** A number [int] returns has few enough digits to be read again. *)
Lemma int_bound (s : str) (n : Z) :
  int s = Some n →
  ∃ c, (Z.abs n < 10 ^ Z.of_nat c)%Z ∧ (Z.of_nat c ≤ max_str_digits)%Z.
Proof.
  unfold int. destruct (int_trim s) as [|c t]; [done|].
  case_bool_decide; [|case_bool_decide].
  - destruct (int_unsigned t) as [m|] eqn:Hm; [|done]. intros [= <-].
    apply int_unsigned_bound in Hm as [Hm Hcap]. exists (count_digits t). lia.
  - intros Hm. apply int_unsigned_bound in Hm as [Hm Hcap].
    exists (count_digits t). lia.
  - intros Hm. apply int_unsigned_bound in Hm as [Hm Hcap].
    exists (count_digits (c :: t)). lia.
Qed.

(** A number [int] returns is below ten to the limit on the digits. *)
Lemma int_magnitude (s : str) (n : Z) :
  int s = Some n → (Z.abs n < 10 ^ max_str_digits)%Z.
Proof.
  intros Hn. apply int_bound in Hn as (c & Hlt & Hcap).
  eapply Z.lt_le_trans; [exact Hlt|].
  apply Z.pow_le_mono_r; lia.
Qed.

(** C1, as the code has it.  In the line-oriented front-end, for an
    Assign whose label, once trimmed, is non-empty and is not a skip word,
    [get_team_and_price] returns the trimmed label together with a value:
    the parsed integer when the trimmed price input parses as an integer
    (a literal of at most 4300 digits), the integer 0 when the price input
    is empty once trimmed, and the trimmed price text otherwise, a literal
    of more than 4300 digits included.  The ValueError of [int()] is
    caught: with its two prompts printed and answered the function
    returns, whatever the price input.  A turn that gets through its
    console calls leaves that label and value at the cursor. *)
Theorem assign_stores_label_and_price
    (create_progress_bar : nat → nat → str) (console_print : str → bool)
    (riders : list str) (st : session) (l p : str) (k : key) :
  in_session riders st →
  is_skip l = false →
  ∃ v,
    Auction.get_team_and_price l p = (Some (strip l), Some v)
    ∧ (∀ n, int (strip p) = Some n → v = PInt n)
    ∧ (strip p = [] → v = PInt 0)
    ∧ (int (strip p) = None → strip p ≠ [] → v = PStr (strip p))
    ∧ ((max_str_digits < Z.of_nat (count_digits (strip p)))%Z → v = PStr (strip p))
    ∧ (console_print AuctionRun.prompt_team = true →
       console_print AuctionRun.prompt_price = true →
       AuctionRun.get_team_and_price console_print (Some l) (Some p)
       = inr (Some (strip l), Some v))
    ∧ ∀ o,
        AuctionRun.step create_progress_bar console_print riders st (Assign l p k)
        = Ran o →
        ∃ st', state_of o = Some st'
               ∧ results st' !! current_index st
                 = Some {| team := Some (strip l); price := Some v |}.
Proof.
  intros H Hl. pose proof H as [Hi Hlen].
  pose proof (get_team_and_price_assign l p Hl) as Hg.
  destruct (price_of_cases p) as (Hint & Hempty & Htext).
  exists (price_of p). split; [done|]. split; [done|]. split; [done|].
  split; [done|]. split; [|split].
  - intros Hcap.
    assert (int (strip p) = None) as Hnone.
    { destruct (int (strip p)) as [n|] eqn:Hn; [|done].
      pose proof (int_capped (strip p) ltac:(by rewrite Hn)). lia. }
    apply Htext; [done|]. intros Hp. rewrite Hp in Hcap. by cbn in Hcap.
  - intros Ht Hp. by rewrite cli_get_team_and_price_prompted, Hg.
  - intros o Ho. apply cli_step_controller in Ho. subst o.
    rewrite cli_assign by done. cbn zeta. rewrite Hg.
    assert (assigned_at (current_index st) (Some (strip l), Some (price_of p))
              (results st) !! current_index st
            = Some {| team := Some (strip l); price := Some (price_of p) |}) as Hat.
    { unfold assigned_at. apply lookup_assign. lia. }
    destruct (Nat.ltb_spec (current_index st) (length riders - 1));
      [|destruct (bool_decide _)]; by eexists.
Qed.

Lemma assign_stores_label_and_price_witness :
  let riders := [lit "Tadej POGACAR"; lit "Jonas VINGEGAARD"] in
  let st := {| current_index := 0; results := [unassigned; unassigned] |} in
  let entry := {| team := Some (lit "TeamA"); price := Some (PStr (lit "12abc")) |} in
  let o := Continue {| current_index := 1; results := [entry; unassigned] |} in
  in_session riders st ∧ is_skip (lit " TeamA ") = false
  ∧ AuctionRun.step (λ _ _, lit "....") (λ _, true) riders st
      (Assign (lit " TeamA ") (lit " 12abc") KeyOther) = Ran o
  ∧ ∃ st', state_of o = Some st' ∧ results st' !! 0 = Some entry.
Proof.
  intros riders st entry o.
  assert (in_session riders st) as H by (split; cbn; lia).
  assert (AuctionRun.step (λ _ _, lit "....") (λ _, true) riders st
            (Assign (lit " TeamA ") (lit " 12abc") KeyOther) = Ran o) as Hrun
    by (vm_compute; reflexivity).
  split; [exact H|]. split; [reflexivity|]. split; [exact Hrun|].
  destruct (assign_stores_label_and_price (λ _ _, lit "....") (λ _, true)
              riders st (lit " TeamA ") (lit " 12abc") KeyOther H eq_refl)
    as (v & _ & _ & _ & Hv & _ & _ & Hstep).
  destruct (Hstep o Hrun) as (st' & Hs & Hr).
  exists st'. split; [exact Hs|].
  rewrite (Hv eq_refl) in Hr; [exact Hr|discriminate].
Defined.

(** C1 as stated fails: a label of one blank is non-empty and is no skip
    word, yet the assignment at the cursor does not get the trimmed label
    and the parsed price: the prompt treats the label as a skip. *)
Lemma assign_blank_label_counterexample :
  let riders := [lit "Tadej POGACAR"] in
  let st := {| current_index := 0; results := [unassigned] |} in
  let l := lit " " in
  let p := lit "5" in
  in_session riders st
  ∧ l ≠ [] ∧ str_in (lower l) [lit "salta"; lit "skip"] = false
  ∧ int p = Some 5%Z
  ∧ Auction.get_team_and_price l p = (None, None)
  ∧ ¬ ∃ st', state_of (Auction.step riders st (Assign l p KeyOther)) = Some st'
            ∧ results st' !! 0 = Some {| team := Some (strip l); price := Some (PInt 5) |}.
Proof.
  repeat split; try (cbn; lia); try discriminate.
  intros (st' & Hs & Hr). vm_compute in Hs. injection Hs as <-.
  vm_compute in Hr. discriminate Hr.
Qed.

(** C2, as the code has it.  In the line-oriented front-end, whatever the
    session state and whatever the assignment at the cursor held, an
    Assign whose label is empty or a skip word in any letter case (before
    or after trimming) leaves both fields at that index unassigned.  In
    the widget front-end an Assign whose trimmed label is empty changes
    nothing. *)
Theorem skip_clears_assignment
    (ents : list AuctionTui.rider) (st : session) (l p : str) (k : key) :
  in_session ents st →
  (l = [] ∨ str_in (lower l) [lit "salta"; lit "skip"] = true ∨ is_skip l = true) →
  (∃ st', state_of (Auction.step (names ents) st (Assign l p k)) = Some st'
          ∧ results st' !! current_index st = Some unassigned)
  ∧ (nonempty (strip l) = false →
     AuctionTui.step ents st (Assign l p k) = Continue st).
Proof.
  intros H Hl. split; [|by apply tui_assign_empty].
  assert (is_skip l = true) as Hskip.
  { destruct Hl as [Hl|[Hl|Hl]]; [| |done]; apply literal_skip_is_skip; tauto. }
  pose proof (in_session_names _ _ H) as Hn. pose proof H as [Hi Hlen].
  rewrite cli_assign by done. cbn zeta.
  rewrite (get_team_and_price_skip l p Hskip).
  assert (assigned_at (current_index st) (None, None) (results st)
            !! current_index st = Some unassigned) as Hat.
  { unfold assigned_at. apply lookup_assign. lia. }
  destruct (Nat.ltb_spec (current_index st) (length (names ents) - 1));
    [|destruct (bool_decide _)]; by eexists.
Qed.

Lemma skip_clears_assignment_witness :
  let ents := [AuctionTui.RiderStr (lit "A"); AuctionTui.RiderStr (lit "B")] in
  let st := {| current_index := 0;
               results := [ {| team := Some (lit "T"); price := Some (PInt 5) |}; unassigned] |} in
  in_session ents st
  ∧ str_in (lower (lit "SKIP")) [lit "salta"; lit "skip"] = true
  ∧ ∃ st', state_of (Auction.step (names ents) st (Assign (lit "SKIP") [] KeyOther)) = Some st'
           ∧ results st' !! 0 = Some unassigned.
Proof.
  intros ents st.
  assert (in_session ents st) as H by (split; cbn; lia).
  split; [exact H|]. split; [reflexivity|].
  exact (proj1 (skip_clears_assignment ents st (lit "SKIP") [] KeyOther H
                  (or_intror (or_introl eq_refl)))).
Defined.

(** C2 as stated fails in the widget front-end: an Assign with an empty
    label leaves a previous assignment in place. *)
Lemma skip_keeps_assignment_counterexample :
  let ents := [AuctionTui.RiderStr (lit "A")] in
  let before := {| team := Some (lit "T"); price := Some (PStr (lit "5")) |} in
  let st := {| current_index := 0; results := [before] |} in
  in_session ents st
  ∧ AuctionTui.step ents st (Assign [] [] KeyOther) = Continue st
  ∧ results st !! 0 = Some before
  ∧ before ≠ unassigned.
Proof.
  repeat split; try (cbn; lia). discriminate.
Qed.

(** C3, as the code has it.  After an Assign the cursor moves forward by
    exactly 1 or stays: in the line-oriented front-end it moves exactly
    when it is not at the last index, for a skip as for an assignment; in
    the widget front-end it moves exactly when the trimmed label is
    non-empty and the cursor is not at the last index.  In both, an Assign
    at the last index leaves the cursor at the last index. *)
Theorem assign_moves_cursor
    (ents : list AuctionTui.rider) (st : session) (l p : str) (k : key) :
  in_session ents st →
  (∃ st', state_of (Auction.step (names ents) st (Assign l p k)) = Some st'
          ∧ current_index st' =
            if (current_index st <? length ents - 1)%nat
            then current_index st + 1 else current_index st)
  ∧ (∃ st', state_of (AuctionTui.step ents st (Assign l p k)) = Some st'
            ∧ current_index st' =
              if nonempty (strip l) && (current_index st <? length ents - 1)%nat
              then current_index st + 1 else current_index st).
Proof.
  intros H. pose proof (in_session_names _ _ H) as Hn. split.
  - rewrite cli_assign by done. cbn zeta. rewrite length_names.
    destruct (current_index st <? length ents - 1)%nat;
      [|destruct (bool_decide _)]; by eexists.
  - destruct (nonempty (strip l)) eqn:Hne.
    + rewrite tui_assign by done. cbn zeta.
      destruct (current_index st <? length ents - 1)%nat; by eexists.
    + rewrite tui_assign_empty by done. by eexists.
Qed.

Lemma assign_moves_cursor_witness :
  let ents := [AuctionTui.RiderStr (lit "A"); AuctionTui.RiderStr (lit "B")] in
  let st := {| current_index := 0; results := [unassigned; unassigned] |} in
  in_session ents st
  ∧ ∃ st', state_of (AuctionTui.step ents st (Assign (lit "T") (lit "5") KeyOther)) = Some st'
           ∧ current_index st' = 1.
Proof.
  intros ents st.
  assert (in_session ents st) as H by (split; cbn; lia).
  split; [exact H|].
  exact (proj2 (assign_moves_cursor ents st (lit "T") (lit "5") KeyOther H)).
Defined.

(** C3 as stated fails in the line-oriented front-end: a skip Assign away
    from the last index moves the cursor forward. *)
Lemma skip_advances_counterexample :
  let riders := [lit "A"; lit "B"] in
  let st := {| current_index := 0; results := [unassigned; unassigned] |} in
  in_session riders st
  ∧ Auction.get_team_and_price [] [] = (None, None)
  ∧ Auction.step riders st (Assign [] [] KeyOther)
    = Continue {| current_index := 1; results := [unassigned; unassigned] |}.
Proof.
  repeat split; cbn; lia.
Qed.

(** ** The exported records *)

Lemma cli_data_rows (results : list result) (riders : list str) (i : nat) :
  i + length riders ≤ length results →
  Auction.data_rows results i riders
  = Some (zip_with data_row riders (drop i results)).
Proof.
  revert i. induction riders as [|name riders IH]; intros i Hlen; cbn in *.
  - done.
  - destruct (lookup_lt_is_Some_2 results i) as [r Hr]; [lia|].
    rewrite Hr. cbn. rewrite IH by lia. cbn.
    by rewrite (drop_S _ _ _ Hr).
Qed.

Lemma tui_data_rows (results : list result) (ents : list AuctionTui.rider) (i : nat) :
  AuctionTui.data_rows results i ents = Auction.data_rows results i (names ents).
Proof.
  revert i. induction ents as [|e ents IH]; intros i; cbn; [done|].
  destruct (results !! i); cbn; [|done]. by rewrite IH.
Qed.

Lemma tui_export_text (results : list result) (ents : list AuctionTui.rider) :
  AuctionTui.export_text results ents = Auction.export_text results (names ents).
Proof.
  unfold AuctionTui.export_text, Auction.export_text. by rewrite tui_data_rows.
Qed.

Lemma cli_export_text (results : list result) (riders : list str) :
  length results = length riders →
  Auction.export_text results riders
  = Some (Csv.writerows (header :: zip_with data_row riders results)).
Proof.
  intros Hlen. unfold Auction.export_text.
  rewrite cli_data_rows by (cbn; lia). by rewrite drop_0.
Qed.

Lemma data_row_forget_zero (name : str) (r : result) :
  data_row name (forget_zero r) = data_row name r.
Proof.
  unfold forget_zero. case_bool_decide as Hp; [|done].
  unfold data_row. cbn. by rewrite Hp.
Qed.

Lemma data_rows_forget_zero (results : list result) (riders : list str) (i : nat) :
  Auction.data_rows (forget_zero <$> results) i riders
  = Auction.data_rows results i riders.
Proof.
  revert i. induction riders as [|name riders IH]; intros i; cbn; [done|].
  rewrite list_lookup_fmap. destruct (results !! i) as [r|]; cbn; [|done].
  by rewrite IH, data_row_forget_zero.
Qed.

(** C7.  For every session the exported file is the header record with
    the three fields Corridore, Squadra, Prezzo followed by exactly one
    record per entity, in entity order, holding the entity's name (the
    name of the dict rider or the bare name), the label and the value,
    where an unassigned label or value is the empty field; this holds for
    both [save_results].  In the scenario of two entities, the first
    assigned TeamA at 500 and the second skipped, the records are
    [Tadej POGACAR,TeamA,500] and [Jonas VINGEGAARD,,], for bare names
    as for the dict riders the loaders build. *)
Theorem export_records :
  (∀ (ents : list AuctionTui.rider) (results : list result),
     length results = length ents →
     let rows := zip_with data_row (names ents) results in
     Auction.export_text results (names ents)
       = Some (Csv.writerow header ++ concat (map Csv.writerow rows))
     ∧ AuctionTui.export_text results ents
       = Some (Csv.writerow header ++ concat (map Csv.writerow rows))
     ∧ Csv.writerow header = lit "Corridore,Squadra,Prezzo" ++ [CR; LF]
     ∧ length rows = length ents
     ∧ ∀ i e r, ents !! i = Some e → results !! i = Some r →
         (∃ name,
            (e = AuctionTui.RiderStr name ∨ ∃ value, e = AuctionTui.RiderDict name value)
            ∧ rows !! i = Some [name; team_field (team r); price_field (price r)])
         ∧ (team r = None → team_field (team r) = [])
         ∧ (price r = None → price_field (price r) = []))
  ∧ (let riders := [lit "Tadej POGACAR"; lit "Jonas VINGEGAARD"] in
     let actions := [Assign (lit "TeamA") (lit "500") KeyOther; Assign [] [] KeyOther; Quit] in
     let widget_actions := [Assign (lit "TeamA") (lit "500") KeyOther; MoveDown; Quit] in
     let text := lit "Corridore,Squadra,Prezzo" ++ [CR; LF]
                 ++ lit "Tadej POGACAR,TeamA,500" ++ [CR; LF]
                 ++ lit "Jonas VINGEGAARD,," ++ [CR; LF] in
     (∃ fs', Auction.main riders (lit "input.csv") actions ∅ = Some fs'
             ∧ fs' !! lit "input_auction_results.csv" = Some text)
     ∧ (∃ fs', AuctionTui.main 1 (AuctionTui.RiderStr <$> riders) (lit "input.csv")
                 actions ∅ = Some fs'
               ∧ fs' !! lit "input_auction_results.csv" = Some text)
     ∧ (∃ fs', AuctionTui.main 1
                 [AuctionTui.RiderDict (lit "Tadej POGACAR") (Some (PInt 900));
                  AuctionTui.RiderDict (lit "Jonas VINGEGAARD") None]
                 (lit "input.csv") widget_actions ∅ = Some fs'
               ∧ fs' !! lit "input_auction_results.csv" = Some text)).
Proof.
  split.
  - intros ents results Hlen rows.
    assert (length results = length (names ents)) as Hn by by rewrite length_names.
    split; [by rewrite cli_export_text|].
    split; [by rewrite tui_export_text, cli_export_text|].
    split; [done|].
    split; [subst rows; rewrite length_zip_with, length_names; lia|].
    intros i e r He Hr. split; [|by split; intros ->].
    assert (rows !! i
            = Some [AuctionTui.rider_name e; team_field (team r); price_field (price r)])
      as Hrow.
    { subst rows. rewrite lookup_zip_with. unfold names.
      change (map AuctionTui.rider_name ents) with (AuctionTui.rider_name <$> ents).
      by rewrite list_lookup_fmap, He, Hr. }
    destruct e as [name value|name]; exists name; (split; [|exact Hrow]).
    + right. by exists value.
    + by left.
  - cbn zeta. repeat split; eexists; (split; [vm_compute; reflexivity|]);
      vm_compute; reflexivity.
Qed.

Lemma export_records_witness :
  let ents := [AuctionTui.RiderDict (lit "Tadej POGACAR") (Some (PInt 900));
               AuctionTui.RiderStr (lit "Jonas VINGEGAARD")] in
  let results := [ {| team := Some (lit "TeamA"); price := Some (PInt 500) |}; unassigned ] in
  length results = length ents
  ∧ AuctionTui.export_text results ents
    = Some (lit "Corridore,Squadra,Prezzo" ++ [CR; LF]
            ++ lit "Tadej POGACAR,TeamA,500" ++ [CR; LF]
            ++ lit "Jonas VINGEGAARD,," ++ [CR; LF]).
Proof.
  intros ents results. split; [reflexivity|].
  etrans; [exact (proj1 (proj2 (proj1 export_records ents results eq_refl)))|].
  vm_compute. reflexivity.
Defined.

(** C10.  A stored value that is the integer 0, such as the one a non-skip
    Assign with an empty price input stores, is exported as the empty
    field: the record, and so the whole file written by either
    [save_results], is the one obtained when that value is unassigned. *)
Theorem zero_value_exported_empty :
  price_field (Some (PInt 0)) = [] ∧ price_field None = []
  ∧ (∀ name t, data_row name {| team := t; price := Some (PInt 0) |}
               = data_row name {| team := t; price := None |})
  ∧ (∀ results riders,
       Auction.export_text (forget_zero <$> results) riders
       = Auction.export_text results riders)
  ∧ (∀ results ents,
       AuctionTui.export_text (forget_zero <$> results) ents
       = AuctionTui.export_text results ents)
  ∧ (∀ l p, is_skip l = false → strip p = [] →
       Auction.get_team_and_price l p = (Some (strip l), Some (PInt 0))).
Proof.
  repeat split.
  - intros results riders. unfold Auction.export_text.
    by rewrite data_rows_forget_zero.
  - intros results ents. rewrite !tui_export_text. unfold Auction.export_text.
    by rewrite data_rows_forget_zero.
  - intros l p Hl Hp. rewrite (get_team_and_price_assign l p Hl).
    by rewrite (proj1 (proj2 (price_of_cases p)) Hp).
Qed.

Lemma zero_value_exported_empty_witness :
  is_skip (lit "TeamA") = false ∧ strip (lit "  ") = []
  ∧ Auction.get_team_and_price (lit "TeamA") (lit "  ")
    = (Some (lit "TeamA"), Some (PInt 0)).
Proof.
  split; [reflexivity|]. split; [reflexivity|].
  exact (proj2 (proj2 (proj2 (proj2 (proj2 zero_value_exported_empty))))
           (lit "TeamA") (lit "  ") eq_refl eq_refl).
Defined.

(** ** The output file name *)

Lemma str_of_nat_inj (i j : nat) : str_of_nat i = str_of_nat j → i = j.
Proof.
  unfold str_of_nat. intros H.
  apply (f_equal string_of_list_ascii) in H.
  rewrite !string_of_list_ascii_of_string in H.
  apply (f_equal NilEmpty.uint_of_string) in H.
  rewrite !NilEmpty.usu in H. injection H as H.
  apply (f_equal Nat.of_uint) in H.
  by rewrite !Unsigned.of_to in H.
Qed.

Lemma numbered_file_inj (base : str) (i j : nat) :
  AuctionTui.numbered_file base i = AuctionTui.numbered_file base j → i = j.
Proof.
  unfold AuctionTui.numbered_file. intros H.
  apply app_inv_head, app_inv_head, app_inv_tail in H.
  by apply str_of_nat_inj.
Qed.

(** What the probing loop returns: the first unused numbered name. *)
Lemma unique_loop_some (fs : files) (base : str) (fuel c : nat) (name : str) :
  AuctionTui.unique_loop fs base fuel c = Some name →
  ∃ k, c ≤ k ∧ name = AuctionTui.numbered_file base k ∧ fs !! name = None
       ∧ ∀ j, c ≤ j < k → is_Some (fs !! AuctionTui.numbered_file base j).
Proof.
  revert c. induction fuel as [|fuel IH]; intros c; cbn; [done|].
  case_bool_decide as Hx; cbn.
  - intros Hl. apply IH in Hl as (k & Hk & -> & Hnone & Hbelow).
    exists k. repeat split; [lia|done|].
    intros j Hj. destruct (decide (j = c)) as [->|]; [done|].
    apply Hbelow. lia.
  - intros [= <-]. exists c. repeat split; [lia| |intros; lia].
    by apply eq_None_not_Some.
Qed.

Lemma unique_loop_none (fs : files) (base : str) (fuel c : nat) :
  AuctionTui.unique_loop fs base fuel c = None →
  ∀ j, c ≤ j < c + fuel → is_Some (fs !! AuctionTui.numbered_file base j).
Proof.
  revert c. induction fuel as [|fuel IH]; intros c; cbn; [intros; lia|].
  case_bool_decide as Hx; cbn; [|done].
  intros Hl j Hj. destruct (decide (j = c)) as [->|]; [done|].
  apply (IH _ Hl). lia.
Qed.

(** Finitely many files cannot use up more numbered names than there are
    files. *)
Lemma numbered_files_bounded (fs : files) (base : str) (c n : nat) :
  (∀ j, c ≤ j < c + n → is_Some (fs !! AuctionTui.numbered_file base j)) →
  n ≤ size fs.
Proof.
  intros Hall.
  set (l := AuctionTui.numbered_file base <$> seq c n).
  assert (NoDup l) as Hnd.
  { apply NoDup_fmap_2_strong; [|apply NoDup_seq].
    intros i j _ _. apply numbered_file_inj. }
  assert ((list_to_set l : gset (list ascii)) ⊆ dom fs) as Hsub.
  { intros x Hx. apply elem_of_list_to_set in Hx.
    apply list_elem_of_fmap in Hx as (j & -> & Hj).
    apply elem_of_seq in Hj. apply elem_of_dom, Hall. lia. }
  apply subseteq_size in Hsub.
  rewrite size_list_to_set, size_dom in Hsub by done.
  subst l. by rewrite length_fmap, length_seq in Hsub.
Qed.

Lemma unique_loop_terminates (fs : files) (base : str) (fuel : nat) :
  size fs < fuel → is_Some (AuctionTui.unique_loop fs base fuel 1).
Proof.
  intros Hfuel.
  destruct (AuctionTui.unique_loop fs base fuel 1) eqn:Hl; [done|].
  pose proof (numbered_files_bounded fs base 1 fuel (unique_loop_none _ _ _ _ Hl)).
  lia.
Qed.

Lemma save_results_keeps_others (results : list result)
    (ents : list AuctionTui.rider) (name : str) (fs fs' : files) :
  fs !! name = None →
  AuctionTui.save_results results ents name fs = Some fs' →
  ∀ p content, fs !! p = Some content → fs' !! p = Some content.
Proof.
  unfold AuctionTui.save_results. intros Hnew Hs p content Hp.
  destruct (AuctionTui.export_text results ents) as [text|]; [|done].
  injection Hs as <-. rewrite lookup_insert_ne; [done|]. congruence.
Qed.

(** X20.  In the widget front-end, for every input file name and every
    set of existing files, the output file is chosen, given more probes
    than there are files: it is the derived name (base name of the input,
    extension stripped, plus the fixed suffix) when no such file exists,
    and otherwise the derived name with the first counter 1, 2, ... that
    names no existing file.  The export of a table with one entry per
    rider writes exactly that file and leaves every existing file as it
    was. *)
Theorem unique_output_file (fs : files) (input_file : str) (fuel : nat)
    (ents : list AuctionTui.rider) (st : session) :
  size fs < fuel →
  length (results st) = length ents →
  let base := base_name input_file in
  let derived := base ++ lit "_auction_results.csv" in
  ∃ name text,
    AuctionTui.output_file fuel input_file fs = Some name
    ∧ fs !! name = None
    ∧ (fs !! derived = None → name = derived)
    ∧ (is_Some (fs !! derived) →
       ∃ k, 1 ≤ k ∧ name = AuctionTui.numbered_file base k
            ∧ ∀ j, 1 ≤ j < k → is_Some (fs !! AuctionTui.numbered_file base j))
    ∧ AuctionTui.export_text (results st) ents = Some text
    ∧ AuctionTui.export fuel ents st input_file fs = Some (<[name := text]> fs)
    ∧ ∀ p content, fs !! p = Some content → <[name := text]> fs !! p = Some content.
Proof.
  intros Hfuel Hlen base derived.
  assert (∃ name, AuctionTui.output_file fuel input_file fs = Some name
            ∧ fs !! name = None
            ∧ (fs !! derived = None → name = derived)
            ∧ (is_Some (fs !! derived) →
               ∃ k, 1 ≤ k ∧ name = AuctionTui.numbered_file base k
                 ∧ ∀ j, 1 ≤ j < k → is_Some (fs !! AuctionTui.numbered_file base j)))
    as (name & Hname & Hnone & Hfree & Htaken).
  { unfold AuctionTui.output_file, AuctionTui.get_unique_output_file.
    fold base. fold derived. case_bool_decide as Hx; cbn.
    - destruct (unique_loop_terminates fs base fuel Hfuel) as [name Hl].
      destruct (unique_loop_some _ _ _ _ _ Hl) as (k & Hk & -> & Hnone & Hbelow).
      eexists. split; [done|]. split; [done|]. split.
      + intros Hd. rewrite Hd in Hx. by destruct Hx.
      + intros _. by exists k.
    - exists derived. split; [done|]. split; [by apply eq_None_not_Some|].
      split; [done|]. intros Hd. by destruct Hx. }
  assert (∃ text, AuctionTui.export_text (results st) ents = Some text)
    as [text Htext].
  { rewrite tui_export_text, cli_export_text by by rewrite length_names.
    by eexists. }
  exists name, text. repeat split; try done.
  - unfold AuctionTui.export. rewrite Hname. cbn.
    unfold AuctionTui.save_results. by rewrite Htext.
  - intros p content Hp. rewrite lookup_insert_ne; [done|]. congruence.
Qed.

Lemma unique_output_file_witness :
  let fs : files := {[ lit "input_auction_results.csv" := lit "old";
                       lit "input_auction_results_1.csv" := lit "older" ]} in
  let ents := [AuctionTui.RiderDict (lit "A") None] in
  let st := {| current_index := 0;
               results := [ {| team := Some (lit "T"); price := Some (PStr (lit "5")) |} ] |} in
  let text := lit "Corridore,Squadra,Prezzo" ++ [CR; LF] ++ lit "A,T,5" ++ [CR; LF] in
  size fs < 3
  ∧ length (results st) = length ents
  ∧ AuctionTui.export 3 ents st (lit "dir/input.csv") fs
    = Some (<[lit "input_auction_results_2.csv" := text]> fs)
  ∧ ∃ name text',
      AuctionTui.export 3 ents st (lit "dir/input.csv") fs = Some (<[name := text']> fs)
      ∧ fs !! name = None
      ∧ <[name := text']> fs !! lit "input_auction_results.csv" = Some (lit "old").
Proof.
  intros fs ents st text.
  assert (size fs < 3) as Hsize by (vm_compute; lia).
  split; [exact Hsize|]. split; [reflexivity|].
  split; [vm_compute; reflexivity|].
  destruct (unique_output_file fs (lit "dir/input.csv") 3 ents st Hsize eq_refl)
    as (name & text' & _ & Hnone & _ & _ & _ & Hexport & Hkept).
  exists name, text'. split; [exact Hexport|]. split; [exact Hnone|].
  apply Hkept. vm_compute. reflexivity.
Defined.

(** C5.  The code at the failing input.  The working directory holds the
    input file [input.csv] with one rider and a results file
    [input_auction_results.csv] of an earlier session; the operator quits
    at once.  [main] of [auction.py] writes to the derived name: the
    content of the existing results file is replaced.  [main] of
    [auction_tui_backup.py], on the same input, writes the numbered file
    and leaves the existing one as it was. *)
Theorem results_file_overwritten :
  let fs : files := {[ lit "input.csv" := lit "A" ++ [LF];
                       lit "input_auction_results.csv" := lit "old" ]} in
  let text := lit "Corridore,Squadra,Prezzo" ++ [CR; LF] ++ lit "A,," ++ [CR; LF] in
  let after_cli := <[lit "input_auction_results.csv" := text]> fs in
  let after_tui := <[lit "input_auction_results_1.csv" := text]> fs in
  Auction.output_file (lit "input.csv") = lit "input_auction_results.csv"
  ∧ fs !! lit "input_auction_results.csv" = Some (lit "old")
  ∧ AuctionMain.main (λ _, None) [lit "auction.py"; lit "input.csv"] [Quit] fs
    = Done 0 1 after_cli
  ∧ after_cli !! lit "input_auction_results.csv" = Some text
  ∧ after_cli !! lit "input_auction_results_1.csv" = None
  ∧ AuctionTuiMain.main (λ _, None) 3 [lit "auction_tui_backup.py"; lit "input.csv"]
      [Quit] fs
    = Done 0 1 after_tui
  ∧ after_tui !! lit "input_auction_results.csv" = Some (lit "old")
  ∧ after_tui !! lit "input_auction_results_1.csv" = Some text.
Proof.
  repeat split; vm_compute; reflexivity.
Qed.

(** ** The two front-ends side by side *)

Lemma price_of_strip (p : str) : price_of (strip p) = price_of p.
Proof. unfold price_of. by rewrite strip_idem. Qed.

Lemma agree_in_session (ents : list AuctionTui.rider) (c t : session) :
  agree c t → in_session ents t → in_session (names ents) c.
Proof.
  intros [Hc Hr] [Hi Hl]. unfold in_session.
  rewrite Hc, Hr, length_fmap, length_names. lia.
Qed.

Lemma agree_set_index (c t : session) (i : nat) :
  agree c t → agree (Auction.set_index i c) (Auction.set_index i t).
Proof. intros [_ Hr]. by split. Qed.

Lemma parsed_assigned_at (i : nat) (l p : str) (rs : list result) :
  assigned_at i (Some (strip l), Some (price_of p)) (parsed <$> rs)
  = parsed <$> assigned_at i (Some (strip l), Some (PStr (strip p))) rs.
Proof.
  unfold assigned_at. cbn [fst snd].
  rewrite (list_fmap_alter parsed (set_price (Some (PStr (strip p))))
             (set_price (Some (price_of p)))).
  - f_equal. apply eq_sym, list_fmap_alter. by apply Forall_forall.
  - apply Forall_forall. intros r _. unfold parsed, set_price. cbn.
    by rewrite price_of_strip.
Qed.

Lemma step_agree (ents : list AuctionTui.rider) (c t : session) (a : action) :
  in_session ents t → agree c t → plain a = true →
  outcomes_agree (Auction.step (names ents) c a) (AuctionTui.step ents t a).
Proof.
  intros Ht Hag Hplain.
  pose proof (agree_in_session _ _ _ Hag Ht) as Hc.
  pose proof Hag as [Hi Hr].
  destruct a as [| |l p k|].
  - rewrite cli_move_up, tui_move_up by done. rewrite Hi.
    destruct (0 <? current_index t)%nat; cbn [outcomes_agree];
      [by apply agree_set_index|done].
  - rewrite cli_move_down, tui_move_down by done. rewrite Hi, length_names.
    destruct (current_index t <? length ents - 1)%nat; cbn [outcomes_agree];
      [by apply agree_set_index|done].
  - cbn in Hplain. apply andb_true_iff in Hplain as [Hl Hk].
    apply negb_true_iff in Hl. apply negb_true_iff in Hk.
    assert (nonempty (strip l) = true) as Hne.
    { unfold is_skip in Hl. apply orb_false_iff in Hl as [Hl _].
      by apply negb_false_iff in Hl. }
    rewrite cli_assign, tui_assign by done. cbn zeta.
    rewrite (get_team_and_price_assign l p Hl), Hk, Hi, Hr, length_names.
    rewrite parsed_assigned_at.
    destruct (current_index t <? length ents - 1)%nat; by split.
  - rewrite cli_quit by done. done.
Qed.

Lemma loop_agree (ents : list AuctionTui.rider) (actions : list action) (c t : session) :
  in_session ents t → agree c t → Forall (λ a, plain a = true) actions →
  outcomes_agree (Auction.loop (names ents) c actions) (AuctionTui.loop ents t actions).
Proof.
  intros Ht Hag Hall. revert c t Ht Hag.
  induction Hall as [|a actions Ha Hall IH]; intros c t Ht Hag; cbn; [done|].
  pose proof (step_agree ents c t a Ht Hag Ha) as Hstep.
  destruct (tui_step_in_session ents t a Ht) as (t' & Hs & Ht').
  destruct (Auction.step (names ents) c a) as [c1|c1|],
           (AuctionTui.step ents t a) as [t1|t1|]; cbn in Hstep, Hs; try done.
  simplify_eq. by apply IH.
Qed.

(** C6, as the code has it.  For every entity sequence and every sequence
    of MoveUp, MoveDown, Quit and Assign actions in which no Assign has a
    skip label and none answers the end-of-list prompt with q: whenever
    both front-ends get through the run without an exception of a console
    call, they end alike (both still running or both ended), with the
    same cursor and the same labels, and the values of the line-oriented
    table are the price texts of the widget table parsed (the integer when
    the text parses, 0 when it is empty, the text otherwise, a literal of
    more than 4300 digits included).  When every console call returns,
    both front-ends get through. *)
Theorem front_ends_agree
    (create_progress_bar : nat → nat → str)
    (console_print label_update push_modal : str → bool)
    (ents : list AuctionTui.rider) (actions : list action) :
  1 ≤ length ents →
  Forall (λ a, plain a = true) actions →
  ∃ st0,
    Auction.start (names ents) = Some st0
    ∧ AuctionTui.start ents = Some st0
    ∧ (∀ oc ot,
         AuctionRun.run create_progress_bar console_print (names ents) st0 actions
         = Ran oc →
         AuctionTuiRun.run label_update push_modal ents st0 actions = Ran ot →
         ∃ c t,
           ((oc = Continue c ∧ ot = Continue t) ∨ (oc = Break c ∧ ot = Break t))
           ∧ current_index c = current_index t
           ∧ team <$> results c = team <$> results t
           ∧ results c = parsed <$> results t)
    ∧ ((∀ s, console_print s = true) → (∀ s, label_update s = true) →
       (∀ s, push_modal s = true) →
       ∃ oc ot,
         AuctionRun.run create_progress_bar console_print (names ents) st0 actions
         = Ran oc
         ∧ AuctionTuiRun.run label_update push_modal ents st0 actions = Ran ot).
Proof.
  intros Hlen Hall. destruct (start_session ents Hlen) as (Hc & Ht & H0).
  set (st0 := {| current_index := 0; results := (λ _, unassigned) <$> ents |}) in *.
  assert (agree st0 st0) as Hag.
  { split; [done|]. subst st0. cbn. rewrite <- list_fmap_compose.
    by apply list_fmap_ext. }
  pose proof (loop_agree ents actions st0 st0 H0 Hag Hall) as Hloop.
  exists st0. split; [done|]. split; [done|]. split.
  - intros oc ot Hoc Hot.
    apply cli_run_controller in Hoc; [|by apply in_session_names].
    apply tui_run_controller in Hot; [|done].
    rewrite Hoc, Hot in Hloop.
    destruct oc as [c|c|], ot as [t|t|]; cbn in Hloop; try done;
      destruct Hloop as [Hci Hcr]; exists c, t;
      (split; [first [by left | by right]|]); (split; [done|]); (split; [|done]);
      rewrite Hcr, <- list_fmap_compose; by apply list_fmap_ext.
  - intros Hp Hl Hm. eexists _, _. split.
    + apply cli_run_shown; [done|by apply in_session_names].
    + by apply tui_run_shown.
Qed.

Lemma front_ends_agree_witness :
  let ents := [AuctionTui.RiderDict (lit "A") None; AuctionTui.RiderDict (lit "B") None] in
  let actions := [Assign (lit "TeamA") (lit " 500") KeyOther; MoveUp; Quit] in
  let st0 := {| current_index := 0; results := [unassigned; unassigned] |} in
  let c := {| current_index := 0;
              results := [ {| team := Some (lit "TeamA"); price := Some (PInt 500) |};
                           unassigned ] |} in
  let t := {| current_index := 0;
              results := [ {| team := Some (lit "TeamA"); price := Some (PStr (lit "500")) |};
                           unassigned ] |} in
  1 ≤ length ents ∧ Forall (λ a, plain a = true) actions
  ∧ AuctionRun.run (λ _ _, lit "....") (λ _, true) (names ents) st0 actions
    = Ran (Break c)
  ∧ AuctionTuiRun.run (λ _, true) (λ _, true) ents st0 actions = Ran (Break t)
  ∧ ∃ c' t',
      ((Break c = Continue c' ∧ Break t = Continue t')
       ∨ (Break c = Break c' ∧ Break t = Break t'))
      ∧ current_index c' = current_index t'
      ∧ results c' = parsed <$> results t'.
Proof.
  intros ents actions st0 c t.
  assert (1 ≤ length ents) as Hlen by (cbn; lia).
  assert (Forall (λ a, plain a = true) actions) as Hall
    by (repeat constructor).
  assert (AuctionRun.run (λ _ _, lit "....") (λ _, true) (names ents) st0 actions
          = Ran (Break c)) as Hc by (vm_compute; reflexivity).
  assert (AuctionTuiRun.run (λ _, true) (λ _, true) ents st0 actions
          = Ran (Break t)) as Ht by (vm_compute; reflexivity).
  split; [exact Hlen|]. split; [exact Hall|]. split; [exact Hc|].
  split; [exact Ht|].
  destruct (front_ends_agree (λ _ _, lit "....") (λ _, true) (λ _, true) (λ _, true)
              ents actions Hlen Hall)
    as (st0' & Hs & _ & Hagree & _).
  injection Hs as <-.
  destruct (Hagree (Break c) (Break t) Hc Ht) as (c' & t' & Hends & Hi & _ & Hr).
  exists c', t'. split; [exact Hends|]. split; [exact Hi|exact Hr].
Defined.

(** C6 as stated fails.  On a skip Assign the line-oriented front-end
    moves on to the next entity while the widget front-end stays, so the
    final cursors differ; and on an Assign with a numeric price the
    line-oriented table holds the integer and the widget table the text,
    so the final tables differ. *)
Lemma front_ends_differ_counterexample :
  let ents := [AuctionTui.RiderStr (lit "A"); AuctionTui.RiderStr (lit "B")] in
  let st0 := {| current_index := 0; results := [unassigned; unassigned] |} in
  Auction.start (names ents) = Some st0
  ∧ AuctionTui.start ents = Some st0
  ∧ Auction.loop (names ents) st0 [Assign [] [] KeyOther]
    = Continue {| current_index := 1; results := [unassigned; unassigned] |}
  ∧ AuctionTui.loop ents st0 [Assign [] [] KeyOther]
    = Continue {| current_index := 0; results := [unassigned; unassigned] |}
  ∧ Auction.loop (names ents) st0 [Assign (lit "T") (lit "5") KeyOther]
    = Continue {| current_index := 1;
                  results := [ {| team := Some (lit "T"); price := Some (PInt 5) |};
                               unassigned ] |}
  ∧ AuctionTui.loop ents st0 [Assign (lit "T") (lit "5") KeyOther]
    = Continue {| current_index := 1;
                  results := [ {| team := Some (lit "T"); price := Some (PStr (lit "5")) |};
                               unassigned ] |}.
Proof.
  repeat split; vm_compute; reflexivity.
Qed.

(** ** Universal newlines on the written text *)

Lemma translate_app (b : bool) (x y : str) :
  Io.translate_newlines b (x ++ y)
  = Io.translate_newlines b x ++ Io.translate_newlines (pending_cr b x) y.
Proof.
  revert b. induction x as [|c x IH]; intros b; cbn; [done|].
  case_bool_decide as Hcr; [by rewrite IH|].
  case_bool_decide as Hlf; [destruct b|]; by rewrite IH.
Qed.

Lemma translate_cons_other (b : bool) (c : ascii) (s : str) :
  c ≠ CR → c ≠ LF →
  Io.translate_newlines b (c :: s) = c :: Io.translate_newlines false s.
Proof. intros Hcr Hlf. cbn. by rewrite !bool_decide_false by done. Qed.

Lemma translate_cons_cr (b : bool) (s : str) :
  Io.translate_newlines b (CR :: s) = LF :: Io.translate_newlines true s.
Proof. done. Qed.

Lemma translate_cons_lf (b : bool) (s : str) :
  Io.translate_newlines b (LF :: s)
  = if b then Io.translate_newlines false s
    else LF :: Io.translate_newlines false s.
Proof. done. Qed.

Lemma join_append_data_quote (f : str) :
  Csv.join_append_data (DQUOTE :: f) = DQUOTE :: DQUOTE :: Csv.join_append_data f.
Proof. done. Qed.

Lemma join_append_data_other (c : ascii) (f : str) :
  c ≠ DQUOTE → Csv.join_append_data (c :: f) = c :: Csv.join_append_data f.
Proof. intros Hc. cbn. by rewrite bool_decide_false. Qed.

Lemma translate_join_append_data (b : bool) (f : str) :
  Io.translate_newlines b (Csv.join_append_data f)
  = Csv.join_append_data (Io.translate_newlines b f).
Proof.
  revert b. induction f as [|c f IH]; intros b; [done|].
  destruct (decide (c = DQUOTE)) as [->|Hq].
  { rewrite join_append_data_quote, !translate_cons_other by done.
    by rewrite join_append_data_quote, IH. }
  rewrite join_append_data_other by done.
  destruct (decide (c = CR)) as [->|Hcr].
  { rewrite !translate_cons_cr, join_append_data_other by done. by rewrite IH. }
  destruct (decide (c = LF)) as [->|Hlf].
  { rewrite !translate_cons_lf. destruct b;
      rewrite ?join_append_data_other by done; by rewrite IH. }
  rewrite !translate_cons_other, join_append_data_other by done. by rewrite IH.
Qed.

Lemma length_translate (b : bool) (f : str) :
  length (Io.translate_newlines b f) ≤ length f.
Proof.
  revert b. induction f as [|c f IH]; intros b; cbn; [done|].
  case_bool_decide; [cbn; specialize (IH true); lia|].
  case_bool_decide; [destruct b|]; cbn; specialize (IH false); lia.
Qed.

Lemma translate_unquoted (f : str) :
  existsb Csv.needs_quoting f = false →
  Io.translate_newlines false f = f ∧ pending_cr false f = false.
Proof.
  induction f as [|c f IH]; cbn; [done|].
  intros H. apply orb_false_iff in H as [Hc Hf].
  unfold Csv.needs_quoting in Hc.
  apply orb_false_iff in Hc as [Hc Hlf]. apply orb_false_iff in Hc as [_ Hcr].
  rewrite Hcr, Hlf. destruct (IH Hf) as [-> ->]. done.
Qed.

Lemma translate_no_cr (f : str) : CR ∉ f → Io.translate_newlines false f = f.
Proof.
  induction f as [|c f IH]; cbn; [done|].
  intros H. apply not_elem_of_cons in H as [Hc Hf].
  rewrite bool_decide_false by congruence.
  case_bool_decide; subst; by rewrite IH.
Qed.

(** ** The reader, character by character *)

Lemma stream_cons (r : Csv.reader) (c : ascii) (s : str) :
  stream r (c :: s)
  = r1 ← Csv.parse_process_char r (Csv.Char c);
    if bool_decide (c = LF) then
      r2 ← Csv.parse_process_char r1 Csv.EOL;
      if bool_decide (Csv.state r2 = Csv.START_RECORD)
      then rs ← stream Csv.parse_reset s; Some (Csv.fields r2 :: rs)
      else stream r2 s
    else stream r1 s.
Proof. done. Qed.

Lemma stream_char (r r1 : Csv.reader) (c : ascii) (s : str) :
  c ≠ LF → Csv.parse_process_char r (Csv.Char c) = Some r1 →
  stream r (c :: s) = stream r1 s.
Proof.
  intros Hc Hp. rewrite stream_cons, Hp. cbn [mbind option_bind].
  by rewrite bool_decide_false.
Qed.

Lemma stream_lf_inside (r r1 r2 : Csv.reader) (s : str) :
  Csv.parse_process_char r (Csv.Char LF) = Some r1 →
  Csv.parse_process_char r1 Csv.EOL = Some r2 →
  Csv.state r2 ≠ Csv.START_RECORD →
  stream r (LF :: s) = stream r2 s.
Proof.
  intros H1 H2 Hs. rewrite stream_cons, H1. cbn [mbind option_bind].
  rewrite bool_decide_true, H2 by done. cbn [mbind option_bind].
  by rewrite bool_decide_false.
Qed.

Lemma stream_lf_record (r r1 r2 : Csv.reader) (s : str) :
  Csv.parse_process_char r (Csv.Char LF) = Some r1 →
  Csv.parse_process_char r1 Csv.EOL = Some r2 →
  Csv.state r2 = Csv.START_RECORD →
  stream r (LF :: s) = rs ← stream Csv.parse_reset s; Some (Csv.fields r2 :: rs).
Proof.
  intros H1 H2 Hs. rewrite stream_cons, H1. cbn [mbind option_bind].
  rewrite bool_decide_true, H2 by done. cbn [mbind option_bind].
  by rewrite bool_decide_true.
Qed.

Lemma add_char_fits (st : Csv.parser_state) (fs : Csv.row) (f : str) (c : ascii) (t : str) :
  fits (f ++ c :: t) →
  Csv.parse_add_char (Csv.Reader st fs f) c = Some (Csv.Reader st fs (f ++ [c])).
Proof.
  unfold fits, Csv.parse_add_char. rewrite length_app. cbn [length Csv.field].
  intros H. destruct (Z.ltb_spec (Z.of_nat (length f)) Csv.field_limit); [done|lia].
Qed.

Lemma fits_step (f : str) (c : ascii) (t : str) :
  fits (f ++ c :: t) → fits ((f ++ [c]) ++ t).
Proof. by rewrite <- app_assoc. Qed.

(** Inside quotes, the doubled text of [t] adds [t] to the field. *)
Lemma stream_quoted (t : str) (fs : Csv.row) (f : str) (s : str) :
  fits (f ++ t) →
  stream (Csv.Reader Csv.IN_QUOTED_FIELD fs f) (Csv.join_append_data t ++ s)
  = stream (Csv.Reader Csv.IN_QUOTED_FIELD fs (f ++ t)) s.
Proof.
  revert f. induction t as [|c t IH]; intros f Hfit.
  { by rewrite app_nil_r. }
  pose proof (add_char_fits Csv.IN_QUOTED_FIELD fs f c t Hfit) as Hadd.
  pose proof (fits_step f c t Hfit) as Hfit'.
  rewrite (cons_middle c f t), app_assoc, <- (IH (f ++ [c]) Hfit').
  destruct (decide (c = DQUOTE)) as [->|Hq].
  - rewrite join_append_data_quote. cbn [app].
    rewrite (stream_char _ (Csv.Reader Csv.QUOTE_IN_QUOTED_FIELD fs f)) by done.
    apply stream_char; [done|].
    unfold Csv.parse_process_char. cbn [Csv.state].
    rewrite bool_decide_true by done.
    change (Csv.set_state Csv.IN_QUOTED_FIELD (Csv.Reader Csv.QUOTE_IN_QUOTED_FIELD fs f))
      with (Csv.Reader Csv.IN_QUOTED_FIELD fs f) in *.
    unfold Csv.parse_add_char in *. cbn [Csv.field Csv.state Csv.fields] in *.
    destruct (Z.of_nat (length f) <? Csv.field_limit)%Z; [done|discriminate Hadd].
  - rewrite join_append_data_other by done. cbn [app].
    assert (Csv.parse_process_char (Csv.Reader Csv.IN_QUOTED_FIELD fs f) (Csv.Char c)
            = Some (Csv.Reader Csv.IN_QUOTED_FIELD fs (f ++ [c]))) as Hp.
    { unfold Csv.parse_process_char. cbn [Csv.state].
      by rewrite bool_decide_false by done. }
    destruct (decide (c = LF)) as [->|Hlf].
    + by apply (stream_lf_inside _ _ _ _ Hp).
    + by apply stream_char.
Qed.

Lemma needs_quoting_false (c : ascii) :
  Csv.needs_quoting c = false → c ≠ COMMA ∧ c ≠ DQUOTE ∧ c ≠ CR ∧ c ≠ LF.
Proof.
  unfold Csv.needs_quoting. intros H.
  apply orb_false_iff in H as [H Hlf]. apply orb_false_iff in H as [H Hcr].
  apply orb_false_iff in H as [Hco Hq].
  apply bool_decide_eq_false in Hlf, Hcr, Hco, Hq. done.
Qed.

Lemma in_field_char (fs : Csv.row) (f : str) (c : ascii) (t : str) :
  Csv.needs_quoting c = false → fits (f ++ c :: t) →
  Csv.parse_process_char (Csv.Reader Csv.IN_FIELD fs f) (Csv.Char c)
  = Some (Csv.Reader Csv.IN_FIELD fs (f ++ [c])).
Proof.
  intros Hc Hfit. destruct (needs_quoting_false c Hc) as (Hco & Hq & Hcr & Hlf).
  unfold Csv.parse_process_char, Csv.is_newline. cbn [Csv.state].
  rewrite !bool_decide_false by done. cbn [orb].
  by apply (add_char_fits _ _ _ _ t).
Qed.

Lemma start_field_char (st : Csv.parser_state) (fs : Csv.row) (c : ascii) (t : str) :
  st = Csv.START_FIELD ∨ st = Csv.START_RECORD →
  Csv.needs_quoting c = false → fits (c :: t) →
  Csv.parse_process_char (Csv.Reader st fs []) (Csv.Char c)
  = Some (Csv.Reader Csv.IN_FIELD fs [c]).
Proof.
  intros Hst Hc Hfit. destruct (needs_quoting_false c Hc) as (Hco & Hq & Hcr & Hlf).
  pose proof (add_char_fits Csv.START_FIELD fs [] c t Hfit) as Hadd.
  destruct Hst as [-> | ->];
    unfold Csv.parse_process_char, Csv.start_field, Csv.is_newline;
    cbn [Csv.state]; rewrite !bool_decide_false by done; cbn [orb];
    change (Csv.set_state Csv.START_FIELD (Csv.Reader Csv.START_RECORD fs []))
      with (Csv.Reader Csv.START_FIELD fs []);
    by rewrite Hadd.
Qed.

(** Outside quotes, text without special characters adds itself to the
    field. *)
Lemma stream_unquoted (t : str) (fs : Csv.row) (f : str) (s : str) :
  existsb Csv.needs_quoting t = false → fits (f ++ t) →
  stream (Csv.Reader Csv.IN_FIELD fs f) (t ++ s)
  = stream (Csv.Reader Csv.IN_FIELD fs (f ++ t)) s.
Proof.
  revert f. induction t as [|c t IH]; intros f Hplain Hfit.
  { by rewrite app_nil_r. }
  cbn [existsb] in Hplain. apply orb_false_iff in Hplain as [Hc Ht].
  rewrite (cons_middle c f t), app_assoc, <- (IH (f ++ [c]) Ht (fits_step _ _ _ Hfit)).
  cbn [app]. apply stream_char; [by apply needs_quoting_false|].
  by apply (in_field_char _ _ _ t).
Qed.

Lemma start_quote (st : Csv.parser_state) (fs : Csv.row) :
  st = Csv.START_FIELD ∨ st = Csv.START_RECORD →
  Csv.parse_process_char (Csv.Reader st fs []) (Csv.Char DQUOTE)
  = Some (Csv.Reader Csv.IN_QUOTED_FIELD fs []).
Proof. by intros [-> | ->]. Qed.

Lemma start_comma (st : Csv.parser_state) (fs : Csv.row) :
  st = Csv.START_FIELD ∨ st = Csv.START_RECORD →
  Csv.parse_process_char (Csv.Reader st fs []) (Csv.Char COMMA)
  = Some (Csv.Reader Csv.START_FIELD (fs ++ [[]]) []).
Proof. by intros [-> | ->]. Qed.

(** A field and the delimiter after it. *)
Lemma stream_field_comma (quoted : bool) (f : str) (st : Csv.parser_state)
    (fs : Csv.row) (s : str) :
  st = Csv.START_FIELD ∨ st = Csv.START_RECORD →
  (quoted = false → existsb Csv.needs_quoting f = false) →
  fits f →
  stream (Csv.Reader st fs []) (field_text quoted f ++ COMMA :: s)
  = stream (Csv.Reader Csv.START_FIELD (fs ++ [f]) []) s.
Proof.
  intros Hst Hplain Hfit. destruct quoted; unfold field_text.
  - cbn [app]. rewrite <- app_assoc.
    rewrite (stream_char _ _ DQUOTE _ ltac:(done) (start_quote st fs Hst)).
    rewrite stream_quoted by exact Hfit. cbn [app].
    rewrite (stream_char _ (Csv.Reader Csv.QUOTE_IN_QUOTED_FIELD fs f)) by done.
    by apply stream_char.
  - specialize (Hplain eq_refl). destruct f as [|c t].
    + cbn [app]. apply stream_char; [done|]. by apply start_comma.
    + cbn [existsb] in Hplain. apply orb_false_iff in Hplain as [Hc Ht].
      cbn [app].
      rewrite (stream_char _ _ _ _ (proj2 (proj2 (proj2 (needs_quoting_false c Hc))))
                 (start_field_char st fs c t Hst Hc Hfit)).
      rewrite (stream_unquoted t fs [c]) by done.
      by apply stream_char.
Qed.

(** The last field of a record and the line end after it. *)
Lemma stream_field_lf (quoted : bool) (f : str) (st : Csv.parser_state)
    (fs : Csv.row) (s : str) :
  st = Csv.START_FIELD ∨ st = Csv.START_RECORD →
  (quoted = false → existsb Csv.needs_quoting f = false) →
  (quoted = false → f = [] → st = Csv.START_FIELD) →
  fits f →
  stream (Csv.Reader st fs []) (field_text quoted f ++ LF :: s)
  = rs ← stream Csv.parse_reset s; Some ((fs ++ [f]) :: rs).
Proof.
  intros Hst Hplain Hempty Hfit. destruct quoted; unfold field_text.
  - cbn [app]. rewrite <- app_assoc.
    rewrite (stream_char _ _ DQUOTE _ ltac:(done) (start_quote st fs Hst)).
    rewrite stream_quoted by exact Hfit. cbn [app].
    rewrite (stream_char _ (Csv.Reader Csv.QUOTE_IN_QUOTED_FIELD fs f)) by done.
    by apply (stream_lf_record _ (Csv.Reader Csv.EAT_CRNL (fs ++ [f]) [])
                (Csv.Reader Csv.START_RECORD (fs ++ [f]) [])).
  - specialize (Hplain eq_refl). destruct f as [|c t].
    + rewrite (Hempty eq_refl eq_refl). cbn [app].
      by apply (stream_lf_record _ (Csv.Reader Csv.EAT_CRNL (fs ++ [[]]) [])
                  (Csv.Reader Csv.START_RECORD (fs ++ [[]]) [])).
    + cbn [existsb] in Hplain. apply orb_false_iff in Hplain as [Hc Ht].
      cbn [app].
      rewrite (stream_char _ _ _ _ (proj2 (proj2 (proj2 (needs_quoting_false c Hc))))
                 (start_field_char st fs c t Hst Hc Hfit)).
      rewrite (stream_unquoted t fs [c]) by done.
      by apply (stream_lf_record _ (Csv.Reader Csv.EAT_CRNL (fs ++ [c :: t]) [])
                  (Csv.Reader Csv.START_RECORD (fs ++ [c :: t]) [])).
Qed.

(** ** A written record, read back *)

Lemma translate_crlf (b : bool) : Io.translate_newlines b [CR; LF] = [LF].
Proof. done. Qed.

Lemma fits_translate (f : str) : fits f → fits (tr f).
Proof.
  unfold fits. pose proof (length_translate false f). lia.
Qed.

(** What the reader gets for one written field. *)
Lemma translate_join_append (f : str) (rest : str) :
  tr (Csv.join_append f ++ rest)
  = field_text (existsb Csv.needs_quoting f) (tr f) ++ tr rest.
Proof.
  unfold Csv.join_append, field_text.
  destruct (existsb Csv.needs_quoting f) eqn:Hq.
  - change (DQUOTE :: Csv.join_append_data f ++ [DQUOTE])
      with ([DQUOTE] ++ Csv.join_append_data f ++ [DQUOTE]).
    rewrite <- !app_assoc.
    rewrite (translate_app false [DQUOTE]).
    rewrite (translate_app _ (Csv.join_append_data f)).
    rewrite translate_join_append_data.
    change (pending_cr false [DQUOTE]) with false. cbn [app].
    rewrite !(translate_cons_other _ DQUOTE) by done.
    cbn [Io.translate_newlines app]. by rewrite <- app_assoc.
  - destruct (translate_unquoted f Hq) as [Hf Hp].
    by rewrite translate_app, Hf, Hp.
Qed.

Lemma unquoted_translate (f : str) :
  existsb Csv.needs_quoting f = false → tr f = f.
Proof. intros H. by destruct (translate_unquoted f H). Qed.

Lemma stream_join_fields (row : Csv.row) (st : Csv.parser_state) (fs : Csv.row) (s : str) :
  row ≠ [] →
  st = Csv.START_FIELD ∨ st = Csv.START_RECORD →
  (row = [[]] → st = Csv.START_FIELD) →
  Forall fits row →
  stream (Csv.Reader st fs []) (tr (Csv.join_fields row ++ [CR; LF]) ++ s)
  = rs ← stream Csv.parse_reset s; Some ((fs ++ (tr <$> row)) :: rs).
Proof.
  intros Hne Hst Hsingle Hfit. revert st fs Hst Hsingle.
  induction Hfit as [|f row Hf Hfit IH]; intros st fs Hst Hsingle; [done|].
  destruct row as [|g row].
  - cbn [Csv.join_fields]. rewrite translate_join_append, translate_crlf.
    rewrite <- app_assoc. cbn [app fmap list_fmap].
    apply stream_field_lf; [done| | |by apply fits_translate].
    + intros Hq. by rewrite (unquoted_translate f Hq).
    + intros Hq Hf0. apply Hsingle.
      by rewrite <- (unquoted_translate f Hq), Hf0.
  - change (Csv.join_fields (f :: g :: row))
      with (Csv.join_append f ++ COMMA :: Csv.join_fields (g :: row)).
    rewrite <- app_assoc, translate_join_append.
    rewrite <- app_comm_cons, (translate_cons_other _ COMMA) by done.
    rewrite <- app_assoc, <- app_comm_cons.
    rewrite stream_field_comma; [|done| |by apply fits_translate].
    + rewrite (IH ltac:(done) Csv.START_FIELD (fs ++ [tr f])) by tauto.
      by rewrite <- app_assoc.
    + intros Hq. by rewrite (unquoted_translate f Hq).
Qed.

Lemma writerow_ends (row : Csv.row) : ∃ y, Csv.writerow row = y ++ [CR; LF].
Proof.
  destruct row as [|[|c f] [|g row]];
    first [by exists [DQUOTE; DQUOTE] | by eexists].
Qed.

Lemma pending_cr_app (b : bool) (x y : str) :
  pending_cr b (x ++ y) = pending_cr (pending_cr b x) y.
Proof. revert b. induction x as [|c x IH]; intros b; cbn; [done|apply IH]. Qed.

Lemma translate_writerow_app (row : Csv.row) (rest : str) :
  tr (Csv.writerow row ++ rest) = tr (Csv.writerow row) ++ tr rest.
Proof.
  destruct (writerow_ends row) as [y ->].
  by rewrite translate_app, pending_cr_app.
Qed.

Lemma stream_writerow (row : Csv.row) (s : str) :
  Forall fits row →
  stream Csv.parse_reset (tr (Csv.writerow row) ++ s)
  = rs ← stream Csv.parse_reset s; Some ((tr <$> row) :: rs).
Proof.
  intros Hfit.
  destruct (decide (row = [])) as [->|Hne].
  { by apply (stream_lf_record _ (Csv.Reader Csv.EAT_CRNL [] [])
                (Csv.Reader Csv.START_RECORD [] [])). }
  destruct (decide (row = [[]])) as [->|Hsingle].
  { by apply (stream_field_lf true [] Csv.START_RECORD []); [right|..]. }
  assert (Csv.writerow row = Csv.join_fields row ++ [CR; LF]) as ->.
  { by destruct row as [|[|c f] [|g row]]. }
  by apply (stream_join_fields row Csv.START_RECORD []); [|right|..].
Qed.

Lemma stream_writerows (rows : list Csv.row) :
  Forall (Forall fits) rows →
  stream Csv.parse_reset (tr (Csv.writerows rows)) = Some ((λ row : Csv.row, tr <$> row) <$> rows).
Proof.
  induction 1 as [|row rows Hrow Hrows IH]; [done|].
  unfold Csv.writerows in *. cbn [map concat].
  rewrite translate_writerow_app, stream_writerow, IH by done. done.
Qed.

(** ** Lines and stream *)

Lemma parse_chars_app (r : Csv.reader) (a b : str) :
  Csv.parse_chars r (a ++ b) = r' ← Csv.parse_chars r a; Csv.parse_chars r' b.
Proof.
  revert r. induction a as [|c a IH]; intros r; cbn; [done|].
  destruct (Csv.parse_process_char r (Csv.Char c)); cbn; [apply IH|done].
Qed.

Lemma parse_chars_snoc (r0 r : Csv.reader) (cur : str) (c : ascii) :
  Csv.parse_chars r0 cur = Some r →
  Csv.parse_chars r0 (cur ++ [c]) = Csv.parse_process_char r (Csv.Char c).
Proof.
  intros H. rewrite parse_chars_app, H. cbn.
  by destruct (Csv.parse_process_char r (Csv.Char c)).
Qed.

Lemma split_lines_cons (cur : str) (c : ascii) (s : str) :
  Io.split_lines cur (c :: s)
  = if bool_decide (c = LF) then (cur ++ [c]) :: Io.split_lines [] s
    else Io.split_lines (cur ++ [c]) s.
Proof. done. Qed.

Lemma read_records_cons (r : Csv.reader) (line : str) (rest : list str) :
  Csv.read_records r (line :: rest)
  = r' ← Csv.parse_line r line;
    if bool_decide (Csv.state r' = Csv.START_RECORD)
    then rs ← Csv.read_records Csv.parse_reset rest; Some (Csv.fields r' :: rs)
    else Csv.read_records r' rest.
Proof. done. Qed.

(** A line the parser fails on makes the reader fail. *)
Lemma read_records_fail (s : str) (r0 : Csv.reader) (cur : str) :
  Csv.parse_chars r0 cur = None →
  terminated true s = true →
  Csv.read_records r0 (Io.split_lines cur s) = None.
Proof.
  revert cur. induction s as [|c s IH]; intros cur Hfail Hterm; [done|].
  assert (Csv.parse_chars r0 (cur ++ [c]) = None) as Hfail'
    by by rewrite parse_chars_app, Hfail.
  rewrite split_lines_cons. cbn [terminated] in Hterm.
  case_bool_decide as Hc.
  - rewrite read_records_cons. unfold Csv.parse_line. by rewrite Hfail'.
  - by apply IH.
Qed.

(** Reading line by line is reading the stream, for a text that ends at
    a line end. *)
Lemma read_records_stream (s : str) (r0 r : Csv.reader) (cur : str) :
  Csv.parse_chars r0 cur = Some r →
  terminated (nonempty cur) s = true →
  Csv.read_records r0 (Io.split_lines cur s) = stream r s.
Proof.
  revert r0 r cur. induction s as [|c s IH]; intros r0 r cur Hcur Hterm.
  { destruct cur; [|done]. cbn in Hcur. by injection Hcur as ->. }
  rewrite split_lines_cons, stream_cons. cbn [terminated] in Hterm.
  pose proof (parse_chars_snoc r0 r cur c Hcur) as Hsnoc.
  case_bool_decide as Hc.
  - rewrite read_records_cons. unfold Csv.parse_line. rewrite Hsnoc.
    destruct (Csv.parse_process_char r (Csv.Char c)) as [r1|]; [|done].
    cbn [mbind option_bind].
    destruct (Csv.parse_process_char r1 Csv.EOL) as [r2|]; [|done].
    cbn [mbind option_bind].
    case_bool_decide; [by rewrite (IH Csv.parse_reset Csv.parse_reset [])|].
    by apply (IH r2 r2 []).
  - destruct (Csv.parse_process_char r (Csv.Char c)) as [r1|] eqn:Hp;
      cbn [mbind option_bind].
    + apply IH; [by rewrite Hsnoc|]. by destruct cur.
    + apply read_records_fail; [by rewrite Hsnoc|done].
Qed.

Lemma terminated_app (b : bool) (x y : str) :
  terminated false y = true → terminated b (x ++ [LF] ++ y) = true.
Proof.
  intros Hy. revert b. induction x as [|c x IH]; intros b; cbn; [done|apply IH].
Qed.

Lemma terminated_writerows (rows : list Csv.row) :
  terminated false (tr (Csv.writerows rows)) = true.
Proof.
  induction rows as [|row rows IH]; [done|].
  unfold Csv.writerows in *. cbn [map concat].
  rewrite translate_writerow_app.
  destruct (writerow_ends row) as [y ->].
  rewrite translate_app, translate_crlf, <- app_assoc.
  by apply terminated_app.
Qed.

(** The records written by [csv.writer] into a file are the records
    [csv.reader] reads from it in text mode, each field with its line
    ends normalised by the text mode. *)
Theorem csv_round_trip (rows : list Csv.row) :
  Forall (Forall fits) rows →
  Csv.reader_rows (Io.text_lines (Csv.writerows rows)) = Some ((λ row : Csv.row, tr <$> row) <$> rows).
Proof.
  intros Hfit. unfold Csv.reader_rows, Io.text_lines.
  rewrite (read_records_stream _ Csv.parse_reset Csv.parse_reset []);
    [by apply stream_writerows|done|apply terminated_writerows].
Qed.

(** ** Re-reading the exported file with the CSV loader *)

Lemma first_column_data_rows (riders : list str) (results : list result) :
  length results = length riders →
  Forall entity_name riders →
  Auction.first_column
    ((λ row : Csv.row, tr <$> row) <$> zip_with data_row riders results)
  = riders.
Proof.
  intros Hlen Hnames. revert results Hlen.
  induction Hnames as [|n riders (Hstrip & Hne & Hcr) Hnames IH];
    intros [|r results] Hlen; try done.
  cbn [zip_with fmap list_fmap data_row Auction.first_column].
  rewrite (translate_no_cr n Hcr), Hstrip.
  destruct n as [|c n]; [done|]. cbn [nonempty].
  f_equal. apply IH. by injection Hlen.
Qed.

(** C4, as the code has it.  For every session, fully assigned or not,
    whose entity names are trimmed, non-empty and free of carriage
    returns, and whose fields pass the reader's field size limit, the file
    written by [save_results] and read again by the CSV loader yields the
    header's first field, Corridore, followed by the entity names in the
    same order. *)
Theorem reread_export (riders : list str) (results : list result)
    (output_file : str) (fs : files) :
  length results = length riders →
  Forall entity_name riders →
  Forall (Forall fits) (zip_with data_row riders results) →
  ∃ fs', Auction.save_results results riders output_file fs = Some fs'
         ∧ Auction.read_riders_from_csv output_file fs'
           = Some (lit "Corridore" :: riders).
Proof.
  intros Hlen Hnames Hfit.
  unfold Auction.save_results. rewrite cli_export_text by done.
  eexists. split; [reflexivity|].
  unfold Auction.read_riders_from_csv. rewrite lookup_insert_eq.
  cbn [mbind option_bind].
  rewrite csv_round_trip.
  - cbn [mbind option_bind]. f_equal.
    change ((λ row : Csv.row, tr <$> row) <$> header :: zip_with data_row riders results)
      with ((tr <$> header)
            :: ((λ row : Csv.row, tr <$> row) <$> zip_with data_row riders results)).
    change (Auction.first_column ((tr <$> header) :: ?rest))
      with (lit "Corridore" :: Auction.first_column rest).
    f_equal. by apply first_column_data_rows.
  - constructor; [|done]. repeat constructor; by vm_compute.
Qed.

Lemma reread_export_witness :
  let riders := [lit "Tadej POGACAR"; lit "Jonas VINGEGAARD"] in
  let results := [ {| team := Some (lit "TeamA"); price := Some (PInt 500) |};
                   {| team := Some (lit "Team, B"); price := Some (PStr (lit "abc")) |} ] in
  length results = length riders
  ∧ Forall entity_name riders
  ∧ Forall (Forall fits) (zip_with data_row riders results)
  ∧ ∃ fs', Auction.save_results results riders (lit "out.csv") ∅ = Some fs'
           ∧ Auction.read_riders_from_csv (lit "out.csv") fs'
             = Some [lit "Corridore"; lit "Tadej POGACAR"; lit "Jonas VINGEGAARD"].
Proof.
  intros riders results.
  assert (Forall entity_name riders) as Hnames.
  { repeat constructor; try discriminate;
      intros Hin; repeat (apply elem_of_cons in Hin as [Hin|Hin]; [discriminate Hin|]);
      by apply elem_of_nil in Hin. }
  assert (Forall (Forall fits) (zip_with data_row riders results)) as Hfit.
  { repeat constructor; by vm_compute. }
  split; [reflexivity|]. split; [exact Hnames|]. split; [exact Hfit|].
  exact (reread_export riders results (lit "out.csv") ∅ eq_refl Hnames Hfit).
Defined.

(** C4 as stated fails: the loader does not skip the header record, so a
    fully assigned session of one entity is read back as two names. *)
Lemma reread_header_counterexample :
  let riders := [lit "Tadej POGACAR"] in
  let results := [ {| team := Some (lit "TeamA"); price := Some (PInt 500) |} ] in
  ∃ fs', Auction.save_results results riders (lit "out.csv") ∅ = Some fs'
         ∧ Auction.read_riders_from_csv (lit "out.csv") fs'
           = Some [lit "Corridore"; lit "Tadej POGACAR"]
         ∧ Auction.read_riders_from_csv (lit "out.csv") fs' ≠ Some riders.
Proof.
  eexists. split; [vm_compute; reflexivity|].
  split; [vm_compute; reflexivity|]. vm_compute. discriminate.
Qed.

(* ================================================================== *)
(** * Further properties of the two programs *)
(* ================================================================== *)

(** ** What an action changes *)

Lemma assigned_at_replace (i : nat) (tp : option str * option pyval) (l : list result) :
  assigned_at i tp l = alter (λ _, {| team := tp.1; price := tp.2 |}) i l.
Proof.
  unfold assigned_at. rewrite list_alter_alter_eq. by apply list_alter_ext.
Qed.

Lemma assigned_at_frame (i j : nat) (tp : option str * option pyval) (l : list result) :
  j ≠ i → assigned_at i tp l !! j = l !! j.
Proof.
  intros Hne. unfold assigned_at. by rewrite !list_lookup_alter_ne.
Qed.

Lemma length_assigned_at (i : nat) (tp : option str * option pyval) (l : list result) :
  length (assigned_at i tp l) = length l.
Proof. apply length_assign. Qed.

Lemma cli_step_frame (riders : list str) (st : session) (a : action) :
  in_session riders st →
  ∃ c, state_of (Auction.step riders st a) = Some c
       ∧ length (results c) = length (results st)
       ∧ (∀ j, j ≠ current_index st → results c !! j = results st !! j)
       ∧ (is_assign a = false → results c = results st).
Proof.
  intros H. destruct a as [| |l p k|].
  - rewrite cli_move_up by done. eexists. split; [done|].
    by destruct (0 <? current_index st)%nat.
  - rewrite cli_move_down by done. eexists. split; [done|].
    by destruct (current_index st <? length riders - 1)%nat.
  - rewrite cli_assign by done. cbn zeta.
    destruct (current_index st <? length riders - 1)%nat;
      [|destruct (bool_decide _)];
      (eexists; split; [done|]); cbn;
      (split; [apply length_assigned_at|]);
      (split; [intros j Hj; by apply assigned_at_frame|done]).
  - rewrite cli_quit by done. by eexists.
Qed.

Lemma tui_step_frame (ents : list AuctionTui.rider) (st : session) (a : action) :
  in_session ents st →
  ∃ c, state_of (AuctionTui.step ents st a) = Some c
       ∧ length (results c) = length (results st)
       ∧ (∀ j, j ≠ current_index st → results c !! j = results st !! j)
       ∧ (is_assign a = false → results c = results st).
Proof.
  intros H. destruct a as [| |l p k|].
  - rewrite tui_move_up by done. eexists. split; [done|].
    by destruct (0 <? current_index st)%nat.
  - rewrite tui_move_down by done. eexists. split; [done|].
    by destruct (current_index st <? length ents - 1)%nat.
  - destruct (nonempty (strip l)) eqn:Hne.
    + rewrite tui_assign by done. cbn zeta. eexists. split; [done|].
      destruct (current_index st <? length ents - 1)%nat; cbn;
        (split; [apply length_assigned_at|]);
        (split; [intros j Hj; by apply assigned_at_frame|done]).
    + rewrite tui_assign_empty by done. by eexists.
  - by eexists.
Qed.

(** X1.  In both front-ends an action performed in a session, when it
    gets through its console calls, raises no IndexError, keeps the number
    of entries, and changes no entry other than the one at the cursor;
    MoveUp, MoveDown and Quit change no entry at all.  When every console
    call returns, the action gets through. *)
Theorem action_changes_cursor_entry_only
    (create_progress_bar : nat → nat → str)
    (console_print label_update push_modal : str → bool)
    (ents : list AuctionTui.rider) (st : session) (a : action) :
  in_session ents st →
  (∀ o,
     AuctionRun.step create_progress_bar console_print (names ents) st a = Ran o →
     ∃ c, state_of o = Some c
          ∧ length (results c) = length (results st)
          ∧ (∀ j, j ≠ current_index st → results c !! j = results st !! j)
          ∧ (is_assign a = false → results c = results st))
  ∧ (∀ o,
       AuctionTuiRun.step label_update push_modal ents st a = Ran o →
       ∃ t, state_of o = Some t
            ∧ length (results t) = length (results st)
            ∧ (∀ j, j ≠ current_index st → results t !! j = results st !! j)
            ∧ (is_assign a = false → results t = results st))
  ∧ ((∀ s, console_print s = true) →
     ∃ o, AuctionRun.step create_progress_bar console_print (names ents) st a = Ran o)
  ∧ ((∀ s, label_update s = true) → (∀ s, push_modal s = true) →
     ∃ o, AuctionTuiRun.step label_update push_modal ents st a = Ran o).
Proof.
  intros H. split; [|split; [|split]].
  - intros o Ho. apply cli_step_controller in Ho. subst o.
    by apply cli_step_frame, in_session_names.
  - intros o Ho. apply tui_step_controller in Ho. subst o.
    by apply tui_step_frame.
  - intros Hp. eexists. by apply cli_step_shown.
  - intros Hl Hm. eexists. by apply tui_step_shown.
Qed.

Lemma action_changes_cursor_entry_only_witness :
  let ents := [AuctionTui.RiderDict (lit "A") None; AuctionTui.RiderDict (lit "B") None] in
  let kept := {| team := Some (lit "T"); price := Some (PInt 7) |} in
  let st := {| current_index := 1; results := [kept; unassigned] |} in
  let o := Continue {| current_index := 1;
                       results := [kept; {| team := Some (lit "U");
                                             price := Some (PInt 3) |}] |} in
  in_session ents st
  ∧ AuctionRun.step (λ _ _, lit "....") (λ _, true) (names ents) st
      (Assign (lit "U") (lit "3") KeyOther) = Ran o
  ∧ ∃ c, state_of o = Some c ∧ results c !! 0 = Some kept.
Proof.
  intros ents kept st o.
  assert (in_session ents st) as H by (split; cbn; lia).
  assert (AuctionRun.step (λ _ _, lit "....") (λ _, true) (names ents) st
            (Assign (lit "U") (lit "3") KeyOther) = Ran o) as Hrun
    by (vm_compute; reflexivity).
  split; [exact H|]. split; [exact Hrun|].
  destruct (action_changes_cursor_entry_only (λ _ _, lit "....") (λ _, true)
              (λ _, true) (λ _, true) ents st
              (Assign (lit "U") (lit "3") KeyOther) H)
    as [Hcli _].
  destruct (Hcli o Hrun) as (c & Hc & _ & Hframe & _).
  exists c. split; [exact Hc|].
  rewrite (Hframe 0); [reflexivity|cbn; lia].
Defined.

(** ** An Assign does not look at what the entry held *)

Lemma assigned_at_overwrites (i : nat) (tp : option str * option pyval)
    (l1 l2 : list result) :
  length l1 = length l2 →
  (∀ j, j ≠ i → l1 !! j = l2 !! j) →
  assigned_at i tp l1 = assigned_at i tp l2.
Proof.
  intros Hlen Hoff. apply list_eq. intros j.
  destruct (decide (j = i)) as [->|Hne].
  - unfold assigned_at. rewrite !list_lookup_alter_eq.
    destruct (l1 !! i) as [r1|] eqn:H1, (l2 !! i) as [r2|] eqn:H2; try done.
    + apply lookup_lt_Some in H1. apply lookup_ge_None in H2. lia.
    + apply lookup_lt_Some in H2. apply lookup_ge_None in H1. lia.
  - by rewrite !assigned_at_frame, Hoff.
Qed.

(** X2.  In both front-ends the outcome of an Assign (in the widget
    front-end: one with a non-blank label) does not depend on what the
    entry at the cursor held before: two sessions that differ at most in
    that entry are the same session afterwards. *)
Theorem assign_overwrites
    (ents : list AuctionTui.rider) (st1 st2 : session) (l p : str) (k : key) :
  in_session ents st1 →
  current_index st2 = current_index st1 →
  length (results st2) = length (results st1) →
  (∀ j, j ≠ current_index st1 → results st1 !! j = results st2 !! j) →
  Auction.step (names ents) st1 (Assign l p k)
  = Auction.step (names ents) st2 (Assign l p k)
  ∧ (nonempty (strip l) = true →
     AuctionTui.step ents st1 (Assign l p k) = AuctionTui.step ents st2 (Assign l p k)).
Proof.
  intros H1 Hi Hlen Hoff.
  assert (in_session ents st2) as H2.
  { destruct H1 as [Hc Hl]. split; [by rewrite Hi|by rewrite Hlen]. }
  split.
  - rewrite !cli_assign by by apply in_session_names. cbn zeta.
    rewrite Hi, (assigned_at_overwrites _ _ (results st1) (results st2)); done.
  - intros Hne. rewrite !tui_assign by done. cbn zeta.
    rewrite Hi, (assigned_at_overwrites _ _ (results st1) (results st2)); done.
Qed.

Lemma assign_overwrites_witness :
  let ents := [AuctionTui.RiderStr (lit "A"); AuctionTui.RiderStr (lit "B")] in
  let st1 := {| current_index := 0; results := [unassigned; unassigned] |} in
  let st2 := {| current_index := 0;
                results := [ {| team := Some (lit "Old"); price := Some (PInt 9) |};
                             unassigned ] |} in
  in_session ents st1
  ∧ Auction.step (names ents) st1 (Assign (lit "New") (lit "1") KeyOther)
    = Auction.step (names ents) st2 (Assign (lit "New") (lit "1") KeyOther).
Proof.
  intros ents st1 st2.
  assert (in_session ents st1) as H by (split; cbn; lia).
  split; [exact H|].
  refine (proj1 (assign_overwrites ents st1 st2 (lit "New") (lit "1") KeyOther
                   H eq_refl eq_refl _)).
  intros [|[|j]] Hj; [cbn in Hj; lia|reflexivity|reflexivity].
Defined.

(** ** What the tables hold *)

Lemma is_skip_strip (l : str) : is_skip (strip l) = is_skip l.
Proof. unfold is_skip. by rewrite strip_idem. Qed.

Lemma cli_value_price_of (p : str) : cli_value (price_of p).
Proof.
  unfold price_of. destruct (int (strip p)) eqn:Hint;
    [by eapply int_magnitude|].
  destruct (strip p) as [|c s] eqn:Hp; [by apply Z.pow_pos_nonneg|].
  cbn [nonempty cli_value]. split; [done|].
  split; [by rewrite <- Hp, strip_idem|done].
Qed.

Lemma get_team_and_price_entry (l p : str) :
  cli_entry {| team := (Auction.get_team_and_price l p).1;
               price := (Auction.get_team_and_price l p).2 |}.
Proof.
  destruct (is_skip l) eqn:Hskip.
  - rewrite get_team_and_price_skip by done. by left.
  - rewrite get_team_and_price_assign by done. right.
    exists (strip l), (price_of p). split; [done|]. split; [apply strip_idem|].
    split; [by rewrite is_skip_strip|apply cli_value_price_of].
Qed.

Lemma Forall_assigned_at (P : result → Prop) (i : nat)
    (tp : option str * option pyval) (l : list result) :
  Forall P l → P {| team := tp.1; price := tp.2 |} → Forall P (assigned_at i tp l).
Proof.
  intros Hl Hp. rewrite assigned_at_replace. by apply Forall_alter.
Qed.

Lemma cli_step_entries (riders : list str) (st : session) (a : action) :
  in_session riders st → Forall cli_entry (results st) →
  ∃ c, state_of (Auction.step riders st a) = Some c ∧ Forall cli_entry (results c).
Proof.
  intros H Hall. destruct (cli_step_frame riders st a H) as (c & Hc & _ & _ & Hsame).
  exists c. split; [done|]. destruct a as [| |l p k|];
    try (by rewrite Hsame).
  clear Hsame. rewrite cli_assign in Hc by done. cbn zeta in Hc.
  assert (Forall cli_entry
            (assigned_at (current_index st) (Auction.get_team_and_price l p) (results st)))
    as Hnew by (apply Forall_assigned_at; [done|apply get_team_and_price_entry]).
  destruct (current_index st <? length riders - 1)%nat;
    [|destruct (bool_decide _)]; cbn in Hc; by simplify_eq.
Qed.

Lemma cli_loop_entries (riders : list str) (actions : list action) (st : session) :
  in_session riders st → Forall cli_entry (results st) →
  ∃ c, state_of (Auction.loop riders st actions) = Some c
       ∧ in_session riders c ∧ Forall cli_entry (results c).
Proof.
  revert st. induction actions as [|a actions IH]; intros st H Hall; cbn.
  - by exists st.
  - destruct (cli_step_in_session riders st a H) as (st' & Hs & H').
    destruct (cli_step_entries riders st a H Hall) as (st'' & Hs' & Hall').
    rewrite Hs in Hs'. injection Hs' as <-.
    destruct (Auction.step riders st a) as [st1|st1|]; cbn in Hs; simplify_eq.
    + by apply IH.
    + by exists st'.
Qed.

Lemma cli_start (riders : list str) (st0 : session) :
  Auction.start riders = Some st0 →
  in_session riders st0 ∧ Forall (λ r, r = unassigned) (results st0).
Proof.
  unfold Auction.start. destruct (Nat.eqb_spec (length riders) 0); [done|].
  intros [= <-]. split; [split; cbn; [lia|apply length_map]|].
  cbn. clear. induction riders; cbn; by constructor.
Qed.

Lemma tui_start (ents : list AuctionTui.rider) (st0 : session) :
  AuctionTui.start ents = Some st0 →
  in_session ents st0 ∧ Forall (λ r, r = unassigned) (results st0).
Proof.
  unfold AuctionTui.start. destruct (Nat.eqb_spec (length ents) 0); [done|].
  intros [= <-]. split; [split; cbn; [lia|apply length_map]|].
  cbn. clear. induction ents; cbn; by constructor.
Qed.

Lemma cli_entry_both_or_none (r : result) :
  cli_entry r → (team r = None ↔ price r = None) ∧ team r ≠ Some [].
Proof.
  intros [->|(t & v & -> & Ht & Hskip & _)]; [done|].
  cbn. split; [done|]. intros [= ->]. done.
Qed.

(** X3.  In the line-oriented front-end, whatever the operator does
    from the start of a session, every entry of the table is either fully
    unassigned, or holds a trimmed, non-empty label that is no skip word
    together with a value that is an integer of at most 4300 digits or a
    trimmed, non-empty text that [int()] does not accept (a literal of more
    than 4300 digits is such a text); so a label is absent exactly when
    the value is, and a stored label is never the empty text. *)
Theorem cli_table_invariant (riders : list str) (st0 : session) (actions : list action) :
  Auction.start riders = Some st0 →
  ∃ st, state_of (Auction.loop riders st0 actions) = Some st
        ∧ Forall cli_entry (results st)
        ∧ ∀ r, r ∈ results st →
            (team r = None ↔ price r = None) ∧ team r ≠ Some [].
Proof.
  intros Hstart. destruct (cli_start riders st0 Hstart) as [H0 Hun].
  destruct (cli_loop_entries riders actions st0 H0) as (st & Hs & _ & Hall).
  { eapply Forall_impl; [exact Hun|]. intros r ->. by left. }
  exists st. split; [done|]. split; [done|].
  intros r Hr. apply cli_entry_both_or_none.
  by eapply (proj1 (Forall_forall _ _) Hall).
Qed.

Lemma cli_table_invariant_witness :
  let riders := [lit "A"; lit "B"] in
  let st0 := {| current_index := 0; results := [unassigned; unassigned] |} in
  Auction.start riders = Some st0
  ∧ ∃ st, state_of (Auction.loop riders st0
                      [Assign (lit " T ") (lit "x1") KeyOther; Assign (lit "skip") [] KeyOther])
          = Some st
          ∧ Forall cli_entry (results st).
Proof.
  intros riders st0. split; [reflexivity|].
  destruct (cli_table_invariant riders st0
              [Assign (lit " T ") (lit "x1") KeyOther; Assign (lit "skip") [] KeyOther]
              eq_refl) as (st & Hs & Hall & _).
  exists st. split; [exact Hs|exact Hall].
Defined.

Lemma tui_step_entries (ents : list AuctionTui.rider) (st : session) (a : action) :
  in_session ents st → Forall tui_entry (results st) →
  ∃ c, state_of (AuctionTui.step ents st a) = Some c ∧ Forall tui_entry (results c).
Proof.
  intros H Hall. destruct (tui_step_frame ents st a H) as (c & Hc & _ & _ & Hsame).
  exists c. split; [done|]. destruct a as [| |l p k|];
    try (by rewrite Hsame).
  clear Hsame. destruct (nonempty (strip l)) eqn:Hne.
  - rewrite tui_assign in Hc by done. cbn zeta in Hc.
    assert (Forall tui_entry
              (assigned_at (current_index st)
                 (Some (strip l), Some (PStr (strip p))) (results st))) as Hnew.
    { apply Forall_assigned_at; [done|]. right. exists (strip l), (strip p).
      split; [done|]. split; [by destruct (strip l)|].
      split; apply strip_idem. }
    destruct (current_index st <? length ents - 1)%nat; cbn in Hc; by simplify_eq.
  - rewrite tui_assign_empty in Hc by done. cbn in Hc. by simplify_eq.
Qed.

Lemma tui_loop_entries (ents : list AuctionTui.rider) (actions : list action) (st : session) :
  in_session ents st → Forall tui_entry (results st) →
  ∃ c, state_of (AuctionTui.loop ents st actions) = Some c
       ∧ in_session ents c ∧ Forall tui_entry (results c).
Proof.
  revert st. induction actions as [|a actions IH]; intros st H Hall; cbn.
  - by exists st.
  - destruct (tui_step_in_session ents st a H) as (st' & Hs & H').
    destruct (tui_step_entries ents st a H Hall) as (st'' & Hs' & Hall').
    rewrite Hs in Hs'. injection Hs' as <-.
    destruct (AuctionTui.step ents st a) as [st1|st1|]; cbn in Hs; simplify_eq.
    + by apply IH.
    + by exists st'.
Qed.

(** X4.  In the widget front-end, whatever the operator does from the
    start of a session, every entry of the table is either fully
    unassigned, or holds a trimmed, non-empty label together with a price
    that is a trimmed text (never an integer): the front-end never parses
    the price, and never leaves a label without a value. *)
Theorem tui_table_invariant
    (ents : list AuctionTui.rider) (st0 : session) (actions : list action) :
  AuctionTui.start ents = Some st0 →
  ∃ st, state_of (AuctionTui.loop ents st0 actions) = Some st
        ∧ Forall tui_entry (results st)
        ∧ ∀ r n, r ∈ results st →
            (team r = None ↔ price r = None) ∧ price r ≠ Some (PInt n).
Proof.
  intros Hstart. destruct (tui_start ents st0 Hstart) as [H0 Hun].
  destruct (tui_loop_entries ents actions st0 H0) as (st & Hs & _ & Hall).
  { eapply Forall_impl; [exact Hun|]. intros r ->. by left. }
  exists st. split; [done|]. split; [done|].
  intros r n Hr.
  destruct (proj1 (Forall_forall _ _) Hall r Hr) as [->|(t & p & -> & _)]; done.
Qed.

Lemma tui_table_invariant_witness :
  let ents := [AuctionTui.RiderStr (lit "A"); AuctionTui.RiderStr (lit "B")] in
  let st0 := {| current_index := 0; results := [unassigned; unassigned] |} in
  AuctionTui.start ents = Some st0
  ∧ ∃ st, state_of (AuctionTui.loop ents st0 [Assign (lit " T ") (lit "12") KeyOther])
          = Some st
          ∧ Forall tui_entry (results st).
Proof.
  intros ents st0. split; [reflexivity|].
  destruct (tui_table_invariant ents st0 [Assign (lit " T ") (lit "12") KeyOther]
              eq_refl) as (st & Hs & Hall & _).
  exists st. split; [exact Hs|exact Hall].
Defined.

(** ** Moving through the list *)

Lemma set_index_same (st : session) : Auction.set_index (current_index st) st = st.
Proof. by destruct st. Qed.

Lemma cli_moves_down (riders : list str) (k : nat) (st : session) :
  in_session riders st →
  Auction.loop riders st (replicate k MoveDown)
  = Continue (Auction.set_index
                (Nat.min (current_index st + k) (length riders - 1)) st).
Proof.
  revert st. induction k as [|k IH]; intros st H; pose proof H as [Hi Hl].
  - cbn. rewrite Nat.add_0_r, Nat.min_l by lia. by rewrite set_index_same.
  - cbn [replicate Auction.loop]. rewrite cli_move_down by done.
    destruct (Nat.ltb_spec (current_index st) (length riders - 1)).
    + rewrite IH by (split; cbn; lia).
      unfold Auction.set_index. cbn [current_index results].
      f_equal. f_equal. lia.
    + rewrite IH by done. unfold Auction.set_index. f_equal. f_equal. lia.
Qed.

Lemma cli_moves_up (riders : list str) (k : nat) (st : session) :
  in_session riders st →
  Auction.loop riders st (replicate k MoveUp)
  = Continue (Auction.set_index (current_index st - k) st).
Proof.
  revert st. induction k as [|k IH]; intros st H; pose proof H as [Hi Hl].
  - cbn. by rewrite Nat.sub_0_r, set_index_same.
  - cbn [replicate Auction.loop]. rewrite cli_move_up by done.
    destruct (Nat.ltb_spec 0 (current_index st)).
    + rewrite IH by (split; cbn; lia).
      unfold Auction.set_index. cbn [current_index results].
      f_equal. f_equal. lia.
    + rewrite IH by done. unfold Auction.set_index. f_equal. f_equal. lia.
Qed.

Lemma tui_moves_down (ents : list AuctionTui.rider) (k : nat) (st : session) :
  in_session ents st →
  AuctionTui.loop ents st (replicate k MoveDown)
  = Continue (Auction.set_index
                (Nat.min (current_index st + k) (length ents - 1)) st).
Proof.
  revert st. induction k as [|k IH]; intros st H; pose proof H as [Hi Hl].
  - cbn. rewrite Nat.add_0_r, Nat.min_l by lia. by rewrite set_index_same.
  - cbn [replicate AuctionTui.loop]. rewrite tui_move_down by done.
    destruct (Nat.ltb_spec (current_index st) (length ents - 1)).
    + rewrite IH by (split; cbn; lia).
      unfold Auction.set_index. cbn [current_index results].
      f_equal. f_equal. lia.
    + rewrite IH by done. unfold Auction.set_index. f_equal. f_equal. lia.
Qed.

Lemma tui_moves_up (ents : list AuctionTui.rider) (k : nat) (st : session) :
  in_session ents st →
  AuctionTui.loop ents st (replicate k MoveUp)
  = Continue (Auction.set_index (current_index st - k) st).
Proof.
  revert st. induction k as [|k IH]; intros st H; pose proof H as [Hi Hl].
  - cbn. by rewrite Nat.sub_0_r, set_index_same.
  - cbn [replicate AuctionTui.loop]. rewrite tui_move_up by done.
    destruct (Nat.ltb_spec 0 (current_index st)).
    + rewrite IH by (split; cbn; lia).
      unfold Auction.set_index. cbn [current_index results].
      f_equal. f_equal. lia.
    + rewrite IH by done. unfold Auction.set_index. f_equal. f_equal. lia.
Qed.

(** X5.  In both front-ends, k MoveDown actions in a row move the cursor
    from i to min(i + k, last index) and k MoveUp actions move it to
    max(i - k, 0), the table untouched; so from any session every entity
    can be reached by moving. *)
Theorem repeated_moves (ents : list AuctionTui.rider) (st : session) (k : nat) :
  in_session ents st →
  let i := current_index st in
  let down := {| current_index := Nat.min (i + k) (length ents - 1);
                 results := results st |} in
  let up := {| current_index := i - k; results := results st |} in
  Auction.loop (names ents) st (replicate k MoveDown) = Continue down
  ∧ AuctionTui.loop ents st (replicate k MoveDown) = Continue down
  ∧ Auction.loop (names ents) st (replicate k MoveUp) = Continue up
  ∧ AuctionTui.loop ents st (replicate k MoveUp) = Continue up.
Proof.
  intros H i down up. pose proof (in_session_names _ _ H) as Hn.
  rewrite cli_moves_down, cli_moves_up, tui_moves_down, tui_moves_up by done.
  by rewrite length_names.
Qed.

Lemma repeated_moves_witness :
  let ents := [AuctionTui.RiderStr (lit "A"); AuctionTui.RiderStr (lit "B");
               AuctionTui.RiderStr (lit "C")] in
  let st := {| current_index := 1; results := [unassigned; unassigned; unassigned] |} in
  in_session ents st
  ∧ Auction.loop (names ents) st (replicate 5 MoveDown)
    = Continue {| current_index := 2; results := results st |}.
Proof.
  intros ents st.
  assert (in_session ents st) as H by (split; cbn; lia).
  split; [exact H|]. exact (proj1 (repeated_moves ents st 5 H)).
Defined.

(** ** The export on tables of the wrong length *)

Lemma cli_data_rows_none (results : list result) (riders : list str) (i : nat) :
  i ≤ length results →
  (Auction.data_rows results i riders = None ↔ length results < i + length riders).
Proof.
  revert i. induction riders as [|name riders IH]; intros i Hi; cbn.
  - split; [done|lia].
  - destruct (results !! i) as [r|] eqn:Hr; cbn.
    + apply lookup_lt_Some in Hr.
      destruct (Auction.data_rows results (S i) riders) eqn:Hd; cbn.
      * split; [done|]. intros Hlt.
        assert (Auction.data_rows results (S i) riders = None) as Hn
          by (apply IH; lia).
        congruence.
      * split; [|done]. intros _. apply IH in Hd; lia.
    + apply lookup_ge_None in Hr. split; [lia|done].
Qed.

Lemma cli_data_rows_take (results : list result) (riders : list str) (i n : nat) :
  i + length riders ≤ n →
  Auction.data_rows (take n results) i riders = Auction.data_rows results i riders.
Proof.
  revert i. induction riders as [|name riders IH]; intros i Hn; cbn; [done|].
  cbn in Hn. rewrite lookup_take_lt by lia.
  destruct (results !! i); cbn; [|done]. by rewrite IH by lia.
Qed.

(** X6.  Both [save_results] raise the IndexError exactly when the table
    has fewer entries than there are riders; entries beyond the last
    rider are never read, so they do not show in the file. *)
Theorem export_needs_an_entry_per_rider
    (results : list result) (ents : list AuctionTui.rider) (f : str) (fs : files) :
  (Auction.save_results results (names ents) f fs = None
   ↔ length results < length ents)
  ∧ (AuctionTui.save_results results ents f fs = None
     ↔ length results < length ents)
  ∧ Auction.export_text (take (length ents) results) (names ents)
    = Auction.export_text results (names ents)
  ∧ AuctionTui.export_text (take (length ents) results) ents
    = AuctionTui.export_text results ents.
Proof.
  assert (Auction.export_text results (names ents) = None
          ↔ length results < length ents) as Hnone.
  { unfold Auction.export_text.
    pose proof (cli_data_rows_none results (names ents) 0 ltac:(lia)) as Hd.
    rewrite length_names in Hd. cbn in Hd.
    rewrite <- Hd. by destruct (Auction.data_rows results 0 (names ents)). }
  assert (Auction.export_text (take (length ents) results) (names ents)
          = Auction.export_text results (names ents)) as Htake.
  { unfold Auction.export_text.
    by rewrite cli_data_rows_take by (rewrite length_names; cbn; lia). }
  split; [|split; [|split]].
  - unfold Auction.save_results.
    rewrite <- Hnone. by destruct (Auction.export_text results (names ents)).
  - unfold AuctionTui.save_results. rewrite tui_export_text.
    rewrite <- Hnone. by destruct (Auction.export_text results (names ents)).
  - done.
  - by rewrite !tui_export_text.
Qed.

Lemma export_needs_an_entry_per_rider_witness :
  Auction.save_results [unassigned] [lit "A"; lit "B"] (lit "out.csv") ∅ = None.
Proof.
  apply (proj1 (export_needs_an_entry_per_rider [unassigned]
                  [AuctionTui.RiderStr (lit "A"); AuctionTui.RiderStr (lit "B")]
                  (lit "out.csv") ∅)).
  cbn. lia.
Defined.

(** ** More on trimming *)

Lemma lstrip_strip (s : str) : lstrip (strip s) = strip s.
Proof.
  unfold strip. destruct (lstrip s) as [|c t] eqn:Hs; [done|].
  apply lstrip_head in Hs. rewrite rstrip_cons, Hs.
  destruct (rstrip t); by apply lstrip_fixed.
Qed.

Lemma rstrip_strip (s : str) : rstrip (strip s) = strip s.
Proof. unfold strip. apply rstrip_idem. Qed.

Lemma lstrip_elem (c : ascii) (s : str) : c ∈ lstrip s → c ∈ s.
Proof.
  induction s as [|d s IH]; cbn; [done|].
  destruct (isspace d); [|done]. intros H. right. by apply IH.
Qed.

Lemma length_lstrip (s : str) : length (lstrip s) ≤ length s.
Proof.
  induction s as [|d s IH]; cbn; [done|]. destruct (isspace d); cbn; lia.
Qed.

Lemma strip_elem (c : ascii) (s : str) : c ∈ strip s → c ∈ s.
Proof.
  unfold strip, rstrip. rewrite elem_of_reverse. intros H.
  apply lstrip_elem in H. rewrite elem_of_reverse in H. by apply lstrip_elem.
Qed.

Lemma length_strip (s : str) : length (strip s) ≤ length s.
Proof.
  unfold strip, rstrip. rewrite length_reverse.
  pose proof (length_lstrip (reverse (lstrip s))) as H1.
  rewrite length_reverse in H1. pose proof (length_lstrip s). lia.
Qed.

(** A trimmed, non-empty text starts and ends with a character that is
    no blank. *)
Lemma trimmed_ends (s : str) :
  strip s = s → s ≠ [] →
  (∃ c t, s = c :: t ∧ isspace c = false)
  ∧ (∃ t d, s = t ++ [d] ∧ isspace d = false).
Proof.
  intros Hs Hne. split.
  - pose proof (lstrip_strip s) as Hl. rewrite Hs in Hl.
    destruct s as [|c t]; [done|]. exists c, t. split; [done|].
    by eapply lstrip_head.
  - pose proof (rstrip_strip s) as Hr. rewrite Hs in Hr. unfold rstrip in Hr.
    apply (f_equal reverse) in Hr. rewrite reverse_involutive in Hr.
    destruct (reverse s) as [|d t] eqn:Hrev.
    + apply (f_equal reverse) in Hrev. by rewrite reverse_involutive in Hrev.
    + exists (reverse t), d. split; [|by eapply lstrip_head].
      apply (f_equal reverse) in Hrev.
      by rewrite reverse_involutive, reverse_cons in Hrev.
Qed.

Lemma strip_join (a m b : str) :
  strip a = a → a ≠ [] → strip b = b → b ≠ [] →
  strip (a ++ m ++ b) = a ++ m ++ b.
Proof.
  intros Ha Hane Hb Hbne.
  destruct (trimmed_ends a Ha Hane) as [(c & t & -> & Hc) _].
  destruct (trimmed_ends b Hb Hbne) as [_ (u & d & -> & Hd)].
  rewrite <- app_comm_cons, !app_assoc.
  rewrite <- (app_assoc t), <- (app_assoc t m u) at 1.
  by apply strip_no_outer_space.
Qed.

Lemma strip_blank_left (s : str) : strip (lit " " ++ s) = strip s.
Proof. done. Qed.

Lemma strip_blank_right (s : str) :
  strip s = s → s ≠ [] → strip (s ++ lit " ") = s.
Proof.
  intros Hs Hne.
  destruct (trimmed_ends s Hs Hne) as [(c & t & Hct & Hc) _].
  pose proof (rstrip_strip s) as Hr. rewrite Hs in Hr.
  unfold strip. rewrite Hct. rewrite <- app_comm_cons, (lstrip_fixed c _ Hc).
  rewrite app_comm_cons, <- Hct. unfold rstrip in *.
  by rewrite reverse_app.
Qed.

(** ** The spreadsheet loaders *)

Lemma cell_text_trimmed (c : cell) : strip (cell_text c) = cell_text c.
Proof.
  destruct c as [v|]; cbn; [|done]. destruct (truthy v); [apply strip_idem|done].
Qed.

Lemma nonempty_false (s : str) : nonempty s = false → s = [].
Proof. by destruct s. Qed.

Lemma nonempty_true (s : str) : nonempty s = true → s ≠ [].
Proof. by destruct s. Qed.

Lemma nonempty_app_l (a b : str) : nonempty a = true → nonempty (a ++ b) = true.
Proof. by destruct a. Qed.

(** The name a row gives, from its two trimmed texts. *)
Lemma row_name (surname firstname : str) :
  strip surname = surname → strip firstname = firstname →
  strip (firstname ++ lit " " ++ surname)
  = if nonempty firstname
    then if nonempty surname then firstname ++ lit " " ++ surname else firstname
    else surname.
Proof.
  intros Hs Hf.
  destruct (nonempty firstname) eqn:Hfn, (nonempty surname) eqn:Hsn.
  - by apply strip_join; [|apply nonempty_true| |apply nonempty_true].
  - rewrite (nonempty_false _ Hsn).
    by apply strip_blank_right; [|apply nonempty_true].
  - by rewrite (nonempty_false _ Hfn).
  - by rewrite (nonempty_false _ Hfn), (nonempty_false _ Hsn).
Qed.

Lemma cli_excel_riders_cons (row : list cell) (rest : list (list cell)) :
  let surname := cell_text (default None (row !! 0)) in
  let firstname := cell_text (default None (row !! 1)) in
  AuctionMain.excel_riders (row :: rest)
  = (if nonempty firstname
     then if nonempty surname then [firstname ++ lit " " ++ surname] else [firstname]
     else if nonempty surname then [surname] else [])
    ++ AuctionMain.excel_riders rest.
Proof.
  intros surname firstname. cbn [AuctionMain.excel_riders]. fold surname firstname.
  rewrite (row_name surname firstname) by apply cell_text_trimmed.
  destruct (nonempty firstname) eqn:Hf, (nonempty surname) eqn:Hs; cbn [orb];
    rewrite ?Hf, ?Hs; try done.
  by rewrite nonempty_app_l.
Qed.

Lemma tui_excel_riders_cons (row : list cell) (rest : list (list cell)) :
  let surname := cell_text (default None (row !! 0)) in
  let firstname := cell_text (default None (row !! 1)) in
  let value := default None (row !! 5) in
  AuctionTuiMain.excel_riders (row :: rest)
  = (if nonempty firstname
     then if nonempty surname
          then [AuctionTui.RiderDict (firstname ++ lit " " ++ surname) value]
          else [AuctionTui.RiderDict firstname value]
     else if nonempty surname then [AuctionTui.RiderDict surname value] else [])
    ++ AuctionTuiMain.excel_riders rest.
Proof.
  intros surname firstname value. cbn [AuctionTuiMain.excel_riders].
  fold surname firstname value.
  rewrite (row_name surname firstname) by apply cell_text_trimmed.
  destruct (nonempty firstname) eqn:Hf, (nonempty surname) eqn:Hs; cbn [orb];
    rewrite ?Hf, ?Hs; try done.
  by rewrite nonempty_app_l.
Qed.

(** X7.  For a spreadsheet row, both loaders build the display name from
    the trimmed texts of columns C and B: first name, one blank, surname
    when both are non-blank; the one that is non-blank when the other is
    blank, with no stray blank; and no entity at all when both are blank.
    The widget loader attaches the value of column G. *)
Theorem excel_row_name (row : list cell) (rest : list (list cell)) :
  let surname := cell_text (default None (row !! 0)) in
  let firstname := cell_text (default None (row !! 1)) in
  let value := default None (row !! 5) in
  let name :=
    if nonempty firstname
    then if nonempty surname then Some (firstname ++ lit " " ++ surname)
         else Some firstname
    else if nonempty surname then Some surname else None in
  AuctionMain.excel_riders (row :: rest)
  = option_list name ++ AuctionMain.excel_riders rest
  ∧ AuctionTuiMain.excel_riders (row :: rest)
    = option_list ((λ n, AuctionTui.RiderDict n value) <$> name)
      ++ AuctionTuiMain.excel_riders rest.
Proof.
  intros surname firstname value name. subst name.
  rewrite cli_excel_riders_cons, tui_excel_riders_cons.
  fold surname firstname value.
  by destruct (nonempty firstname), (nonempty surname).
Qed.

Lemma cli_excel_riders_names (rows : list (list cell)) :
  Forall (λ n, n ≠ [] ∧ strip n = n) (AuctionMain.excel_riders rows)
  ∧ length (AuctionMain.excel_riders rows) ≤ length rows.
Proof.
  induction rows as [|row rows [IH1 IH2]]; [by split; [constructor|]|].
  rewrite cli_excel_riders_cons.
  pose proof (cell_text_trimmed (default None (row !! 0))) as Hs.
  pose proof (cell_text_trimmed (default None (row !! 1))) as Hf.
  destruct (nonempty (cell_text (default None (row !! 1)))) eqn:Hfn,
           (nonempty (cell_text (default None (row !! 0)))) eqn:Hsn;
    cbn [app length]; (split; [|lia]); try done; constructor; try done.
  - split; [|by apply strip_join; [|apply nonempty_true| |apply nonempty_true]].
    apply nonempty_true in Hfn. by destruct (cell_text (default None (row !! 1))).
  - split; [by apply nonempty_true|done].
  - split; [by apply nonempty_true|done].
Qed.

Lemma excel_riders_agree (ws : sheet) :
  names (AuctionTuiMain.excel_riders (iter_rows 2 2 7 ws))
  = AuctionMain.excel_riders (iter_rows 2 2 3 ws).
Proof.
  unfold iter_rows.
  change (S 7 - 2) with 6. change (S 3 - 2) with 2. change (2 - 1) with 1.
  generalize (drop 1 ws). intros rows.
  induction rows as [|row rows IH]; [done|].
  rewrite !fmap_cons, cli_excel_riders_cons, tui_excel_riders_cons.
  unfold names in *. rewrite map_app, IH. f_equal.
  cbn [seq fmap list_fmap lookup list_lookup default].
  by repeat destruct (nonempty _).
Qed.

(** X8.  Every name the spreadsheet loader returns is non-empty and
    trimmed; there is at most one per row below the first, and the first
    row, the header, has no influence on the result. *)
Theorem excel_names (ws : sheet) :
  Forall (λ n, n ≠ [] ∧ strip n = n) (AuctionMain.excel_riders (iter_rows 2 2 3 ws))
  ∧ length (AuctionMain.excel_riders (iter_rows 2 2 3 ws)) ≤ length ws - 1
  ∧ ∀ header other_header rows,
      ws = header :: rows →
      AuctionMain.excel_riders (iter_rows 2 2 3 ws)
      = AuctionMain.excel_riders (iter_rows 2 2 3 (other_header :: rows)).
Proof.
  destruct (cli_excel_riders_names (iter_rows 2 2 3 ws)) as [Hall Hlen].
  split; [done|]. split.
  - unfold iter_rows in Hlen. rewrite length_fmap, length_drop in Hlen.
    exact Hlen.
  - by intros header other_header rows ->.
Qed.

(** ** What the CSV loader returns *)

Lemma translate_has_no_cr (b : bool) (s : str) : CR ∉ Io.translate_newlines b s.
Proof.
  revert b. induction s as [|c s IH]; intros b; cbn; [apply not_elem_of_nil|].
  case_bool_decide as Hcr.
  { apply not_elem_of_cons. split; [done|apply IH]. }
  case_bool_decide as Hlf.
  { destruct b; [apply IH|]. apply not_elem_of_cons. split; [done|apply IH]. }
  apply not_elem_of_cons. split; [congruence|apply IH].
Qed.

Lemma split_lines_no_cr (cur s : str) :
  CR ∉ cur → CR ∉ s → Forall (λ line, CR ∉ line) (Io.split_lines cur s).
Proof.
  revert cur. induction s as [|c s IH]; intros cur Hcur Hs; cbn.
  - destruct cur; cbn; by repeat constructor.
  - apply not_elem_of_cons in Hs as [Hc Hs].
    assert (CR ∉ cur ++ [c]) as Hcur'.
    { rewrite elem_of_app, list_elem_of_singleton. intros [?|?]; congruence. }
    case_bool_decide.
    + constructor; [done|]. apply IH; [apply not_elem_of_nil|done].
    + by apply IH.
Qed.

Lemma field_ok_nil : field_ok [].
Proof. split; [apply not_elem_of_nil|done]. Qed.

Lemma add_char_ok (r r' : Csv.reader) (c : ascii) :
  c ≠ CR → reader_ok r → Csv.parse_add_char r c = Some r' → reader_ok r'.
Proof.
  intros Hc [Hfs [Hcr Hfit]]. unfold Csv.parse_add_char.
  destruct (Z.ltb_spec (Z.of_nat (length (Csv.field r))) Csv.field_limit); [|done].
  intros [= <-]. split; [done|]. cbn. split.
  - rewrite elem_of_app, list_elem_of_singleton. intros [?|?]; congruence.
  - unfold fits in *. rewrite length_app. cbn. lia.
Qed.

Lemma save_field_ok (r : Csv.reader) : reader_ok r → reader_ok (Csv.parse_save_field r).
Proof.
  intros [Hfs Hf]. split; cbn; [|apply field_ok_nil].
  apply Forall_app. split; [done|by constructor].
Qed.

Lemma set_state_ok (s : Csv.parser_state) (r : Csv.reader) :
  reader_ok r → reader_ok (Csv.set_state s r).
Proof. done. Qed.

Lemma add_char_state_ok (s : Csv.parser_state) (r r' : Csv.reader) (c : ascii) :
  c ≠ CR → reader_ok r → Csv.set_state s <$> Csv.parse_add_char r c = Some r' →
  reader_ok r'.
Proof.
  intros Hc Hr H. destruct (Csv.parse_add_char r c) as [r1|] eqn:Hadd; [|done].
  injection H as <-. apply set_state_ok. by eapply add_char_ok.
Qed.

Lemma start_field_ok (r r' : Csv.reader) (i : Csv.input) :
  (∀ c, i = Csv.Char c → c ≠ CR) → reader_ok r →
  Csv.start_field r i = Some r' → reader_ok r'.
Proof.
  intros Hi Hr. unfold Csv.start_field. destruct i as [c|].
  - specialize (Hi c eq_refl).
    destruct (Csv.is_newline c).
    { intros [= <-]. by apply set_state_ok, save_field_ok. }
    case_bool_decide. { intros [= <-]. by apply set_state_ok. }
    case_bool_decide. { intros [= <-]. by apply save_field_ok. }
    by apply add_char_state_ok.
  - intros [= <-]. by apply set_state_ok, save_field_ok.
Qed.

Ltac reader_ok_done :=
  first
    [ by apply add_char_state_ok
    | by apply add_char_ok
    | intros [= <-];
      first [ done
            | by apply set_state_ok, save_field_ok
            | by apply set_state_ok
            | by apply save_field_ok ]
    | done ].

Lemma parse_process_char_ok (r r' : Csv.reader) (i : Csv.input) :
  (∀ c, i = Csv.Char c → c ≠ CR) → reader_ok r →
  Csv.parse_process_char r i = Some r' → reader_ok r'.
Proof.
  intros Hi Hr. unfold Csv.parse_process_char.
  destruct (Csv.state r); destruct i as [c|];
    try specialize (Hi c eq_refl); try reader_ok_done.
  - destruct (Csv.is_newline c); [reader_ok_done|].
    apply start_field_ok; [by intros ? [= <-]|by apply set_state_ok].
  - apply start_field_ok; [by intros ? [= <-]|done].
  - destruct (Csv.is_newline c); [reader_ok_done|].
    case_bool_decide; reader_ok_done.
  - case_bool_decide; reader_ok_done.
  - case_bool_decide; [reader_ok_done|].
    case_bool_decide; [reader_ok_done|].
    destruct (Csv.is_newline c); reader_ok_done.
  - destruct (Csv.is_newline c); reader_ok_done.
Qed.

Lemma parse_chars_ok (line : str) (r r' : Csv.reader) :
  CR ∉ line → reader_ok r → Csv.parse_chars r line = Some r' → reader_ok r'.
Proof.
  revert r. induction line as [|c line IH]; intros r Hline Hr; cbn.
  - by intros [= <-].
  - apply not_elem_of_cons in Hline as [Hc Hline].
    destruct (Csv.parse_process_char r (Csv.Char c)) as [r1|] eqn:Hp; [|done].
    cbn. apply IH; [done|].
    eapply parse_process_char_ok; [|done|done]. intros ? [= <-]. congruence.
Qed.

Lemma parse_line_ok (line : str) (r r' : Csv.reader) :
  CR ∉ line → reader_ok r → Csv.parse_line r line = Some r' → reader_ok r'.
Proof.
  intros Hline Hr. unfold Csv.parse_line.
  destruct (Csv.parse_chars r line) as [r1|] eqn:Hp; [|done]. cbn.
  apply parse_process_char_ok; [done|]. by eapply parse_chars_ok.
Qed.

Lemma read_records_ok (lines : list str) (r : Csv.reader) (rows : list Csv.row) :
  Forall (λ line, CR ∉ line) lines → reader_ok r →
  Csv.read_records r lines = Some rows → Forall (Forall field_ok) rows.
Proof.
  intros Hlines. revert r rows.
  induction Hlines as [|line lines Hline Hlines IH]; intros r rows Hr.
  - cbn. destruct (_ || _); intros [= <-]; [|by constructor].
    constructor; [|done]. by apply save_field_ok.
  - rewrite read_records_cons.
    destruct (Csv.parse_line r line) as [r1|] eqn:Hp; [|done].
    cbn [mbind option_bind].
    assert (reader_ok r1) as Hr1 by by eapply parse_line_ok.
    case_bool_decide; [|by apply IH].
    destruct (Csv.read_records Csv.parse_reset lines) as [rs|] eqn:Hrs; [|done].
    cbn. intros [= <-]. constructor; [by destruct Hr1|].
    eapply IH; [|done]. split; [constructor|apply field_ok_nil].
Qed.

Lemma first_column_ok (rows : list Csv.row) :
  Forall (Forall field_ok) rows →
  Forall (λ n, entity_name n ∧ fits n) (Auction.first_column rows).
Proof.
  induction 1 as [|row rows Hrow Hrows IH]; cbn; [done|].
  destruct Hrow as [|f row [Hcr Hfit] _]; [done|].
  destruct (nonempty (strip f)) eqn:Hne; [|done].
  constructor; [|done]. split; [split; [apply strip_idem|split]|].
  - by apply nonempty_true.
  - intros Hin. by apply strip_elem in Hin.
  - unfold fits in *. pose proof (length_strip f). lia.
Qed.

Lemma reader_rows_ok (content : str) (rows : list Csv.row) :
  Csv.reader_rows (Io.text_lines content) = Some rows → Forall (Forall field_ok) rows.
Proof.
  unfold Csv.reader_rows, Io.text_lines. intros Hrows.
  apply (read_records_ok (Io.split_lines [] (tr content)) Csv.parse_reset rows);
    [|split; [constructor|apply field_ok_nil]|exact Hrows].
  apply split_lines_no_cr; [apply not_elem_of_nil|apply translate_has_no_cr].
Qed.

(** X9.  Whatever the file holds, the names [read_riders_from_csv]
    returns are non-empty, trimmed, free of carriage returns and within
    the csv field size limit; the widget loader returns the same names,
    each with no reference value. *)
Theorem csv_names (filepath : str) (fs : files) (riders : list str) :
  Auction.read_riders_from_csv filepath fs = Some riders →
  Forall (λ n, entity_name n ∧ fits n) riders
  ∧ AuctionTui.read_riders_from_csv filepath fs
    = Some ((λ n, AuctionTui.RiderDict n None) <$> riders).
Proof.
  unfold Auction.read_riders_from_csv, AuctionTui.read_riders_from_csv.
  destruct (fs !! filepath) as [content|]; [|done]. cbn [mbind option_bind].
  destruct (Csv.reader_rows (Io.text_lines content)) as [rows|] eqn:Hrows; [|done].
  cbn [mbind option_bind]. intros [= <-]. split; [|done].
  by apply first_column_ok, (reader_rows_ok content).
Qed.

Lemma csv_names_witness :
  let fs : files := {[ lit "in.csv" := lit " Tadej POGACAR ,x" ++ [CR; LF] ++ lit ",y" ++ [LF] ]} in
  Auction.read_riders_from_csv (lit "in.csv") fs = Some [lit "Tadej POGACAR"]
  ∧ Forall (λ n, entity_name n ∧ fits n) [lit "Tadej POGACAR"].
Proof.
  intros fs.
  assert (Auction.read_riders_from_csv (lit "in.csv") fs = Some [lit "Tadej POGACAR"])
    as Hread by (vm_compute; reflexivity).
  split; [exact Hread|].
  exact (proj1 (csv_names (lit "in.csv") fs [lit "Tadej POGACAR"] Hread)).
Defined.

(** ** The exported file, read again *)

Lemma header_fits : Forall fits header.
Proof. repeat constructor; by vm_compute. Qed.

(** X10.  The file either [save_results] writes for a table with one
    entry per rider is read back by the csv reader, in text mode, as the
    header record followed by exactly one record per rider, holding the
    name, the label and the value text (line ends inside a field arrive
    as a line feed), whatever commas, quotes or line breaks the fields
    hold, as long as each passes the reader's field size limit. *)
Theorem export_reads_back (results : list result) (ents : list AuctionTui.rider) :
  length results = length ents →
  Forall (Forall fits) (zip_with data_row (names ents) results) →
  ∃ text,
    Auction.export_text results (names ents) = Some text
    ∧ AuctionTui.export_text results ents = Some text
    ∧ Csv.reader_rows (Io.text_lines text)
      = Some ((λ row : Csv.row, tr <$> row)
                <$> header :: zip_with data_row (names ents) results).
Proof.
  intros Hlen Hfit.
  assert (length results = length (names ents)) as Hn by by rewrite length_names.
  eexists. split; [by apply cli_export_text|].
  split; [by rewrite tui_export_text, cli_export_text|].
  apply csv_round_trip. constructor; [apply header_fits|done].
Qed.

Lemma export_reads_back_witness :
  let ents := [AuctionTui.RiderStr (lit "Wout VAN AERT")] in
  let results := [ {| team := Some (lit "A, B"); price := Some (PInt 12) |} ] in
  length results = length ents
  ∧ Forall (Forall fits) (zip_with data_row (names ents) results)
  ∧ ∃ text, Auction.export_text results (names ents) = Some text
            ∧ Csv.reader_rows (Io.text_lines text)
              = Some [header; [lit "Wout VAN AERT"; lit "A, B"; lit "12"]].
Proof.
  intros ents results.
  assert (Forall (Forall fits) (zip_with data_row (names ents) results)) as Hfit
    by (repeat constructor; by vm_compute).
  split; [reflexivity|]. split; [exact Hfit|].
  destruct (export_reads_back results ents eq_refl Hfit) as (text & Hc & _ & Hread).
  exists text. split; [exact Hc|exact Hread].
Defined.

Lemma export_then_load (riders : list str) (results : list result)
    (output_file : str) (fs : files) :
  length results = length riders →
  Forall entity_name riders →
  Forall (Forall fits) (zip_with data_row riders results) →
  ∃ fs', Auction.save_results results riders output_file fs = Some fs'
         ∧ Auction.read_riders_from_csv output_file fs'
           = Some (lit "Corridore" :: riders).
Proof.
  intros Hlen Hnames Hfit.
  unfold Auction.save_results. rewrite cli_export_text by done.
  eexists. split; [reflexivity|].
  unfold Auction.read_riders_from_csv. rewrite lookup_insert_eq.
  cbn [mbind option_bind].
  rewrite csv_round_trip by (constructor; [apply header_fits|done]).
  cbn [mbind option_bind]. f_equal.
  change ((λ row : Csv.row, tr <$> row) <$> header :: zip_with data_row riders results)
    with ((tr <$> header)
          :: ((λ row : Csv.row, tr <$> row) <$> zip_with data_row riders results)).
  change (Auction.first_column ((tr <$> header) :: ?rest))
    with (lit "Corridore" :: Auction.first_column rest).
  f_equal. by apply first_column_data_rows.
Qed.

Lemma rows_fit (riders : list str) (results : list result) :
  length results = length riders →
  Forall fits riders →
  Forall (λ r, fits (team_field (team r)) ∧ fits (price_field (price r))) results →
  Forall (Forall fits) (zip_with data_row riders results).
Proof.
  intros Hlen Hr. revert results Hlen.
  induction Hr as [|n riders Hn Hr IH]; intros [|r results] Hlen Hres; try done.
  apply Forall_cons in Hres as [[Ht Hp] Hres]. cbn.
  constructor; [by repeat constructor|]. apply IH; [by injection Hlen|done].
Qed.

(** X11.  A list of riders loaded from a CSV file, taken through any
    session of the line-oriented front-end and exported, is loaded again
    from the export as the header word Corridore followed by the same
    riders in the same order, provided the labels and values of the table
    pass the reader's field size limit: names that come from the CSV
    loader need no further condition. *)
Theorem csv_session_reload (input output : str) (fs : files)
    (riders : list str) (st0 st : session) (actions : list action) :
  Auction.read_riders_from_csv input fs = Some riders →
  Auction.start riders = Some st0 →
  state_of (Auction.loop riders st0 actions) = Some st →
  Forall (λ r, fits (team_field (team r)) ∧ fits (price_field (price r)))
         (results st) →
  ∃ fs', Auction.save_results (results st) riders output fs = Some fs'
         ∧ Auction.read_riders_from_csv output fs'
           = Some (lit "Corridore" :: riders).
Proof.
  intros Hload Hstart Hloop Hfit.
  unfold Auction.read_riders_from_csv in Hload.
  destruct (fs !! input) as [content|]; [|done]. cbn [mbind option_bind] in Hload.
  destruct (Csv.reader_rows (Io.text_lines content)) as [rows|] eqn:Hrows; [|done].
  cbn [mbind option_bind] in Hload. injection Hload as <-.
  assert (Forall (λ n, entity_name n ∧ fits n) (Auction.first_column rows)) as Hnames.
  { apply first_column_ok. unfold Csv.reader_rows, Io.text_lines in Hrows.
    apply (read_records_ok (Io.split_lines [] (tr content)) Csv.parse_reset rows);
      [|split; [constructor|apply field_ok_nil]|exact Hrows].
    apply split_lines_no_cr; [apply not_elem_of_nil|apply translate_has_no_cr]. }
  destruct (cli_start _ _ Hstart) as [H0 _].
  destruct (cli_loop_in_session _ actions _ H0) as (st' & Hs' & [_ Hlen]).
  rewrite Hloop in Hs'. injection Hs' as <-.
  apply export_then_load; [done| |].
  - eapply Forall_impl; [exact Hnames|]. by intros n [Hn _].
  - apply rows_fit; [done| |done].
    eapply Forall_impl; [exact Hnames|]. by intros n [_ Hn].
Qed.

Lemma csv_session_reload_witness :
  let fs : files := {[ lit "in.csv" := lit "Tadej POGACAR" ++ [LF] ++ lit "Jonas VINGEGAARD" ++ [LF] ]} in
  let riders := [lit "Tadej POGACAR"; lit "Jonas VINGEGAARD"] in
  let st0 := {| current_index := 0; results := [unassigned; unassigned] |} in
  let st := {| current_index := 1;
               results := [ {| team := Some (lit "TeamA"); price := Some (PInt 500) |};
                            unassigned ] |} in
  ∃ fs', Auction.save_results (results st) riders (lit "out.csv") fs = Some fs'
         ∧ Auction.read_riders_from_csv (lit "out.csv") fs'
           = Some (lit "Corridore" :: riders).
Proof.
  intros fs riders st0 st.
  apply (csv_session_reload (lit "in.csv") (lit "out.csv") fs riders st0 st
           [Assign (lit "TeamA") (lit "500") KeyOther]).
  - vm_compute. reflexivity.
  - reflexivity.
  - vm_compute. reflexivity.
  - repeat constructor; by vm_compute.
Defined.

(** ** The output file is not the input file *)

Lemma rfind_from_range (i : Z) (c : ascii) (s : str) :
  rfind_from i c s = (-1)%Z
  ∨ (i ≤ rfind_from i c s < i + Z.of_nat (length s))%Z.
Proof.
  revert i. induction s as [|d s IH]; intros i; cbn [rfind_from]; [by left|].
  destruct (IH (i + 1)%Z) as [Hr|Hr].
  - rewrite Hr. cbn. case_bool_decide; [right; cbn [length]; lia|by left].
  - destruct (Z.leb_spec 0 (rfind_from (i + 1) c s)).
    + right. cbn [length]. lia.
    + case_bool_decide; [right; cbn [length]; lia|by left].
Qed.

Lemma rfind_from_last (i : Z) (c : ascii) (a b : str) :
  (0 ≤ i)%Z → c ∉ b →
  rfind_from i c (a ++ c :: b) = (i + Z.of_nat (length a))%Z.
Proof.
  intros Hi Hb. revert i Hi. induction a as [|d a IH]; intros i Hi.
  - cbn [app rfind_from length].
    destruct (rfind_from_range (i + 1) c b) as [Hr|Hr].
    + rewrite Hr. cbn. rewrite bool_decide_true by done. lia.
    + exfalso. clear -Hb Hr Hi. revert i Hi Hr.
      induction b as [|e b IHb]; intros i Hi Hr; [cbn in Hr; lia|].
      apply not_elem_of_cons in Hb as [Hce Hb].
      cbn [rfind_from] in Hr.
      destruct (rfind_from_range (i + 1 + 1) c b) as [Hr'|Hr'].
      * rewrite Hr' in Hr. cbn in Hr. rewrite bool_decide_false in Hr by congruence.
        lia.
      * apply (IHb Hb (i + 1)%Z); lia.
  - cbn [app rfind_from length]. rewrite IH by lia.
    destruct (Z.leb_spec 0 (i + 1 + Z.of_nat (length a))); lia.
Qed.

Lemma rfind_from_notin (i : Z) (c : ascii) (s : str) :
  c ∉ s → rfind_from i c s = (-1)%Z.
Proof.
  revert i. induction s as [|d s IH]; intros i Hs; [done|].
  apply not_elem_of_cons in Hs as [Hd Hs].
  cbn [rfind_from]. rewrite IH by done. cbn.
  by rewrite bool_decide_false by congruence.
Qed.

Lemma basename_no_sep (p : str) : "/"%char ∉ basename p.
Proof.
  unfold basename, rfind.
  destruct (decide ("/"%char ∈ p)) as [Hin|Hout].
  - apply list_elem_of_split_r in Hin as (a & b & -> & Hb).
    rewrite rfind_from_last by (done || lia).
    replace (Z.to_nat (0 + Z.of_nat (length a) + 1)) with (length a + 1) by lia.
    rewrite (cons_middle _ a b), app_assoc.
    rewrite drop_app_length'; [done|]. rewrite length_app. cbn. lia.
  - by rewrite rfind_from_notin.
Qed.

Lemma splitext_root_cases (p : str) :
  splitext_root p = p
  ∨ ∃ d, rfind "."%char p = Z.of_nat d ∧ splitext_root p = take d p.
Proof.
  unfold splitext_root.
  destruct (Z.ltb_spec (rfind "/"%char p) (rfind "."%char p)) as [Hlt|]; [|by left].
  destruct (existsb _ _); [|by left].
  right. exists (Z.to_nat (rfind "."%char p)). split; [|done].
  unfold rfind in *.
  destruct (rfind_from_range 0 "/"%char p), (rfind_from_range 0 "."%char p); lia.
Qed.

Lemma splitext_root_elem (c : ascii) (p : str) : c ∈ splitext_root p → c ∈ p.
Proof.
  destruct (splitext_root_cases p) as [->|(d & _ & ->)]; [done|].
  intros H. apply elem_of_take in H as (i & Hi & _).
  by eapply list_elem_of_lookup_2.
Qed.

Lemma output_file_differs (input_file : str) :
  Auction.output_file input_file ≠ input_file.
Proof.
  unfold Auction.output_file, base_name. intros H.
  assert ("/"%char ∉ input_file) as Hsep.
  { rewrite <- H. rewrite elem_of_app. intros [Hin|Hin].
    - apply splitext_root_elem in Hin. by apply basename_no_sep in Hin.
    - vm_compute in Hin. by repeat (inversion Hin as [|? ? ? Hin']; clear Hin;
                                     rename Hin' into Hin; subst). }
  assert (basename input_file = input_file) as Hbase.
  { unfold basename, rfind. by rewrite rfind_from_notin. }
  rewrite Hbase in H.
  destruct (splitext_root_cases input_file) as [Hroot|(d & Hd & Hroot)];
    rewrite Hroot in H.
  - apply (f_equal length) in H. rewrite length_app in H. cbn in H. lia.
  - assert (rfind "."%char
              ((take d input_file ++ lit "_auction_results") ++ "."%char :: lit "csv")
            = Z.of_nat d) as Hd'.
    { rewrite <- Hd. f_equal. by rewrite <- app_assoc. }
    unfold rfind in Hd'. rewrite rfind_from_last in Hd'.
    + rewrite length_app, length_take in Hd'. cbn in Hd'.
      unfold rfind in Hd.
      destruct (rfind_from_range 0 "."%char input_file); lia.
    + lia.
    + vm_compute. intros Hin.
      by repeat (inversion Hin as [|? ? ? Hin']; clear Hin;
                 rename Hin' into Hin; subst).
Qed.

(** ** The entry points *)

Lemma assigned_le (results : list result) : assigned results ≤ length results.
Proof.
  induction results as [|r results IH]; cbn; [done|].
  destruct (has_team r); lia.
Qed.

(** X12.  When [main] of the line-oriented program ends with its
    summary, the files are those it started with except for the one
    output file, named after the input file; that file is never the input
    file, which is left as it was; and the summary counts at most as many
    assigned riders as there are riders, of which there is at least one. *)
Theorem cli_main_writes_one_file
    (load_workbook : list ascii → option sheet)
    (argv : list str) (actions : list action) (fs fs' : files) (a t : nat) :
  AuctionMain.main load_workbook argv actions fs = Done a t fs' →
  ∃ input_file text,
    argv !! 1 = Some input_file
    ∧ fs' = <[Auction.output_file input_file := text]> fs
    ∧ fs' !! input_file = fs !! input_file
    ∧ is_Some (fs !! input_file)
    ∧ a ≤ t ∧ 1 ≤ t.
Proof.
  unfold AuctionMain.main.
  destruct (argv !! 1) as [input_file|]; [|done].
  case_bool_decide as Hex; cbn [negb]; [|done].
  destruct (AuctionMain.read_riders load_workbook input_file fs)
    as [riders| |]; [|done|done].
  destruct (Nat.eqb_spec (length riders) 0) as [|Hne]; [done|].
  set (st0 := {| current_index := 0; results := map (λ _, unassigned) riders |}).
  assert (in_session riders st0) as H0.
  { split; cbn; [lia|apply length_map]. }
  destruct (cli_loop_in_session riders actions st0 H0) as (st & Hs & [_ Hlen]).
  destruct (Auction.loop riders st0 actions) as [st1|st1|]; [done| |done].
  cbn in Hs. injection Hs as ->.
  unfold Auction.save_results.
  destruct (Auction.export_text (results st) riders) as [text|]; [|done].
  cbn. intros [= <- <- <-].
  exists input_file, text. split; [done|]. split; [done|].
  split; [by rewrite lookup_insert_ne by apply output_file_differs|].
  split; [done|]. split; [|lia].
  rewrite <- Hlen. apply assigned_le.
Qed.

Lemma cli_main_writes_one_file_witness :
  let fs : files := {[ lit "in.csv" := lit "Tadej POGACAR" ++ [LF] ]} in
  let text := lit "Corridore,Squadra,Prezzo" ++ [CR; LF]
              ++ lit "Tadej POGACAR,TeamA,7" ++ [CR; LF] in
  ∃ input_file text',
    [lit "auction.py"; lit "in.csv"] !! 1 = Some input_file
    ∧ <[lit "in_auction_results.csv" := text]> fs
      = <[Auction.output_file input_file := text']> fs.
Proof.
  intros fs text.
  destruct (cli_main_writes_one_file (λ _, None)
              [lit "auction.py"; lit "in.csv"]
              [Assign (lit "TeamA") (lit "7") (KeyChar "q"%char)] fs
              (<[lit "in_auction_results.csv" := text]> fs) 1 1)
    as (input_file & text' & Hargv & Hfs & _).
  - vm_compute. reflexivity.
  - exists input_file, text'. split; [exact Hargv|exact Hfs].
Defined.

Lemma tui_output_fresh (fuel : nat) (fs : files) (base : str) (name : str) :
  AuctionTui.get_unique_output_file fuel fs base = Some name → fs !! name = None.
Proof.
  unfold AuctionTui.get_unique_output_file. case_bool_decide as Hx; cbn [negb].
  - intros Hl. by apply unique_loop_some in Hl as (k & _ & -> & Hnone & _).
  - intros [= <-]. by apply eq_None_not_Some.
Qed.

(** X13.  When [main] of the widget program ends with its summary, it
    has created exactly one file, under a name no file had, and every
    file that existed, the input file among them, still has the content it
    had; the summary counts at most as many assigned riders as there are
    riders. *)
Theorem tui_main_creates_one_file
    (load_workbook : list ascii → option sheet) (fuel : nat)
    (argv : list str) (actions : list action) (fs fs' : files) (a t : nat) :
  AuctionTuiMain.main load_workbook fuel argv actions fs = Done a t fs' →
  ∃ output_file text,
    fs !! output_file = None
    ∧ fs' = <[output_file := text]> fs
    ∧ (∀ p content, fs !! p = Some content → fs' !! p = Some content)
    ∧ a ≤ t ∧ 1 ≤ t.
Proof.
  unfold AuctionTuiMain.main.
  destruct (argv !! 1) as [input_file|]; [|done].
  case_bool_decide as Hex; cbn [negb]; [|done].
  destruct (AuctionTui.get_unique_output_file fuel fs (base_name input_file))
    as [output_file|] eqn:Hout; [|done].
  apply tui_output_fresh in Hout.
  destruct (AuctionTuiMain.read_riders load_workbook input_file fs)
    as [riders| |]; [|done|done].
  destruct (Nat.eqb_spec (length riders) 0) as [|Hne]; [done|].
  set (st0 := {| current_index := 0; results := map (λ _, unassigned) riders |}).
  assert (in_session riders st0) as H0.
  { split; cbn; [lia|apply length_map]. }
  destruct (tui_loop_in_session riders actions st0 H0) as (st & Hs & [_ Hlen]).
  destruct (AuctionTui.loop riders st0 actions) as [st1|st1|]; [done| |done].
  cbn in Hs. injection Hs as ->.
  unfold AuctionTui.save_results.
  destruct (AuctionTui.export_text (results st) riders) as [text|]; [|done].
  cbn. intros [= <- <- <-].
  exists output_file, text. split; [done|]. split; [done|].
  split; [|split; [|lia]].
  - intros p content Hp. rewrite lookup_insert_ne; [done|]. congruence.
  - rewrite <- Hlen. apply assigned_le.
Qed.

Lemma tui_main_creates_one_file_witness :
  let fs : files := {[ lit "in.csv" := lit "Tadej POGACAR" ++ [LF] ]} in
  let text := lit "Corridore,Squadra,Prezzo" ++ [CR; LF]
              ++ lit "Tadej POGACAR,TeamA,7" ++ [CR; LF] in
  ∃ output_file text',
    fs !! output_file = None
    ∧ <[lit "in_auction_results.csv" := text]> fs = <[output_file := text']> fs.
Proof.
  intros fs text.
  destruct (tui_main_creates_one_file (λ _, None) 2
              [lit "auction_tui.py"; lit "in.csv"]
              [Assign (lit "TeamA") (lit "7") KeyOther; Quit] fs
              (<[lit "in_auction_results.csv" := text]> fs) 1 1)
    as (output_file & text' & Hnone & Hfs & _).
  - vm_compute. reflexivity.
  - exists output_file, text'. split; [exact Hnone|exact Hfs].
Defined.

(** X14.  From the start of a session over a non-empty rider list, a run
    of either front-end never raises an IndexError, whatever the operator
    does and whatever the console calls do: when it gets through its
    console calls it ends, or waits for the next action, in a state whose
    cursor is in range and whose table has one entry per rider.  When
    every console call returns, the run gets through. *)
Theorem run_raises_no_index_error
    (create_progress_bar : nat → nat → str)
    (console_print label_update push_modal : str → bool)
    (riders : list str) (ents : list AuctionTui.rider)
    (actions : list action) (st0 tst0 : session) :
  Auction.start riders = Some st0 →
  AuctionTui.start ents = Some tst0 →
  (∀ o,
     AuctionRun.run create_progress_bar console_print riders st0 actions = Ran o →
     ∃ st, state_of o = Some st ∧ in_session riders st)
  ∧ (∀ o,
       AuctionTuiRun.run label_update push_modal ents tst0 actions = Ran o →
       ∃ st, state_of o = Some st ∧ in_session ents st)
  ∧ ((∀ s, console_print s = true) →
     ∃ o, AuctionRun.run create_progress_bar console_print riders st0 actions = Ran o)
  ∧ ((∀ s, label_update s = true) → (∀ s, push_modal s = true) →
     ∃ o, AuctionTuiRun.run label_update push_modal ents tst0 actions = Ran o).
Proof.
  intros Hc Ht. apply cli_start in Hc as [Hc _]. apply tui_start in Ht as [Ht _].
  split; [|split; [|split]].
  - intros o Ho. apply cli_run_controller in Ho; [|done]. subst o.
    by apply cli_loop_in_session.
  - intros o Ho. apply tui_run_controller in Ho; [|done]. subst o.
    by apply tui_loop_in_session.
  - intros Hp. eexists. by apply cli_run_shown.
  - intros Hl Hm. eexists. by apply tui_run_shown.
Qed.

Lemma run_raises_no_index_error_witness :
  let riders := [lit "Tadej POGACAR"; lit "Jonas VINGEGAARD"] in
  let st0 := {| current_index := 0; results := [unassigned; unassigned] |} in
  let actions := [MoveDown; MoveDown; Assign (lit "T") (lit "x") (KeyChar "q")] in
  let o := Break {| current_index := 1;
                    results := [unassigned;
                                {| team := Some (lit "T");
                                   price := Some (PStr (lit "x")) |}] |} in
  AuctionRun.run (λ _ _, lit "....") (λ _, true) riders st0 actions = Ran o
  ∧ ∃ st, state_of o = Some st ∧ in_session riders st.
Proof.
  intros riders st0 actions o.
  assert (AuctionRun.run (λ _ _, lit "....") (λ _, true) riders st0 actions = Ran o)
    as Hrun by (vm_compute; reflexivity).
  split; [exact Hrun|].
  exact (proj1 (run_raises_no_index_error (λ _ _, lit "....") (λ _, true)
                  (λ _, true) (λ _, true) riders
                  [AuctionTui.RiderDict (lit "Tadej POGACAR") None]
                  actions st0 {| current_index := 0; results := [unassigned] |}
                  eq_refl eq_refl) o Hrun).
Defined.

(** ** A second run on the same input *)

Lemma cli_read_riders_ext (load_workbook : list ascii → option sheet)
    (filepath : str) (fs fs' : files) :
  fs' !! filepath = fs !! filepath →
  AuctionMain.read_riders load_workbook filepath fs'
  = AuctionMain.read_riders load_workbook filepath fs.
Proof.
  intros H. unfold AuctionMain.read_riders, AuctionMain.read_riders_from_excel,
    Auction.read_riders_from_csv. by rewrite H.
Qed.

Lemma tui_main_done (load_workbook : list ascii → option sheet) (fuel : nat)
    (argv : list str) (actions : list action) (fs fs' : files) (a t : nat) :
  AuctionTuiMain.main load_workbook fuel argv actions fs = Done a t fs' →
  ∃ output_file text, fs !! output_file = None ∧ fs' = <[output_file := text]> fs.
Proof.
  unfold AuctionTuiMain.main.
  destruct (argv !! 1) as [input_file|]; [|done].
  case_bool_decide as Hex; cbn [negb]; [|done].
  destruct (AuctionTui.get_unique_output_file fuel fs (base_name input_file))
    as [output_file|] eqn:Hout; [|done].
  apply tui_output_fresh in Hout.
  destruct (AuctionTuiMain.read_riders load_workbook input_file fs)
    as [riders| |]; [|done|done].
  destruct (length riders =? 0)%nat; [done|].
  destruct (AuctionTui.loop riders _ actions) as [st1|st1|]; [done| |done].
  unfold AuctionTui.save_results.
  destruct (AuctionTui.export_text (results st1) riders) as [text|]; [|done].
  cbn. intros [= <- <- <-]. by exists output_file, text.
Qed.

(** X15.  A second run of the line-oriented program on the same input
    forgets the first: whatever the operator does in it, it ends exactly
    as it would have without the first run, so the results file of the
    first run is replaced.  A second run of the widget program writes a
    different file and the results file of the first run is still there
    with its content. *)
Theorem second_run
    (load_workbook : list ascii → option sheet) (fuel : nat)
    (argv : list str) (actions1 actions2 : list action) (fs : files) :
  (∀ a1 t1 fs1,
     AuctionMain.main load_workbook argv actions1 fs = Done a1 t1 fs1 →
     AuctionMain.main load_workbook argv actions2 fs1
     = AuctionMain.main load_workbook argv actions2 fs)
  ∧ (∀ ta1 tt1 tfs1 ta2 tt2 tfs2,
       AuctionTuiMain.main load_workbook fuel argv actions1 fs = Done ta1 tt1 tfs1 →
       AuctionTuiMain.main load_workbook fuel argv actions2 tfs1
       = Done ta2 tt2 tfs2 →
       ∃ out1 out2 text1 text2,
         out1 ≠ out2
         ∧ fs !! out1 = None ∧ fs !! out2 = None
         ∧ tfs2 = <[out2 := text2]> (<[out1 := text1]> fs)
         ∧ tfs2 !! out1 = Some text1 ∧ tfs2 !! out2 = Some text2).
Proof.
  split.
  - intros a1 t1 fs1. unfold AuctionMain.main.
    destruct (argv !! 1) as [input_file|]; [|done].
    case_bool_decide as Hex; cbn [negb]; [|done].
    destruct (AuctionMain.read_riders load_workbook input_file fs)
      as [riders| |] eqn:Hload; [|done|done].
    destruct (length riders =? 0)%nat eqn:Hz; [done|].
    destruct (Auction.loop riders _ actions1) as [st1|st1|]; [done| |done].
    unfold Auction.save_results at 1.
    destruct (Auction.export_text (results st1) riders) as [text1|]; [|done].
    cbn. intros [= <- <- <-].
    assert (<[Auction.output_file input_file := text1]> fs !! input_file
            = fs !! input_file) as Hin
      by apply lookup_insert_ne, output_file_differs.
    rewrite bool_decide_true by by rewrite Hin.
    rewrite (cli_read_riders_ext _ _ _ _ Hin), Hload, Hz.
    destruct (Auction.loop riders _ actions2) as [st2|st2|]; [done| |done].
    unfold Auction.save_results.
    destruct (Auction.export_text (results st2) riders) as [text2|]; [|done].
    cbn. by rewrite insert_insert_eq.
  - intros ta1 tt1 tfs1 ta2 tt2 tfs2 Htui1 Htui2.
    apply tui_main_done in Htui1 as (out1 & text1 & Hnone1 & ->).
    apply tui_main_done in Htui2 as (out2 & text2 & Hnone2 & ->).
    assert (out1 ≠ out2) as Hne.
    { intros ->. by rewrite lookup_insert_eq in Hnone2. }
    exists out1, out2, text1, text2. split; [done|]. split; [done|].
    split; [by rewrite lookup_insert_ne in Hnone2|]. split; [done|].
    split; [by rewrite lookup_insert_ne, lookup_insert_eq|by rewrite lookup_insert_eq].
Qed.

Lemma second_run_witness :
  let fs : files := {[ lit "in.csv" := lit "Tadej POGACAR" ++ [LF] ]} in
  let argv := [lit "auction.py"; lit "in.csv"] in
  let first := [Assign (lit "TeamA") (lit "7") (KeyChar "q")] in
  let second := [Quit] in
  let text1 := lit "Corridore,Squadra,Prezzo" ++ [CR; LF]
               ++ lit "Tadej POGACAR,TeamA,7" ++ [CR; LF] in
  let fs1 := <[lit "in_auction_results.csv" := text1]> fs in
  AuctionMain.main (λ _, None) argv first fs = Done 1 1 fs1
  ∧ AuctionTuiMain.main (λ _, None) 3 argv first fs = AwaitingKey
  ∧ AuctionMain.main (λ _, None) argv second fs1
    = AuctionMain.main (λ _, None) argv second fs.
Proof.
  intros fs argv first second text1 fs1.
  assert (AuctionMain.main (λ _, None) argv first fs = Done 1 1 fs1) as Hfirst
    by (vm_compute; reflexivity).
  split; [exact Hfirst|]. split; [vm_compute; reflexivity|].
  exact (proj1 (second_run (λ _, None) 3 argv first second fs) 1 1 fs1 Hfirst).
Defined.

(** ** The two loaders side by side *)

Lemma tui_csv_loader (filepath : str) (fs : files) :
  AuctionTui.read_riders_from_csv filepath fs
  = (λ riders : list str, (λ n, AuctionTui.RiderDict n None) <$> riders)
    <$> Auction.read_riders_from_csv filepath fs.
Proof.
  unfold Auction.read_riders_from_csv, AuctionTui.read_riders_from_csv.
  destruct (fs !! filepath) as [content|]; [|done]. cbn [mbind option_bind].
  by destruct (Csv.reader_rows (Io.text_lines content)).
Qed.

Lemma csv_loader_names (filepath : str) (fs : files) (riders : list str) :
  Auction.read_riders_from_csv filepath fs = Some riders →
  Forall (λ n, n ≠ [] ∧ strip n = n) riders.
Proof.
  unfold Auction.read_riders_from_csv.
  destruct (fs !! filepath) as [content|]; [|done]. cbn [mbind option_bind].
  destruct (Csv.reader_rows (Io.text_lines content)) as [rows|] eqn:Hrows; [|done].
  cbn [mbind option_bind]. intros [= <-].
  eapply Forall_impl; [by apply first_column_ok, (reader_rows_ok content)|].
  by intros n [(? & ? & _) _].
Qed.

Lemma names_dicts (riders : list str) :
  names ((λ n, AuctionTui.RiderDict n None) <$> riders) = riders.
Proof.
  unfold names. induction riders as [|n riders IH]; [done|].
  rewrite fmap_cons. cbn [map AuctionTui.rider_name]. by rewrite IH.
Qed.

(** X16.  On every path and every file system the two programs'
    [read_riders] end alike: both raise the ValueError for an unsupported
    extension, both fail to read, or both return riders, and then the
    widget program's riders have exactly the names the line-oriented
    program returns, in the same order, whether the file is a spreadsheet
    or a CSV file; every such name is non-empty and trimmed. *)
Theorem read_riders_agree
    (load_workbook : list ascii → option sheet) (filepath : str) (fs : files) :
  match AuctionMain.read_riders load_workbook filepath fs,
        AuctionTuiMain.read_riders load_workbook filepath fs with
  | Riders riders, Riders ents =>
      names ents = riders ∧ Forall (λ n, n ≠ [] ∧ strip n = n) riders
  | ValueError, ValueError => True
  | ReadError, ReadError => True
  | _, _ => False
  end.
Proof.
  unfold AuctionMain.read_riders, AuctionTuiMain.read_riders.
  destruct (endswith filepath (lit ".xlsx") || endswith filepath (lit ".xls")).
  - unfold AuctionMain.read_riders_from_excel, AuctionTuiMain.read_riders_from_excel.
    destruct (fs !! filepath) as [content|]; [|done]. cbn [mbind option_bind].
    destruct (load_workbook content) as [ws|]; [|done]. cbn [mbind option_bind].
    split; [apply excel_riders_agree|apply cli_excel_riders_names].
  - destruct (endswith filepath (lit ".csv")); [|done].
    rewrite tui_csv_loader.
    destruct (Auction.read_riders_from_csv filepath fs) as [riders|] eqn:Hread;
      [|done].
    cbn [fmap option_fmap option_map].
    split; [apply names_dicts|by eapply csv_loader_names].
Qed.

(** ** The summary *)

Lemma assigned_one_change (i : nat) (l l' : list result) :
  length l' = length l → (∀ j, j ≠ i → l' !! j = l !! j) →
  assigned l' ≤ assigned l + 1.
Proof.
  revert i l'. induction l as [|r l IH]; intros i [|r' l'] Hlen Hframe;
    cbn in Hlen; try done; [cbn; lia|].
  cbn [assigned]. destruct i as [|i].
  - assert (l' = l) as ->.
    { apply list_eq. intros j. apply (Hframe (S j)). lia. }
    destruct (has_team r'), (has_team r); lia.
  - assert (r' = r) as ->.
    { specialize (Hframe 0). cbn in Hframe. by injection (Hframe ltac:(lia)). }
    assert (assigned l' ≤ assigned l + 1).
    { apply (IH i); [lia|]. intros j Hj. apply (Hframe (S j)). lia. }
    destruct (has_team r); lia.
Qed.

Lemma assigned_counts (l : list result) :
  Forall (λ r, r = unassigned ∨ has_team r = true) l →
  assigned l = length (filter (λ r, r ≠ unassigned) l).
Proof.
  induction 1 as [|r l Hr _ IH]; [done|].
  cbn [assigned]. rewrite filter_cons, IH.
  destruct Hr as [->|Hr].
  - by rewrite decide_False by (by intros H; apply H).
  - rewrite Hr, decide_True; [done|]. by intros ->.
Qed.

Lemma cli_entry_has_team (r : result) :
  cli_entry r → r = unassigned ∨ has_team r = true.
Proof.
  intros [->|(t & v & -> & Ht & Hskip & _)]; [by left|right].
  unfold has_team. cbn. unfold is_skip in Hskip. rewrite Ht in Hskip.
  by destruct (nonempty t).
Qed.

Lemma tui_entry_has_team (r : result) :
  tui_entry r → r = unassigned ∨ has_team r = true.
Proof.
  intros [->|(t & p & -> & Hne & _)]; [by left|right].
  unfold has_team. cbn. by destruct t.
Qed.

Lemma step_assigned (st st' : session) (a : action) :
  length (results st') = length (results st) →
  (∀ j, j ≠ current_index st → results st' !! j = results st !! j) →
  (is_assign a = false → results st' = results st) →
  assigned (results st') ≤ assigned (results st) + (if is_assign a then 1 else 0).
Proof.
  intros Hlen Hframe Hsame. destruct (is_assign a).
  - by apply (assigned_one_change (current_index st)).
  - rewrite Hsame by done. lia.
Qed.

Lemma cli_loop_assigned (riders : list str) (actions : list action) (st : session) :
  in_session riders st →
  ∃ c, state_of (Auction.loop riders st actions) = Some c
       ∧ assigned (results c)
         ≤ assigned (results st) + length (List.filter is_assign actions).
Proof.
  revert st. induction actions as [|a actions IH]; intros st H;
    cbn [Auction.loop List.filter].
  - exists st. split; [done|]. cbn. lia.
  - destruct (cli_step_in_session riders st a H) as (st' & Hs & H').
    destruct (cli_step_frame riders st a H) as (c & Hc & Hlen & Hframe & Hsame).
    rewrite Hs in Hc. injection Hc as <-.
    pose proof (step_assigned st st' a Hlen Hframe Hsame) as Hstep.
    destruct (Auction.step riders st a) as [st1|st1|]; cbn in Hs; simplify_eq.
    + destruct (IH st' H') as (c & Hc & Hle). exists c. split; [done|].
      destruct (is_assign a); cbn [length]; lia.
    + exists st'. split; [done|]. destruct (is_assign a); cbn [length]; lia.
Qed.

Lemma tui_loop_assigned (ents : list AuctionTui.rider) (actions : list action)
    (st : session) :
  in_session ents st →
  ∃ c, state_of (AuctionTui.loop ents st actions) = Some c
       ∧ assigned (results c)
         ≤ assigned (results st) + length (List.filter is_assign actions).
Proof.
  revert st. induction actions as [|a actions IH]; intros st H;
    cbn [AuctionTui.loop List.filter].
  - exists st. split; [done|]. cbn. lia.
  - destruct (tui_step_in_session ents st a H) as (st' & Hs & H').
    destruct (tui_step_frame ents st a H) as (c & Hc & Hlen & Hframe & Hsame).
    rewrite Hs in Hc. injection Hc as <-.
    pose proof (step_assigned st st' a Hlen Hframe Hsame) as Hstep.
    destruct (AuctionTui.step ents st a) as [st1|st1|]; cbn in Hs; simplify_eq.
    + destruct (IH st' H') as (c & Hc & Hle). exists c. split; [done|].
      destruct (is_assign a); cbn [length]; lia.
    + exists st'. split; [done|]. destruct (is_assign a); cbn [length]; lia.
Qed.

Lemma assigned_unassigned (l : list result) :
  Forall (λ r, r = unassigned) l → assigned l = 0.
Proof. induction 1 as [|r l -> _ IH]; [done|]. cbn. by rewrite IH. Qed.

(** X17.  In both front-ends, whatever the operator does from the start
    of a session, the number of assigned riders the summary reports is
    the number of entries that differ from the initial unassigned entry,
    and it is at most the number of Assign actions performed. *)
Theorem summary_count
    (riders : list str) (ents : list AuctionTui.rider)
    (actions : list action) (st0 tst0 : session) :
  Auction.start riders = Some st0 →
  AuctionTui.start ents = Some tst0 →
  (∃ st, state_of (Auction.loop riders st0 actions) = Some st
         ∧ assigned (results st) = length (filter (λ r, r ≠ unassigned) (results st))
         ∧ assigned (results st) ≤ length (List.filter is_assign actions))
  ∧ (∃ st, state_of (AuctionTui.loop ents tst0 actions) = Some st
           ∧ assigned (results st) = length (filter (λ r, r ≠ unassigned) (results st))
           ∧ assigned (results st) ≤ length (List.filter is_assign actions)).
Proof.
  intros Hc Ht. split.
  - apply cli_start in Hc as [H0 Hall0].
    assert (Forall cli_entry (results st0)) as Hent0
      by (eapply Forall_impl; [exact Hall0|by left]).
    destruct (cli_loop_entries riders actions st0 H0 Hent0) as (st & Hs & _ & Hent).
    destruct (cli_loop_assigned riders actions st0 H0) as (st' & Hs' & Hle).
    rewrite Hs in Hs'. injection Hs' as <-.
    exists st. split; [done|]. split.
    + apply assigned_counts. eapply Forall_impl; [exact Hent|].
      apply cli_entry_has_team.
    + rewrite (assigned_unassigned _ Hall0) in Hle. lia.
  - apply tui_start in Ht as [H0 Hall0].
    assert (Forall tui_entry (results tst0)) as Hent0
      by (eapply Forall_impl; [exact Hall0|by left]).
    destruct (tui_loop_entries ents actions tst0 H0 Hent0) as (st & Hs & _ & Hent).
    destruct (tui_loop_assigned ents actions tst0 H0) as (st' & Hs' & Hle).
    rewrite Hs in Hs'. injection Hs' as <-.
    exists st. split; [done|]. split.
    + apply assigned_counts. eapply Forall_impl; [exact Hent|].
      apply tui_entry_has_team.
    + rewrite (assigned_unassigned _ Hall0) in Hle. lia.
Qed.

Lemma summary_count_witness :
  let riders := [lit "Tadej POGACAR"; lit "Jonas VINGEGAARD"] in
  let actions := [Assign (lit "TeamA") (lit "7") KeyOther;
                  Assign (lit "skip") [] KeyOther] in
  ∃ st, state_of (Auction.loop riders
                    {| current_index := 0; results := [unassigned; unassigned] |}
                    actions) = Some st
        ∧ assigned (results st) = length (filter (λ r, r ≠ unassigned) (results st))
        ∧ assigned (results st) ≤ length (List.filter is_assign actions).
Proof.
  intros riders actions.
  exact (proj1 (summary_count riders
                  [AuctionTui.RiderStr (lit "Tadej POGACAR");
                   AuctionTui.RiderStr (lit "Jonas VINGEGAARD")]
                  actions
                  {| current_index := 0; results := [unassigned; unassigned] |}
                  {| current_index := 0; results := [unassigned; unassigned] |}
                  eq_refl eq_refl)).
Defined.

(** ** Prices, exported and entered again *)

Lemma isdigit_not_space (c : ascii) : isdigit c = true → isspace c = false.
Proof.
  destruct c as [[] [] [] [] [] [] [] []]; vm_compute; congruence.
Qed.

Lemma strip_no_space (s : str) :
  Forall (λ c, isspace c = false) s → strip s = s.
Proof.
  destruct s as [|c s]; [done|]. intros H. apply Forall_cons in H as [Hc Hs].
  destruct s as [|d s _] using rev_ind.
  - unfold strip, rstrip. rewrite (lstrip_fixed c [] Hc).
    change (reverse [c]) with [c]. by rewrite (lstrip_fixed c [] Hc).
  - apply Forall_app in Hs as [_ Hd]. apply Forall_cons in Hd as [Hd _].
    by apply strip_no_outer_space.
Qed.

Lemma uint_chars_digits (d : Decimal.uint) :
  Forall (λ c, isdigit c = true) (lit (NilEmpty.string_of_uint d)).
Proof. induction d; constructor; done. Qed.

Lemma int_digits_uint (acc : Z) (d : Decimal.uint) :
  int_digits acc false (lit (NilEmpty.string_of_uint d)) = Some (uint_val acc d).
Proof. revert acc. induction d; intros acc; [done|..]; exact (IHd _). Qed.

Lemma count_digits_uint (d : Decimal.uint) :
  count_digits (lit (NilEmpty.string_of_uint d)) = Decimal.nb_digits d.
Proof.
  induction d; [done|..]; cbn [Decimal.nb_digits]; rewrite <- IHd; done.
Qed.

Lemma int_unsigned_cons (c : ascii) (s : str) :
  isdigit c = true →
  (Z.of_nat (count_digits (c :: s)) ≤ max_str_digits)%Z →
  int_unsigned (c :: s) = int_digits (digit_value c) false s.
Proof.
  intros Hc Hcap. unfold int_unsigned. rewrite Hc.
  by destruct (Z.leb_spec (Z.of_nat (count_digits (c :: s))) max_str_digits); [|lia].
Qed.

Lemma int_unsigned_uint (d : Decimal.uint) :
  d ≠ Decimal.Nil →
  (Z.of_nat (Decimal.nb_digits d) ≤ max_str_digits)%Z →
  int_unsigned (lit (NilEmpty.string_of_uint d)) = Some (uint_val 0 d).
Proof.
  intros Hnil Hcap. rewrite <- count_digits_uint in Hcap.
  destruct d; [done|..];
    (etrans; [by apply (int_unsigned_cons _ (lit (NilEmpty.string_of_uint d)))|]);
    exact (int_digits_uint _ d).
Qed.

Lemma uint_val_acc (d : Decimal.uint) (acc : positive) :
  uint_val (Z.pos acc) d = Z.pos (Pos.of_uint_acc d acc).
Proof.
  revert acc. induction d; intros acc; cbn [uint_val Pos.of_uint_acc]; [done|..];
    rewrite <- IHd; f_equal; lia.
Qed.

Lemma uint_val_0 (d : Decimal.uint) : uint_val 0 d = Z.of_N (Pos.of_uint d).
Proof.
  induction d; cbn [uint_val Pos.of_uint Z.of_N]; [done|exact IHd|..];
    rewrite <- uint_val_acc; done.
Qed.

Lemma pos_digits (p : positive) :
  Pos.to_uint p ≠ Decimal.Nil ∧ uint_val 0 (Pos.to_uint p) = Z.pos p.
Proof.
  assert (uint_val 0 (Pos.to_uint p) = Z.pos p) as H.
  { by rewrite uint_val_0, DecimalPos.Unsigned.of_to. }
  split; [|done]. intros Hnil. by rewrite Hnil in H.
Qed.

Lemma uint_val_lower (d : Decimal.uint) (acc : Z) :
  (0 ≤ acc)%Z → (acc * 10 ^ Z.of_nat (Decimal.nb_digits d) ≤ uint_val acc d)%Z.
Proof.
  revert acc. induction d; intros acc Hacc; cbn [uint_val Decimal.nb_digits];
    [cbn; lia|..];
    (rewrite Nat2Z.inj_succ, Z.pow_succ_r by lia;
     assert (0 < 10 ^ Z.of_nat (Decimal.nb_digits d))%Z
       by (apply Z.pow_pos_nonneg; lia);
     match goal with
     | |- (_ ≤ uint_val ?a _)%Z => pose proof (IHd a ltac:(lia))
     end; nia).
Qed.

Lemma nzhead_no_zero (d d' : Decimal.uint) : Decimal.nzhead d ≠ Decimal.D0 d'.
Proof. induction d; done. Qed.

(** The decimal digits of a positive number start with no zero. *)
Lemma pos_leading (p : positive) :
  (10 ^ Z.of_nat (Decimal.nb_digits (Pos.to_uint p) - 1) ≤ Z.pos p)%Z.
Proof.
  destruct (pos_digits p) as [Hnil Hval].
  assert (Decimal.unorm (Pos.to_uint p) = Pos.to_uint p) as Hnorm.
  { rewrite <- DecimalPos.Unsigned.to_of, DecimalPos.Unsigned.of_to. done. }
  rewrite <- Hval.
  destruct (Pos.to_uint p) as [|d|d|d|d|d|d|d|d|d|d]; [done| |..];
    cbn [Decimal.nb_digits uint_val];
    rewrite ?Nat.sub_succ, ?Nat.sub_0_r.
  - exfalso. unfold Decimal.unorm in Hnorm. cbn [Decimal.nzhead] in Hnorm.
    destruct (Decimal.nzhead d) as [|d'|d'|d'|d'|d'|d'|d'|d'|d'|d'] eqn:Hh;
      try done.
    + injection Hnorm as <-. cbn in Hval. done.
    + by apply nzhead_no_zero in Hh.
  - etrans; [|apply uint_val_lower; lia]. lia.
  - etrans; [|apply uint_val_lower; lia]. lia.
  - etrans; [|apply uint_val_lower; lia]. lia.
  - etrans; [|apply uint_val_lower; lia]. lia.
  - etrans; [|apply uint_val_lower; lia]. lia.
  - etrans; [|apply uint_val_lower; lia]. lia.
  - etrans; [|apply uint_val_lower; lia]. lia.
  - etrans; [|apply uint_val_lower; lia]. lia.
  - etrans; [|apply uint_val_lower; lia]. lia.
Qed.

Lemma int_skip_no_space (s : str) :
  Forall (λ c, isspace c = false) s → int_skip s = s.
Proof. destruct 1; [done|]. by apply int_skip_fixed. Qed.

Lemma int_trim_no_space (s : str) :
  Forall (λ c, isspace c = false) s → int_trim s = s.
Proof.
  intros H. unfold int_trim. rewrite (int_skip_no_space s H).
  rewrite int_skip_no_space by by apply Forall_reverse.
  apply reverse_involutive.
Qed.

Lemma pos_chars_no_space (p : positive) :
  Forall (λ c, isspace c = false) (lit (NilEmpty.string_of_uint (Pos.to_uint p))).
Proof.
  eapply Forall_impl; [apply uint_chars_digits|apply isdigit_not_space].
Qed.

Lemma str_of_Z_pos (p : positive) :
  str_of_Z (Z.pos p) = lit (NilEmpty.string_of_uint (Pos.to_uint p)).
Proof.
  destruct (pos_digits p) as [Hnil _].
  unfold str_of_Z. cbn [Z.to_int NilZero.string_of_int].
  unfold NilZero.string_of_uint. by destruct (Pos.to_uint p).
Qed.

Lemma str_of_Z_neg (p : positive) :
  str_of_Z (Z.neg p) = "-"%char :: lit (NilEmpty.string_of_uint (Pos.to_uint p)).
Proof.
  destruct (pos_digits p) as [Hnil _].
  unfold str_of_Z. cbn [Z.to_int NilZero.string_of_int].
  unfold NilZero.string_of_uint. by destruct (Pos.to_uint p).
Qed.

Lemma str_of_Z_no_space (n : Z) : Forall (λ c, isspace c = false) (str_of_Z n).
Proof.
  destruct n as [|p|p].
  - by repeat constructor.
  - rewrite str_of_Z_pos. apply pos_chars_no_space.
  - rewrite str_of_Z_neg. constructor; [done|apply pos_chars_no_space].
Qed.

Lemma pos_within_cap (p : positive) (c : nat) :
  (Z.pos p < 10 ^ Z.of_nat c)%Z → (Z.of_nat c ≤ max_str_digits)%Z →
  (Z.of_nat (Decimal.nb_digits (Pos.to_uint p)) ≤ max_str_digits)%Z.
Proof.
  intros Hlt Hcap. pose proof (pos_leading p) as Hlead.
  assert (Z.of_nat (Decimal.nb_digits (Pos.to_uint p) - 1) < Z.of_nat c)%Z.
  { apply (Z.pow_lt_mono_r_iff 10); lia. }
  lia.
Qed.

(** [int(str(n))] is [n] for a number within the limit on the digits. *)
Lemma int_str_of_Z (n : Z) (c : nat) :
  (Z.abs n < 10 ^ Z.of_nat c)%Z → (Z.of_nat c ≤ max_str_digits)%Z →
  int (str_of_Z n) = Some n.
Proof.
  intros Hlt Hcap. unfold int.
  rewrite (int_trim_no_space _ (str_of_Z_no_space n)).
  destruct n as [|p|p]; [done|..]; destruct (pos_digits p) as [Hnil Hval].
  - assert (int_unsigned (lit (NilEmpty.string_of_uint (Pos.to_uint p)))
            = Some (Z.pos p)) as Hu.
    { rewrite <- Hval. apply int_unsigned_uint; [done|].
      by apply (pos_within_cap p c). }
    rewrite str_of_Z_pos, <- Hu. by destruct (Pos.to_uint p).
  - assert (int_unsigned (lit (NilEmpty.string_of_uint (Pos.to_uint p)))
            = Some (Z.pos p)) as Hu.
    { rewrite <- Hval. apply int_unsigned_uint; [done|].
      by apply (pos_within_cap p c). }
    rewrite str_of_Z_neg. cbv beta iota. rewrite bool_decide_true by done.
    by rewrite Hu.
Qed.

Lemma int_reparse (s : str) (n : Z) : int s = Some n → int (str_of_Z n) = Some n.
Proof.
  intros Hn. apply int_bound in Hn as (c & Hlt & Hcap). by eapply int_str_of_Z.
Qed.

(** X18.  An integer price the program stores parses back from its
    decimal text to the same integer, and a price is normalised once:
    entering the exported value text of an entry as the price again
    stores the same price. *)
Theorem price_reentered (p : str) :
  (∀ n : Z, price_of p = PInt n → price_of (py_str (PInt n)) = PInt n)
  ∧ price_of (price_field (Some (price_of p))) = price_of p.
Proof.
  assert (∀ n : Z, price_of p = PInt n → price_of (py_str (PInt n)) = PInt n)
    as Hint.
  { intros n. unfold price_of at 1.
    destruct (int (strip p)) as [m|] eqn:Hp.
    - intros [= <-]. unfold price_of. cbn [py_str].
      by rewrite (strip_no_space _ (str_of_Z_no_space m)), (int_reparse _ _ Hp).
    - destruct (nonempty (strip p)); [done|]. by intros [= <-]. }
  split; [exact Hint|].
  destruct (price_of p) as [n|t] eqn:Hprice.
  - cbn [price_field truthy]. destruct (Z.eqb_spec n 0) as [->|Hn]; [done|].
    cbn [negb]. by apply Hint.
  - unfold price_of in Hprice.
    destruct (int (strip p)) as [m|] eqn:Hp; [done|].
    destruct (strip p) as [|c s] eqn:Hs; [done|].
    cbn [nonempty] in Hprice. injection Hprice as <-.
    cbn [price_field truthy nonempty py_str]. unfold price_of.
    rewrite <- Hs, strip_idem, Hs, Hp. done.
Qed.

(** ** Where the results go *)

Lemma basename_of_path (dir name : str) :
  "/"%char ∉ name → basename (dir ++ "/"%char :: name) = name.
Proof.
  intros Hname. unfold basename, rfind.
  rewrite rfind_from_last by (done || lia).
  replace (Z.to_nat (0 + Z.of_nat (length dir) + 1)) with (length dir + 1) by lia.
  rewrite (cons_middle _ dir name), app_assoc.
  rewrite drop_app_length'; [done|]. rewrite length_app. cbn. lia.
Qed.

Lemma base_name_no_sep (input_file : str) : "/"%char ∉ base_name input_file.
Proof.
  unfold base_name. intros Hin. apply splitext_root_elem in Hin.
  by apply basename_no_sep in Hin.
Qed.

Lemma digits_no_sep (k : nat) : "/"%char ∉ str_of_nat k.
Proof.
  intros Hin. pose proof (uint_chars_digits (Nat.to_uint k)) as Hd.
  rewrite Forall_forall in Hd. by apply Hd in Hin.
Qed.

Lemma literal_no_sep (s : str) :
  forallb (λ c, negb (bool_decide (c = "/"%char))) s = true → "/"%char ∉ s.
Proof.
  induction s as [|c s IH]; cbn; [intros _; apply not_elem_of_nil|].
  case_bool_decide; [done|]. cbn. intros Hs. apply not_elem_of_cons. split; [done|].
  by apply IH.
Qed.

(** X19.  Both programs write the results into the working directory,
    not next to the input file: the output file name holds no directory
    separator, and it depends on the file name of the input only, not on
    the directory the input is in. *)
Theorem results_in_working_directory (input_file : str) :
  ("/"%char ∉ Auction.output_file input_file)
  ∧ (∀ fuel fs name,
       AuctionTui.get_unique_output_file fuel fs (base_name input_file) = Some name →
       "/"%char ∉ name)
  ∧ (∀ dir name, "/"%char ∉ name →
       base_name (dir ++ "/"%char :: name) = base_name name
       ∧ Auction.output_file (dir ++ "/"%char :: name) = Auction.output_file name).
Proof.
  pose proof (base_name_no_sep input_file) as Hbase.
  split; [|split].
  - unfold Auction.output_file. rewrite elem_of_app. intros [Hin|Hin]; [done|].
    by apply (literal_no_sep (lit "_auction_results.csv")) in Hin.
  - intros fuel fs name. unfold AuctionTui.get_unique_output_file.
    destruct (negb _).
    + intros [= <-]. rewrite elem_of_app. intros [Hin|Hin]; [done|].
      by apply (literal_no_sep (lit "_auction_results.csv")) in Hin.
    + intros Hl. apply unique_loop_some in Hl as (k & _ & -> & _).
      unfold AuctionTui.numbered_file. rewrite !elem_of_app.
      intros [Hin|[Hin|[Hin|Hin]]]; [done| | |].
      * by apply (literal_no_sep (lit "_auction_results_")) in Hin.
      * by apply digits_no_sep in Hin.
      * by apply (literal_no_sep (lit ".csv")) in Hin.
  - intros dir name Hname.
    assert (base_name (dir ++ "/"%char :: name) = base_name name) as Hsame.
    { unfold base_name. rewrite basename_of_path by done.
      unfold basename, rfind. by rewrite rfind_from_notin. }
    split; [done|]. unfold Auction.output_file. by rewrite Hsame.
Qed.
